(** * DAGO execution coordinator: graph validator and execution manager

    A shallow embedding of
      - internal/application/orchestrator/validator.go
      - internal/application/orchestrator/manager.go
    together with the collaborators the manager talks to (state storage,
    event bus, logger, metrics, clock, UUID source, per-execution deadline
    contexts), threaded explicitly through a [World]. *)

From stdpp Require Import gmap strings list fin_maps pretty.

Open Scope string_scope.
Open Scope list_scope.
Open Scope nat_scope.

(** ** Domain types (package domain of dago-libs, as the manager uses them) *)

Definition Time := nat.

Inductive ExecutionStatus :=
| ExecutionStatusPending
| ExecutionStatusSubmitted
| ExecutionStatusRunning
| ExecutionStatusCompleted
| ExecutionStatusFailed
| ExecutionStatusCancelled.

Global Instance ExecutionStatus_eq_dec : EqDecision ExecutionStatus.
Proof. solve_decision. Defined.

Inductive NodeType :=
| NodeTypeStart
| NodeTypeExecutor
| NodeTypeRouter
| NodeTypeEnd.

Global Instance NodeType_eq_dec : EqDecision NodeType.
Proof. solve_decision. Defined.

(** A node of the graph.  The coordinator reads only [GetType] and the
    verdict of the node's own [Validate] hook; the variant-specific
    configuration behind that verdict is not interpreted.  Nodes are values
    here, so the validator's test for a nil node has no counterpart. *)
Record Node := {
  GetType : NodeType;
  NodeValidate : option string   (* [None]: the hook returns nil *)
}.

Global Instance Node_eq_dec : EqDecision Node.
Proof. solve_decision. Defined.

Record Edge := {
  EdgeFrom : string;
  EdgeTo : string;
  EdgeLabel : string
}.

Global Instance Edge_eq_dec : EqDecision Edge.
Proof. solve_decision. Defined.

Record Graph := {
  ID : string;
  Version : string;
  Nodes : gmap string Node;
  Edges : list Edge;
  EntryNode : string
}.

Global Instance Graph_eq_dec : EqDecision Graph.
Proof. solve_decision. Defined.

(** Values of Go type [interface{}] that travel through the coordinator
    uninterpreted (inputs, node outputs). *)
Inductive Value :=
| VNil
| VString (s : string)
| VNumber (z : Z)
| VBool (b : bool).

Global Instance Value_eq_dec : EqDecision Value.
Proof. solve_decision. Defined.

Record NodeState := {
  NodeID : string;
  NStatus : ExecutionStatus;
  NStartedAt : option Time;
  NCompletedAt : option Time;
  Output : Value;
  NError : string
}.

Global Instance NodeState_eq_dec : EqDecision NodeState.
Proof. solve_decision. Defined.

Record GraphState := {
  GraphID : string;
  SGraph : Graph;
  Status : ExecutionStatus;
  Inputs : gmap string Value;
  NodeStates : gmap string NodeState;
  SubmittedAt : Time;
  StartedAt : option Time;
  CompletedAt : option Time;
  Error : string
}.

Global Instance GraphState_eq_dec : EqDecision GraphState.
Proof. solve_decision. Defined.

Definition is_terminal (s : ExecutionStatus) : bool :=
  match s with
  | ExecutionStatusCompleted | ExecutionStatusFailed | ExecutionStatusCancelled => true
  | _ => false
  end.

(** Modelled from the spec: [Graph.GetNode] lives in dago-libs and is not
    part of the sources; it is the lookup of a node id in [nodes], nil when
    the id is absent. *)
Definition GetNode (g : Graph) (nodeID : string) : option Node :=
  Nodes g !! nodeID.

(** Modelled from the spec: [Graph.GetOutgoingEdges] lives in dago-libs and
    is not part of the sources; it returns the edges whose [from] is the
    given node, in [edges] order. *)
Definition GetOutgoingEdges (g : Graph) (nodeID : string) : list Edge :=
  filter (λ e, EdgeFrom e = nodeID) (Edges g).

(** ** Events (ports.Event) *)

Inductive EventType :=
| EventTypeGraphSubmitted
| EventTypeGraphCompleted
| EventTypeGraphFailed
| EventTypeGraphCancelled
| EventTypeNodeStarted
| EventTypeNodeWork               (* the literal "node.work" *)
| EventTypeOther (name : string). (* whatever a worker puts on the bus *)

Global Instance EventType_eq_dec : EqDecision EventType.
Proof. solve_decision. Defined.

(** What an entry of [Event.Data] can hold. *)
Inductive Any :=
| AValue (v : Value)
| AMap (m : gmap string Value)
| ANodeStates (m : gmap string NodeState).

Global Instance Any_eq_dec : EqDecision Any.
Proof. solve_decision. Defined.

Record Event := {
  EvID : string;
  EvType : EventType;
  Timestamp : Time;
  ExecutionID : string;
  Data : gmap string Any
}.

Global Instance Event_eq_dec : EqDecision Event.
Proof. solve_decision. Defined.

(** The type assertion [v.(string)] on an entry of [Event.Data]: the zero
    value and [false] when the key is absent or holds something else. *)
Definition as_string (o : option Any) : string * bool :=
  match o with
  | Some (AValue (VString s)) => (s, true)
  | _ => ("", false)
  end.

(** An untyped read [event.Data[k]]: nil when the key is absent. *)
Definition as_value (o : option Any) : Value :=
  match o with
  | Some (AValue v) => v
  | _ => VNil
  end.

Definition TopicExecutorWork := "executor.work".
Definition TopicRouterWork := "router.work".
Definition TopicNodeCompleted := "node.completed".
Definition TopicGraphEvents := "graph.events".

(** ** Errors *)

Inductive NodeError :=
| ErrNodeIDRequired               (* "node ID is required" *)
| ErrNodeHook (cause : string).   (* the node's own Validate error *)

Inductive ValidateError :=
| ErrGraphIDRequired              (* "graph ID is required" *)
| ErrGraphVersionRequired         (* "graph version is required" *)
| ErrNoNodes                      (* "graph must have at least one node" *)
| ErrInvalidNode (nodeID : string) (cause : NodeError)
| ErrDuplicateNode (nodeID : string)
| ErrEntryNodeNotFound (nodeID : string)
| ErrEdgeSource (nodeID : string)  (* "edge references non-existent source node" *)
| ErrEdgeTarget (nodeID : string). (* "edge references non-existent target node" *)

Inductive ManagerError :=
| ErrValidationFailed (cause : ValidateError)  (* "validation failed: %w" *)
| ErrSaveState                                 (* "failed to save state: %w" *)
| ErrGetState                                  (* "failed to get state: %w" *)
| ErrPublish                                   (* the bus's own error *)
| ErrPublishWork                               (* "failed to publish work event: %w" *)
| ErrNodeNotFound (nodeID : string)            (* "node not found: %s" *)
| ErrExecutionNotFound (graphID : string)      (* "execution not found: %s" *)
| ErrAlreadyTerminal (s : ExecutionStatus).    (* "execution already in terminal state: %s" *)

(** ** Collaborators *)

Inductive Level := LInfo | LWarn | LError.

Record LogEntry := {
  LogLevel : Level;
  LogMsg : string;
  LogGraph : string
}.

Inductive Metric :=
| RecordGraphSubmitted (status : ExecutionStatus)
| RecordGraphCompleted (status : ExecutionStatus) (duration : nat).

(** State of the context made by [context.WithTimeout] for one execution:
    [ctx.Err()] is nil, [context.Canceled] or [context.DeadlineExceeded]. *)
Inductive CtxState := CtxActive | CtxCanceled | CtxDeadlineExceeded.

Global Instance CtxState_eq_dec : EqDecision CtxState.
Proof. solve_decision. Defined.

(** [executionContext]; its [cancelFunc] cancels the deadline context kept
    under the same execution id in [deadlines]. *)
Record executionContext := {
  graphID : string;
  status : ExecutionStatus;
  startedAt : Time
}.

Record World := {
  store : gmap string GraphState;            (* what StateStorage holds *)
  executions : gmap string executionContext; (* Manager.executions *)
  deadlines : gmap string CtxState;          (* one deadline context per execution *)
  bus : list (string * Event);               (* accepted publications, oldest first *)
  logs : list LogEntry;
  metrics : list Metric;
  clock : Time;                              (* next reading of time.Now() *)
  uuids : nat                                (* number of UUIDs minted so far *)
}.

(** How the fallible collaborators answer. *)
Record Env := {
  publish_ok : string → Event → bool;  (* EventBus.Publish returns nil *)
  save_ok : GraphState → bool;         (* StateStorage.SaveState returns nil *)
  get_ok : string → bool               (* StateStorage.GetState can reach the store *)
}.

Definition with_store (f : gmap string GraphState → gmap string GraphState) (w : World) : World :=
  {| store := f (store w); executions := executions w; deadlines := deadlines w;
     bus := bus w; logs := logs w; metrics := metrics w; clock := clock w; uuids := uuids w |}.

Definition with_executions (f : gmap string executionContext → gmap string executionContext)
    (w : World) : World :=
  {| store := store w; executions := f (executions w); deadlines := deadlines w;
     bus := bus w; logs := logs w; metrics := metrics w; clock := clock w; uuids := uuids w |}.

Definition with_deadlines (f : gmap string CtxState → gmap string CtxState) (w : World) : World :=
  {| store := store w; executions := executions w; deadlines := f (deadlines w);
     bus := bus w; logs := logs w; metrics := metrics w; clock := clock w; uuids := uuids w |}.

Definition with_bus (f : list (string * Event) → list (string * Event)) (w : World) : World :=
  {| store := store w; executions := executions w; deadlines := deadlines w;
     bus := f (bus w); logs := logs w; metrics := metrics w; clock := clock w; uuids := uuids w |}.

Definition with_logs (f : list LogEntry → list LogEntry) (w : World) : World :=
  {| store := store w; executions := executions w; deadlines := deadlines w;
     bus := bus w; logs := f (logs w); metrics := metrics w; clock := clock w; uuids := uuids w |}.

Definition with_metrics (f : list Metric → list Metric) (w : World) : World :=
  {| store := store w; executions := executions w; deadlines := deadlines w;
     bus := bus w; logs := logs w; metrics := f (metrics w); clock := clock w; uuids := uuids w |}.

Definition with_clock (f : Time → Time) (w : World) : World :=
  {| store := store w; executions := executions w; deadlines := deadlines w;
     bus := bus w; logs := logs w; metrics := metrics w; clock := f (clock w); uuids := uuids w |}.

Definition with_uuids (f : nat → nat) (w : World) : World :=
  {| store := store w; executions := executions w; deadlines := deadlines w;
     bus := bus w; logs := logs w; metrics := metrics w; clock := clock w; uuids := f (uuids w) |}.

(** ** The monad of manager code

    A call either returns a value in a new world, panics (a nil
    dereference ends the process), or is still recursing when the fuel is
    spent. *)
Inductive Outcome (A : Type) :=
| Done (a : A) (w : World)
| Panic (w : World)
| OutOfFuel.
Arguments Done {A} a w.
Arguments Panic {A} w.
Arguments OutOfFuel {A}.

Definition M (A : Type) : Type := World → Outcome A.

Definition ret {A} (a : A) : M A := λ w, Done a w.

Definition bind {A B} (m : M A) (k : A → M B) : M B :=
  λ w, match m w with
       | Done a w' => k a w'
       | Panic w' => Panic w'
       | OutOfFuel => OutOfFuel
       end.

Notation "x <- c1 ;; c2" := (bind c1 (λ x, c2))
  (at level 100, c1 at next level, right associativity).
Notation "c1 ;;; c2" := (bind c1 (λ _, c2))
  (at level 100, right associativity).

Definition panic {A} : M A := λ w, Panic w.
Definition diverge {A} : M A := λ _, OutOfFuel.
Definition modify (f : World → World) : M unit := λ w, Done tt (f w).
Definition when (b : bool) (m : M unit) : M unit := if b then m else ret tt.

(** [time.Now()]: successive readings are distinct and increasing. *)
Definition time_Now : M Time := λ w, Done (clock w) (with_clock S w).

(** [uuid.New().String()]: the n-th identifier minted by the process. *)
Definition uuid_of (n : nat) : string := "uuid-" +:+ pretty n.
Definition uuid_New : M string := λ w, Done (uuid_of (uuids w)) (with_uuids S w).

Definition log (l : Level) (msg gid : string) : M unit :=
  modify (with_logs (λ ls, ls ++ [{| LogLevel := l; LogMsg := msg; LogGraph := gid |}])).

Definition record_metric (m : Metric) : M unit :=
  modify (with_metrics (λ ms, ms ++ [m])).

Definition gets {A} (f : World → A) : M A := λ w, Done (f w) w.

(** ** Field updates on the records the manager mutates through pointers

    [set_final] is the pair of assignments to [Status] and [CompletedAt],
    with [Error] overwritten only by a non-empty message (in
    [CancelExecution] no message is written at all). *)

Definition set_node_running (now : Time) (ns : NodeState) : NodeState :=
  {| NodeID := NodeID ns; NStatus := ExecutionStatusRunning; NStartedAt := Some now;
     NCompletedAt := NCompletedAt ns; Output := Output ns; NError := NError ns |}.

Definition set_node_failed (now : Time) (errorMsg : string) (ns : NodeState) : NodeState :=
  {| NodeID := NodeID ns; NStatus := ExecutionStatusFailed; NStartedAt := NStartedAt ns;
     NCompletedAt := Some now; Output := Output ns; NError := errorMsg |}.

Definition set_node_completed (now : Time) (output : Value) (ns : NodeState) : NodeState :=
  {| NodeID := NodeID ns; NStatus := ExecutionStatusCompleted; NStartedAt := NStartedAt ns;
     NCompletedAt := Some now; Output := output; NError := NError ns |}.

Definition set_node_state (nodeID : string) (ns : NodeState) (st : GraphState) : GraphState :=
  {| GraphID := GraphID st; SGraph := SGraph st; Status := Status st; Inputs := Inputs st;
     NodeStates := <[nodeID := ns]> (NodeStates st); SubmittedAt := SubmittedAt st;
     StartedAt := StartedAt st; CompletedAt := CompletedAt st; Error := Error st |}.

Definition set_final (s : ExecutionStatus) (now : Time) (errorMsg : string)
    (st : GraphState) : GraphState :=
  {| GraphID := GraphID st; SGraph := SGraph st; Status := s; Inputs := Inputs st;
     NodeStates := NodeStates st; SubmittedAt := SubmittedAt st;
     StartedAt := StartedAt st; CompletedAt := Some now;
     Error := if decide (errorMsg = "") then Error st else errorMsg |}.

Definition set_exec_status (s : ExecutionStatus) (e : executionContext) : executionContext :=
  {| graphID := graphID e; status := s; startedAt := startedAt e |}.

(** ** validator.go *)

Definition validateNode (nodeID : string) (node : Node) : option NodeError :=
  if decide (nodeID = "") then Some ErrNodeIDRequired
  else match NodeValidate node with
       | Some cause => Some (ErrNodeHook cause)
       | None => None
       end.

(** The loop over [g.Nodes], with the [nodeIDs] set it fills on the way. *)
Fixpoint validateNodes (l : list (string * Node)) (nodeIDs : gset string)
    : option ValidateError :=
  match l with
  | [] => None
  | (nodeID, node) :: rest =>
      match validateNode nodeID node with
      | Some cause => Some (ErrInvalidNode nodeID cause)
      | None =>
          if decide (nodeID ∈ nodeIDs) then Some (ErrDuplicateNode nodeID)
          else validateNodes rest ({[nodeID]} ∪ nodeIDs)
      end
  end.

(** The loop over [g.Edges]. *)
Fixpoint validateEdges (nodes : gmap string Node) (edges : list Edge)
    : option ValidateError :=
  match edges with
  | [] => None
  | edge :: rest =>
      match nodes !! EdgeFrom edge with
      | None => Some (ErrEdgeSource (EdgeFrom edge))
      | Some _ =>
          match nodes !! EdgeTo edge with
          | None => Some (ErrEdgeTarget (EdgeTo edge))
          | Some _ => validateEdges nodes rest
          end
      end
  end.

(** [Validator.Validate]; [None] is the nil error.  The graph is a value,
    so the test for a nil graph has no counterpart.  Go ranges over the node
    map in an unspecified order, here the order of [map_to_list]: which of
    several invalid nodes is reported depends on it, whether the graph is
    accepted does not. *)
Definition Validate (g : Graph) : option ValidateError :=
  if decide (ID g = "") then Some ErrGraphIDRequired
  else if decide (Version g = "") then Some ErrGraphVersionRequired
  else if decide (size (Nodes g) = 0) then Some ErrNoNodes
  else match validateNodes (map_to_list (Nodes g)) ∅ with
       | Some e => Some e
       | None =>
           match (if decide (EntryNode g = "") then None
                  else match Nodes g !! EntryNode g with
                       | None => Some (ErrEntryNodeNotFound (EntryNode g))
                       | Some _ => None
                       end) with
           | Some e => Some e
           | None => validateEdges (Nodes g) (Edges g)
           end
       end.

(** ** manager.go *)

(** [findNextNode]: the target of the first outgoing edge, or the empty
    string. *)
Definition findNextNode (g : Graph) (currentNodeID : string) : string :=
  match GetOutgoingEdges g currentNodeID with
  | [] => ""
  | e :: _ => EdgeTo e
  end.

Section Manager.

Variable env : Env.

(** [storage.SaveState]: the record replaces what is stored under its id.
    The store keeps its own copy, as the Redis adapter does by serialising
    the record: what the manager changes afterwards reaches the store with
    the next successful save only. *)
Definition SaveState (st : GraphState) : M bool :=
  λ w, if save_ok env st
       then Done true (with_store (insert (GraphID st) st) w)
       else Done false w.

(** [storage.GetState]: an error when the store cannot be reached or holds
    nothing under the id. *)
Definition GetState (gid : string) : M (option GraphState) :=
  λ w, Done (if get_ok env gid then store w !! gid else None) w.

(** [eventBus.Publish]. *)
Definition Publish (topic : string) (ev : Event) : M bool :=
  λ w, if publish_ok env topic ev
       then Done true (with_bus (λ b, b ++ [(topic, ev)]) w)
       else Done false w.

(** Calling the [cancelFunc] of the execution's deadline context. *)
Definition cancel_ctx (c : CtxState) : CtxState :=
  match c with CtxActive => CtxCanceled | _ => c end.

Definition cancelFunc (gid : string) : M unit :=
  modify (with_deadlines (alter cancel_ctx gid)).

Definition publishGraphEvent (gid : string) (eventType : EventType)
    (data : gmap string Any) : M (option ManagerError) :=
  id <- uuid_New ;;
  ts <- time_Now ;;
  let event := {| EvID := id; EvType := eventType; Timestamp := ts;
                  ExecutionID := gid; Data := data |} in
  ok <- Publish TopicGraphEvents event ;;
  if ok then ret None
  else log LError "failed to publish graph event" gid ;;; ret (Some ErrPublish).

Definition completeGraph (gid : string) (state : GraphState)
    (s : ExecutionStatus) (errorMsg : string) : M unit :=
  now <- time_Now ;;
  let state := set_final s now errorMsg state in
  ok <- SaveState state ;;
  when (negb ok) (log LError "failed to save final state" gid) ;;;
  val <- gets (λ w, executions w !! gid) ;;
  match val with
  | Some _ => cancelFunc gid ;;; modify (with_executions (delete gid))
  | None => ret tt
  end ;;;
  let eventType := if decide (s = ExecutionStatusFailed)
                   then EventTypeGraphFailed else EventTypeGraphCompleted in
  let data : gmap string Any :=
    if decide (errorMsg = "") then ∅ else {[ "error" := AValue (VString errorMsg) ]} in
  publishGraphEvent gid eventType data ;;;
  log LInfo "graph execution completed" gid ;;;
  t <- time_Now ;;
  record_metric (RecordGraphCompleted s (t - SubmittedAt state)).

Definition work_event (id : string) (ts : Time) (gid nodeID : string)
    (ty : string) (state : GraphState) : Event :=
  {| EvID := id; EvType := EventTypeNodeWork; Timestamp := ts; ExecutionID := gid;
     Data := {[ "node_id" := AValue (VString nodeID);
                "node_type" := AValue (VString ty);
                "graph_id" := AValue (VString gid);
                "state" := AMap (Inputs state);
                "node_state" := ANodeStates (NodeStates state) ]} |}.

Definition NodeType_string (t : NodeType) : string :=
  match t with
  | NodeTypeStart => "start"
  | NodeTypeExecutor => "executor"
  | NodeTypeRouter => "router"
  | NodeTypeEnd => "end"
  end.

(** The tail of [publishNodeWork] once a topic is chosen. *)
Definition publish_work (topic gid nodeID : string) (node : Node)
    (state : GraphState) : M (option ManagerError) :=
  id <- uuid_New ;;
  ts <- time_Now ;;
  let event := work_event id ts gid nodeID (NodeType_string (GetType node)) state in
  log LInfo "publishing node work" gid ;;;
  ok <- Publish topic event ;;
  if ok then
    publishGraphEvent gid EventTypeNodeStarted {[ "node_id" := AValue (VString nodeID) ]} ;;;
    ret None
  else ret (Some ErrPublishWork).

(** [publishNodeWork].  The recursion through start nodes is bounded by
    nothing in the source; [fuel] counts the calls. *)
Fixpoint publishNodeWork (fuel : nat) (gid nodeID : string) (state : GraphState)
    : M (option ManagerError) :=
  match fuel with
  | 0 => diverge
  | S fuel' =>
      match GetNode (SGraph state) nodeID with
      | None => ret (Some (ErrNodeNotFound nodeID))
      | Some node =>
          match NodeStates state !! nodeID with
          | None => panic   (* nil *NodeState dereferenced *)
          | Some nodeState =>
              now <- time_Now ;;
              let state := set_node_state nodeID (set_node_running now nodeState) state in
              ok <- SaveState state ;;
              when (negb ok) (log LError "failed to save state before node work" gid) ;;;
              match GetType node with
              | NodeTypeExecutor => publish_work TopicExecutorWork gid nodeID node state
              | NodeTypeRouter => publish_work TopicRouterWork gid nodeID node state
              | NodeTypeEnd =>
                  completeGraph gid state ExecutionStatusCompleted "" ;;; ret None
              | NodeTypeStart =>
                  let nextNode := findNextNode (SGraph state) nodeID in
                  if decide (nextNode = "") then ret None
                  else publishNodeWork fuel' gid nextNode state
              end
          end
      end
  end.

Definition pending_node (nodeID : string) : NodeState :=
  {| NodeID := nodeID; NStatus := ExecutionStatusPending;
     NStartedAt := None; NCompletedAt := None; Output := VNil; NError := "" |}.

(** The node states built by the loop over [g.Nodes] in [SubmitGraph]. *)
Definition initial_node_states (g : Graph) : gmap string NodeState :=
  map_imap (λ nodeID _, Some (pending_node nodeID)) (Nodes g).

(** The initial state built by [SubmitGraph]. *)
Definition initial_state (gid : string) (g : Graph) (inputs : gmap string Value)
    (now : Time) : GraphState :=
  {| GraphID := gid; SGraph := g; Status := ExecutionStatusRunning;
     Inputs := inputs; NodeStates := initial_node_states g;
     SubmittedAt := now; StartedAt := None; CompletedAt := None; Error := "" |}.

Definition SubmitGraph (fuel : nat) (g : Graph) (inputs : gmap string Value)
    : M (string * option ManagerError) :=
  match Validate g with
  | Some err =>
      log LError "graph validation failed" (ID g) ;;;
      record_metric (RecordGraphSubmitted ExecutionStatusFailed) ;;;
      ret ("", Some (ErrValidationFailed err))
  | None =>
      gid <- uuid_New ;;
      now <- time_Now ;;
      let state := initial_state gid g inputs now in
      ok <- SaveState state ;;
      if negb ok then
        log LError "failed to save initial state" gid ;;; ret ("", Some ErrSaveState)
      else
        perr <- publishGraphEvent gid EventTypeGraphSubmitted
                  {[ "original_graph_id" := AValue (VString (ID g)) ]} ;;
        match perr with
        | Some err => ret ("", Some err)
        | None =>
            modify (with_deadlines (insert gid CtxActive)) ;;;
            t <- time_Now ;;
            modify (with_executions
                      (insert gid {| graphID := gid; status := ExecutionStatusRunning;
                                     startedAt := t |})) ;;;
            record_metric (RecordGraphSubmitted ExecutionStatusSubmitted) ;;;
            log LInfo "graph submitted" gid ;;;
            werr <- publishNodeWork fuel gid (EntryNode g) state ;;
            match werr with
            | Some _ =>
                log LError "failed to publish entry node work" gid ;;; ret (gid, None)
            | None => ret (gid, None)
            end
        end
  end.

Definition handleNodeCompleted (fuel : nat) (event : Event) : M (option ManagerError) :=
  let gid := ExecutionID event in
  let nodeID := fst (as_string (Data event !! "node_id")) in
  let output := as_value (Data event !! "output") in
  let '(errorMsg, hasError) := as_string (Data event !! "error") in
  let nextNodeID := fst (as_string (Data event !! "next_node")) in
  log LInfo "received node completed event" gid ;;;
  got <- GetState gid ;;
  match got with
  | None => log LError "failed to get state on node completion" gid ;;; ret None
  | Some state =>
      match NodeStates state !! nodeID with
      | None => log LError "node state not found" gid ;;; ret None
      | Some nodeState =>
          now <- time_Now ;;
          let nodeState :=
            if hasError then set_node_failed now errorMsg nodeState
            else set_node_completed now output nodeState in
          let state := set_node_state nodeID nodeState state in
          ok <- SaveState state ;;
          when (negb ok) (log LError "failed to save state after node completion" gid) ;;;
          if hasError then
            completeGraph gid state ExecutionStatusFailed errorMsg ;;; ret None
          else
            let nextNode := if decide (nextNodeID = "")
                            then findNextNode (SGraph state) nodeID else nextNodeID in
            if decide (nextNode = "") then
              completeGraph gid state ExecutionStatusCompleted "" ;;; ret None
            else
              werr <- publishNodeWork fuel gid nextNode state ;;
              match werr with
              | Some _ => log LError "failed to publish next node work" gid ;;; ret None
              | None => ret None
              end
      end
  end.

Definition GetStatus (gid : string) : M (option GraphState * option ManagerError) :=
  got <- GetState gid ;;
  match got with
  | None => ret (None, Some ErrGetState)
  | Some state => ret (Some state, None)
  end.

Definition CancelExecution (gid : string) : M (option ManagerError) :=
  val <- gets (λ w, executions w !! gid) ;;
  match val with
  | None => ret (Some (ErrExecutionNotFound gid))
  | Some execCtx =>
      if is_terminal (status execCtx) then ret (Some (ErrAlreadyTerminal (status execCtx)))
      else
        cancelFunc gid ;;;
        modify (with_executions (insert gid (set_exec_status ExecutionStatusCancelled execCtx))) ;;;
        got <- GetState gid ;;
        match got with
        | None => ret (Some ErrGetState)
        | Some state =>
            now <- time_Now ;;
            let state := set_final ExecutionStatusCancelled now "" state in
            ok <- SaveState state ;;
            if negb ok then ret (Some ErrSaveState)
            else
              publishGraphEvent gid EventTypeGraphCancelled ∅ ;;;
              modify (with_executions (delete gid)) ;;;
              log LInfo "graph execution cancelled" gid ;;;
              ret None
        end
  end.

Definition handleTimeout (gid : string) : M unit :=
  log LWarn "graph execution timed out" gid ;;;
  got <- GetState gid ;;
  match got with
  | None => log LError "failed to get state during timeout" gid
  | Some state => completeGraph gid state ExecutionStatusFailed "execution timeout"
  end.

(** [monitorExecution] at the moment the timeout of the execution's
    context elapses: a context already cancelled stays [Canceled] and the
    monitor exits silently; a live one becomes [DeadlineExceeded] and the
    monitor calls [handleTimeout]. *)
Definition monitorExecution (gid : string) : M unit :=
  c <- gets (λ w, deadlines w !! gid) ;;
  match c with
  | Some CtxActive =>
      modify (with_deadlines (insert gid CtxDeadlineExceeded)) ;;;
      handleTimeout gid
  | _ => ret tt
  end.

(** [Shutdown]: every tracked execution's [cancelFunc] is called; no record
    is touched.  (The subscription context it also cancels belongs to the
    bus and is not part of the world.) *)
Definition Shutdown : M (option ManagerError) :=
  log LInfo "shutting down orchestrator manager" "" ;;;
  modify (λ w, with_deadlines
                 (λ d, map_imap (λ gid c, Some (if decide (is_Some (executions w !! gid))
                                               then cancel_ctx c else c)) d) w) ;;;
  log LInfo "orchestrator manager shut down complete" "" ;;;
  ret None.

End Manager.

(** * Specification-level notions *)

(** ** Admission *)

(** The admission invariants in the words of the data model: (I1) nodes
    non-empty, (I2) id and version non-empty, (I3) every edge endpoint
    resolves, (I4) no node has the empty id (and each node passes its own
    Validate hook), (I5) a given entry node resolves. *)
Definition admissible (g : Graph) : Prop :=
  Nodes g ≠ ∅
  ∧ ID g ≠ "" ∧ Version g ≠ ""
  ∧ Forall (λ e, is_Some (Nodes g !! EdgeFrom e) ∧ is_Some (Nodes g !! EdgeTo e)) (Edges g)
  ∧ (∀ k n, Nodes g !! k = Some n → k ≠ "" ∧ NodeValidate n = None)
  ∧ (EntryNode g ≠ "" → is_Some (Nodes g !! EntryNode g)).

(** A graph violating one of I1 to I5. *)
Definition violates_admission (g : Graph) : Prop :=
  Nodes g = ∅
  ∨ ID g = "" ∨ Version g = ""
  ∨ (∃ e, e ∈ Edges g ∧ (Nodes g !! EdgeFrom e = None ∨ Nodes g !! EdgeTo e = None))
  ∨ is_Some (Nodes g !! "")
  ∨ (EntryNode g ≠ "" ∧ Nodes g !! EntryNode g = None).


(** ** The route of a dispatch

    [publishNodeWork] walks from the target node through start nodes along
    first outgoing edges.  [dispatch_route] is that walk on the graph alone:
    the nodes marked Running, in order, and where the walk lands. *)
Inductive Landing :=
| LandMissing (nodeID : string)            (* not in the graph: "node not found" *)
| LandWork (topic : string) (node : Node)  (* an executor or a router *)
| LandEnd                                  (* an end node *)
| LandStop.                                (* a start node without outgoing edge *)

Fixpoint dispatch_route (fuel : nat) (g : Graph) (nodeID : string)
    : option (list string * Landing) :=
  match fuel with
  | 0 => None
  | S fuel' =>
      match GetNode g nodeID with
      | None => Some ([], LandMissing nodeID)
      | Some node =>
          match GetType node with
          | NodeTypeExecutor => Some ([nodeID], LandWork TopicExecutorWork node)
          | NodeTypeRouter => Some ([nodeID], LandWork TopicRouterWork node)
          | NodeTypeEnd => Some ([nodeID], LandEnd)
          | NodeTypeStart =>
              let nextNode := findNextNode g nodeID in
              if decide (nextNode = "") then Some ([nodeID], LandStop)
              else match dispatch_route fuel' g nextNode with
                   | Some (p, l) => Some (nodeID :: p, l)
                   | None => None
                   end
          end
      end
  end.

(** The record after the nodes of a route were marked Running one after
    the other, the first at time [t]. *)
Fixpoint mark_running (p : list string) (t : Time) (st : GraphState) : GraphState :=
  match p with
  | [] => st
  | nodeID :: p' =>
      match NodeStates st !! nodeID with
      | Some ns => mark_running p' (S t) (set_node_state nodeID (set_node_running t ns) st)
      | None => st
      end
  end.

Definition route_final (p : list string) (l : Landing) (t : Time) (st : GraphState)
    : GraphState :=
  match l with
  | LandEnd => set_final ExecutionStatusCompleted (t + length p) "" (mark_running p t st)
  | _ => mark_running p t st
  end.

(** Every node of the record's graph has a node state (R3). *)
Definition covered (st : GraphState) : Prop :=
  ∀ k, is_Some (Nodes (SGraph st) !! k) → is_Some (NodeStates st !! k).

Definition store_reliable (env : Env) : Prop :=
  (∀ s, save_ok env s = true) ∧ (∀ gid, get_ok env gid = true).

Definition final_event (w : World) (gid : string) (s : ExecutionStatus) (msg : string) : Event :=
  {| EvID := uuid_of (uuids w);
     EvType := if decide (s = ExecutionStatusFailed)
               then EventTypeGraphFailed else EventTypeGraphCompleted;
     Timestamp := S (clock w); ExecutionID := gid;
     Data := if decide (msg = "") then ∅ else {[ "error" := AValue (VString msg) ]} |}.

Definition bus_reliable (env : Env) : Prop :=
  ∀ topic e, publish_ok env topic e = true.

(** The informational event [SubmitGraph] publishes from world [w]. *)
Definition submitted_event (w : World) (g : Graph) : Event :=
  {| EvID := uuid_of (S (uuids w)); EvType := EventTypeGraphSubmitted;
     Timestamp := S (clock w); ExecutionID := uuid_of (uuids w);
     Data := {[ "original_graph_id" := AValue (VString (ID g)) ]} |}.

(** The world in which [SubmitGraph] dispatches the entry node: the initial
    record saved, the submission announced, the deadline context armed and
    the execution tracked. *)
Definition tracked_world (w : World) (g : Graph) (inputs : gmap string Value) : World :=
  let gid := uuid_of (uuids w) in
  {| store := <[gid := initial_state gid g inputs (clock w)]> (store w);
     executions := <[gid := {| graphID := gid; status := ExecutionStatusRunning;
                               startedAt := S (S (clock w)) |}]> (executions w);
     deadlines := <[gid := CtxActive]> (deadlines w);
     bus := bus w ++ [(TopicGraphEvents, submitted_event w g)];
     logs := logs w ++ [{| LogLevel := LInfo; LogMsg := "graph submitted"; LogGraph := gid |}];
     metrics := metrics w ++ [RecordGraphSubmitted ExecutionStatusSubmitted];
     clock := S (S (S (clock w)));
     uuids := S (S (uuids w)) |}.

(** The record a completion event leaves in the handler's hands before it
    decides how to go on. *)
Definition completed_state (event : Event) (now : Time) (ns : NodeState)
    (st : GraphState) : GraphState :=
  let nodeID := (as_string (Data event !! "node_id")).1 in
  set_node_state nodeID
    (if (as_string (Data event !! "error")).2
     then set_node_failed now (as_string (Data event !! "error")).1 ns
     else set_node_completed now (as_value (Data event !! "output")) ns) st.

(** The world after the handler logged the event and saved that record. *)
Definition completion_world (event : Event) (st1 : GraphState) (w : World) : World :=
  with_store (insert (GraphID st1) st1)
    (with_clock S
       (with_logs (λ ls, ls ++ [{| LogLevel := LInfo;
                                   LogMsg := "received node completed event";
                                   LogGraph := ExecutionID event |}]) w)).

(** Dispatching a successor the way the completion handler does: a failure
    of [publishNodeWork] is logged and swallowed. *)
Definition dispatch_successor (env : Env) (fuel : nat) (gid nextNode : string)
    (st : GraphState) : M (option ManagerError) :=
  werr <- publishNodeWork env fuel gid nextNode st ;;
  match werr with
  | Some _ => log LError "failed to publish next node work" gid ;;; ret None
  | None => ret None
  end.


(** ** Histories of the manager *)

Inductive Op :=
| OpSubmit (g : Graph) (inputs : gmap string Value)
| OpNodeCompleted (event : Event)
| OpCancel (gid : string)
| OpDeadline (gid : string)       (* the execution's timeout elapses *)
| OpGetStatus (gid : string)
| OpShutdown.

Definition run_op (env : Env) (fuel : nat) (op : Op) : M unit :=
  match op with
  | OpSubmit g inputs => SubmitGraph env fuel g inputs ;;; ret tt
  | OpNodeCompleted event => handleNodeCompleted env fuel event ;;; ret tt
  | OpCancel gid => CancelExecution env gid ;;; ret tt
  | OpDeadline gid => monitorExecution env gid
  | OpGetStatus gid => GetStatus env gid ;;; ret tt
  | OpShutdown => Shutdown ;;; ret tt
  end.

Definition init_world : World :=
  {| store := ∅; executions := ∅; deadlines := ∅; bus := []; logs := [];
     metrics := []; clock := 0; uuids := 0 |}.

(** Worlds the manager can be in after finitely many operations.  The
    operations are taken one at a time, each to its end: the serial
    processing the bus is required to give the events of one execution.
    Interleavings of handlers are outside this model. *)
Inductive steps (env : Env) : World → World → Prop :=
| steps_refl w : steps env w w
| steps_op w1 w2 w3 fuel op :
    steps env w1 w2 → run_op env fuel op w2 = Done tt w3 → steps env w1 w3.

Definition reachable (env : Env) (w : World) : Prop := steps env init_world w.

(** What every stored record satisfies: its graph passed validation, each
    node of the graph has a node state (R3), and it carries an error only
    once it is terminal. *)
Definition sound_record (st : GraphState) : Prop :=
  Validate (SGraph st) = None
  ∧ covered st
  ∧ (is_terminal (Status st) = false → Error st = "").

(** What holds of the tracker, the deadline contexts and the store in
    every reachable world. *)
Record tracking_inv (w : World) : Prop := {
  inv_active_tracked :
    ∀ k, deadlines w !! k = Some CtxActive → is_Some (executions w !! k);
  inv_terminal_untracked :
    ∀ k st, store w !! k = Some st → is_terminal (Status st) = true →
            executions w !! k = None;
  inv_key : ∀ k st, store w !! k = Some st → GraphID st = k;
  inv_minted : ∀ k, is_Some (store w !! k) → ∃ n, n < uuids w ∧ k = uuid_of n;
  inv_sound : ∀ k st, store w !! k = Some st → sound_record st
}.

(** ** Sample data *)

Definition env_ok : Env :=
  {| publish_ok := λ _ _, true; save_ok := λ _, true; get_ok := λ _, true |}.

(** A bus that refuses the informational topic. *)
Definition env_events_down : Env :=
  {| publish_ok := λ topic _, negb (String.eqb topic TopicGraphEvents);
     save_ok := λ _, true; get_ok := λ _, true |}.

(** A bus that refuses work envelopes. *)
Definition env_work_down : Env :=
  {| publish_ok := λ topic _, String.eqb topic TopicGraphEvents;
     save_ok := λ _, true; get_ok := λ _, true |}.

Definition mkNode (t : NodeType) : Node := {| GetType := t; NodeValidate := None |}.
Definition mkEdge (a b : string) : Edge := {| EdgeFrom := a; EdgeTo := b; EdgeLabel := "" |}.

(** A(start) → B(executor) → C(end), entry A. *)
Definition g_linear : Graph :=
  {| ID := "g"; Version := "1";
     Nodes := {[ "A" := mkNode NodeTypeStart; "B" := mkNode NodeTypeExecutor;
                 "C" := mkNode NodeTypeEnd ]};
     Edges := [mkEdge "A" "B"; mkEdge "B" "C"]; EntryNode := "A" |}.

(** A single executor node, which is also the entry node. *)
Definition g_single : Graph :=
  {| ID := "g"; Version := "1"; Nodes := {[ "a" := mkNode NodeTypeExecutor ]};
     Edges := []; EntryNode := "a" |}.

(** The same without an entry node. *)
Definition g_no_entry : Graph :=
  {| ID := "g"; Version := "1"; Nodes := {[ "a" := mkNode NodeTypeExecutor ]};
     Edges := []; EntryNode := "" |}.

(** A single end node, entry node of its graph. *)
Definition g_end : Graph :=
  {| ID := "g"; Version := "1"; Nodes := {[ "z" := mkNode NodeTypeEnd ]};
     Edges := []; EntryNode := "z" |}.

(** An edge to a node that is not in the graph. *)
Definition g_dangling : Graph :=
  {| ID := "g"; Version := "1"; Nodes := {[ "a" := mkNode NodeTypeExecutor ]};
     Edges := [mkEdge "a" "b"]; EntryNode := "a" |}.

(** A start node whose only edge leads back to itself: the validator has
    nothing against it. *)
Definition g_loop : Graph :=
  {| ID := "g"; Version := "1"; Nodes := {[ "A" := mkNode NodeTypeStart ]};
     Edges := [mkEdge "A" "A"]; EntryNode := "A" |}.

(** Router override: A(start), R(router), X, Y executors, E(end). *)
Definition g_router : Graph :=
  {| ID := "g"; Version := "1";
     Nodes := {[ "A" := mkNode NodeTypeStart; "R" := mkNode NodeTypeRouter;
                 "X" := mkNode NodeTypeExecutor; "Y" := mkNode NodeTypeExecutor;
                 "E" := mkNode NodeTypeEnd ]};
     Edges := [mkEdge "A" "R"; mkEdge "R" "X"; mkEdge "X" "E"; mkEdge "Y" "E"];
     EntryNode := "A" |}.

Definition completion (gid nodeID : string) (fields : gmap string Any) : Event :=
  {| EvID := "worker"; EvType := EventTypeOther "node.completed"; Timestamp := 0;
     ExecutionID := gid; Data := <["node_id" := AValue (VString nodeID)]> fields |}.

(** The world after [g_single] was submitted and its node completed. *)
Definition world_after (m : M (option ManagerError)) (w : World) : World :=
  match m w with Done _ w' => w' | _ => w end.

Definition w_submitted : World :=
  match SubmitGraph env_ok 1 g_single ∅ init_world with
  | Done _ w => w
  | _ => init_world
  end.

Definition w_completed : World :=
  world_after (handleNodeCompleted env_ok 1
                 (completion (uuid_of 0) "a" {[ "output" := AValue (VString "hi") ]}))
    w_submitted.

(** [writes_only gid w w']: between [w] and [w'] no record other than the
    one of [gid] was written, and no identifier was given back. *)
Definition writes_only (gid : string) (w w' : World) : Prop :=
  (∀ k, k ≠ gid → store w' !! k = store w !! k) ∧ uuids w ≤ uuids w'.

(** The invariant, together with what is known of the execution a handler
    works on: its id was minted, and it is untracked if the record in the
    handler's hands (of status [s0]) is terminal. *)
Definition handling (gid : string) (s0 : ExecutionStatus) (w : World) : Prop :=
  tracking_inv w
  ∧ (is_terminal s0 = true → executions w !! gid = None)
  ∧ (∃ n, n < uuids w ∧ gid = uuid_of n).

(** The execution an operation works on. *)
Definition op_target (w : World) (op : Op) : string :=
  match op with
  | OpSubmit _ _ => uuid_of (uuids w)
  | OpNodeCompleted event => ExecutionID event
  | OpCancel gid | OpDeadline gid | OpGetStatus gid => gid
  | OpShutdown => ""
  end.

(** The fields a completion handler reads off its event. *)
Definition ev_node (event : Event) : string := (as_string (Data event !! "node_id")).1.
Definition ev_error (event : Event) : string := (as_string (Data event !! "error")).1.
Definition ev_has_error (event : Event) : bool := (as_string (Data event !! "error")).2.
Definition ev_next (event : Event) : string := (as_string (Data event !! "next_node")).1.


(** The world after the handler logged the receipt of an event and read
    the clock. *)
Definition received_world (event : Event) (w : World) : World :=
  with_clock S
    (with_logs (λ ls, ls ++ [{| LogLevel := LInfo;
                                LogMsg := "received node completed event";
                                LogGraph := ExecutionID event |}]) w).

(** The world after [g_router] was submitted: A was passed through and R
    is waiting for its router. *)
Definition w_router : World :=
  match SubmitGraph env_ok 2 g_router ∅ init_world with
  | Done _ w => w
  | _ => init_world
  end.

Definition st_router : GraphState :=
  mark_running ["A"; "R"] 3 (initial_state (uuid_of 0) g_router ∅ 0).

(** The record of [g_single] once its node was dispatched, and once it
    completed. *)
Definition st_submitted : GraphState :=
  mark_running ["a"] 3 (initial_state (uuid_of 0) g_single ∅ 0).

Definition st_completed : GraphState :=
  set_final ExecutionStatusCompleted 7 ""
    (set_node_state "a"
       (set_node_completed 6 (VString "hi") (set_node_running 3 (pending_node "a")))
       st_submitted).

(** A late duplicate of the completion, now carrying an error, delivered
    after the record of [g_single] became Completed. *)
Definition late_failure : Event :=
  completion (uuid_of 0) "a" {[ "error" := AValue (VString "boom") ]}.



(** Reading one record's status, and the statuses of its nodes, off a
    world. *)
Definition status_of (w : World) (gid : string) : option ExecutionStatus :=
  Status <$> store w !! gid.

Definition node_status_of (w : World) (gid nodeID : string) : option ExecutionStatus :=
  store w !! gid ≫= λ st, NStatus <$> NodeStates st !! nodeID.

(** Running a list of operations, each with fuel 2. *)
Fixpoint run_ops (env : Env) (ops : list Op) (w : World) : option World :=
  match ops with
  | [] => Some w
  | op :: rest =>
      match run_op env 2 op w with
      | Done _ w' => run_ops env rest w'
      | _ => None
      end
  end.

(** ** Proof automation *)

(** Unfolds the manager's non-recursive code down to functions on worlds. *)
Ltac munfold :=
  unfold monitorExecution, handleTimeout, GetStatus, Shutdown, completeGraph, publish_work,
    publishGraphEvent, cancelFunc, SaveState, GetState, Publish,
    record_metric, log, when, modify, gets, time_Now, uuid_New, bind, ret, panic, diverge.
(** * Further definitions *)

(** ** Reading the validator's verdict *)

(** Whether a verdict is the "duplicate node ID" error. *)
Definition is_duplicate_error (r : option ValidateError) : bool :=
  match r with
  | Some (ErrDuplicateNode _) => true
  | _ => false
  end.

(** The graph with another list of edges. *)
Definition with_edges (edges : list Edge) (g : Graph) : Graph :=
  {| ID := ID g; Version := Version g; Nodes := Nodes g; Edges := edges;
     EntryNode := EntryNode g |}.

(** ** Reading outcomes *)

Definition is_panic {A} (o : Outcome A) : bool :=
  match o with
  | Panic _ => true
  | _ => false
  end.

(** Whether a call came back with an error. *)
Definition returned_error {A} (o : Outcome (option A)) : bool :=
  match o with
  | Done (Some _) _ => true
  | _ => false
  end.

(** ** What the store and the tracker keep *)

(** Every stored record satisfies [P]. *)
Definition stores (P : GraphState → Prop) (w : World) : Prop :=
  ∀ k st, store w !! k = Some st → P st.

(** From [w] to [w'] no record was deleted and no tracker entry was
    added or rewritten. *)
Definition grows (w w' : World) : Prop :=
  (∀ k, is_Some (store w !! k) → is_Some (store w' !! k))
  ∧ (∀ k x, executions w' !! k = Some x → executions w !! k = Some x).

(** [keeps P w w']: nothing was lost on the way from [w] to [w'], and the
    records of [w'] satisfy [P] if those of [w] did. *)
Definition keeps (P : GraphState → Prop) (w w' : World) : Prop :=
  grows w w' ∧ (stores P w → stores P w').

(** Every tracker entry sits under its own id, has a stored record, and
    is Running; it is Cancelled only after a cancellation that the store
    let down. *)
Definition tracker_sound (env : Env) (w : World) : Prop :=
  ∀ k x, executions w !! k = Some x →
    graphID x = k
    ∧ is_Some (store w !! k)
    ∧ (status x = ExecutionStatusRunning
       ∨ (status x = ExecutionStatusCancelled ∧ ¬ store_reliable env)).

(** The node states of a record are keyed by the node ids of its graph and
    each carries its own key. *)
Definition well_keyed (st : GraphState) : Prop :=
  (∀ k, is_Some (NodeStates st !! k) ↔ is_Some (Nodes (SGraph st) !! k))
  ∧ (∀ k ns, NodeStates st !! k = Some ns → NodeID ns = k).

(** The statuses and timestamps a stored record can show. *)
Definition well_timed (st : GraphState) : Prop :=
  Status st ∈ [ExecutionStatusRunning; ExecutionStatusCompleted;
               ExecutionStatusFailed; ExecutionStatusCancelled]
  ∧ (is_Some (CompletedAt st) ↔ is_terminal (Status st) = true)
  ∧ StartedAt st = None
  ∧ (∀ k ns, NodeStates st !! k = Some ns →
       NStatus ns ∈ [ExecutionStatusPending; ExecutionStatusRunning;
                     ExecutionStatusCompleted; ExecutionStatusFailed]).

(** The informational event a successful cancellation publishes. *)
Definition cancelled_event (w : World) (gid : string) : Event :=
  {| EvID := uuid_of (uuids w); EvType := EventTypeGraphCancelled;
     Timestamp := S (clock w); ExecutionID := gid; Data := ∅ |}.



(** ** Further sample data *)

(** A store that cannot be written. *)
Definition env_store_full : Env :=
  {| publish_ok := λ _ _, true; save_ok := λ _, false; get_ok := λ _, true |}.


(** ** pkg/api/http/handlers.go: the REST handlers in front of the manager *)

Module HTTP.

(** The text of an error response: the [Error()] of the error at hand, or a
    literal. *)
Inductive Message :=
| MsgError (e : ManagerError)
| MsgBind                        (* the error of a failed ShouldBindJSON *)
| MsgText (s : string).

(** The JSON bodies the handlers write. *)
Inductive Body :=
| ErrorResponse (code : string) (message : Message)
| GraphSubmitResponse (graph_id status submitted_at : string)
| StateBody (state : GraphState)
| StatusBody (graph_id : string) (status : ExecutionStatus) (submitted_at : Time)
    (started_at completed_at : option Time)
| ResultBody (graph_id : string) (status : ExecutionStatus)
    (result : gmap string NodeState) (completed_at : option Time)
| CancelledBody (graph_id status cancelled_at : string).

Record Response := {
  StatusCode : nat;
  ResponseBody : Body
}.

Definition StatusOK := 200.
Definition StatusCreated := 201.
Definition StatusBadRequest := 400.
Definition StatusNotFound := 404.
Definition StatusConflict := 409.
Definition StatusUnprocessableEntity := 422.

Definition not_found : Response :=
  {| StatusCode := StatusNotFound;
     ResponseBody := ErrorResponse "NOT_FOUND" (MsgText "Graph not found") |}.

Section Handlers.

Variable env : Env.

(** [handleSubmitGraph].  The request is what ShouldBindJSON makes of the
    body: [None] when binding fails (malformed JSON, or no graph), else the
    graph and the inputs. *)
Definition handleSubmitGraph (fuel : nat) (req : option (Graph * gmap string Value))
    : M Response :=
  match req with
  | None =>
      log LError "invalid request" "" ;;;
      ret {| StatusCode := StatusBadRequest;
             ResponseBody := ErrorResponse "INVALID_REQUEST" MsgBind |}
  | Some (g, inputs) =>
      r <- SubmitGraph env fuel g inputs ;;
      match r.2 with
      | Some err =>
          log LError "failed to submit graph" "" ;;;
          ret {| StatusCode := StatusUnprocessableEntity;
                 ResponseBody := ErrorResponse "SUBMISSION_FAILED" (MsgError err) |}
      | None =>
          ret {| StatusCode := StatusCreated;
                 ResponseBody := GraphSubmitResponse r.1 "submitted" "" |}
      end
  end.

(** [handleGetGraph]. *)
Definition handleGetGraph (graphID : string) : M Response :=
  r <- GetStatus env graphID ;;
  match r with
  | (_, Some _) => ret not_found
  | (Some state, None) => ret {| StatusCode := StatusOK; ResponseBody := StateBody state |}
  | (None, None) => panic   (* a nil state without an error *)
  end.

(** [handleGetStatus]. *)
Definition handleGetStatus (graphID : string) : M Response :=
  r <- GetStatus env graphID ;;
  match r with
  | (_, Some _) => ret not_found
  | (Some state, None) =>
      ret {| StatusCode := StatusOK;
             ResponseBody := StatusBody (GraphID state) (Status state) (SubmittedAt state)
                               (StartedAt state) (CompletedAt state) |}
  | (None, None) => panic
  end.


(** [handleCancelGraph]. *)
Definition handleCancelGraph (graphID : string) : M Response :=
  err <- CancelExecution env graphID ;;
  match err with
  | Some e =>
      ret {| StatusCode := StatusConflict;
             ResponseBody := ErrorResponse "CANCELLATION_FAILED" (MsgError e) |}
  | None =>
      ret {| StatusCode := StatusOK;
             ResponseBody := CancelledBody graphID "cancelled" "" |}
  end.

End Handlers.

End HTTP.

(** ** pkg/adapters/storage/memory/memory.go: the in-memory state storage

    The adapter keeps Go values as it is handed them: maps and pointers are
    references, so what it stores can be shared with the caller.  The model
    therefore has a heap: records of type [domain.GraphState] live at
    locations, their [NodeStates] field is a reference to a map from node
    ids to pointers to node states, and a [state.State] is a reference to a
    map.  ([Graph] and [Inputs], which this program never writes after a
    record is built, are kept by value.) *)

Module MemoryStorage.

Definition loc := nat.

(** A [domain.GraphState] in memory. *)
Record GraphStateRec := {
  rGraphID : string;
  rGraph : Graph;
  rStatus : ExecutionStatus;
  rInputs : gmap string Value;
  rNodeStates : loc;            (* map[string]*NodeState, a reference *)
  rSubmittedAt : Time;
  rStartedAt : option Time;
  rCompletedAt : option Time;
  rError : string
}.

(** A value of type [interface{}], by its dynamic type. *)
Inductive Iface :=
| IState (m : loc)                  (* state.State *)
| IMap (m : loc)                    (* map[string]interface{} *)
| IGraphState (p : option loc)      (* *domain.GraphState, possibly nil *)
| IOther.                           (* anything else *)

Record Mem := {
  recs : gmap loc GraphStateRec;            (* GraphState structs *)
  nodeMaps : gmap loc (gmap string loc);    (* NodeStates maps *)
  nodes : gmap loc NodeState;               (* NodeState structs *)
  stateMaps : gmap loc (gmap string Value); (* state.State maps *)
  states : gmap string Iface;               (* InMemoryStateStorage.states *)
  next : loc                                (* the next free location *)
}.

Inductive StorageError :=
| ErrStateNotFound (id : string)     (* "state not found: %s" *)
| ErrInvalidTypeInStorage            (* "invalid state type in storage" *)
| ErrInvalidStateType.               (* "invalid state type" *)

Definition NewInMemoryStateStorage : Mem :=
  {| recs := ∅; nodeMaps := ∅; nodes := ∅; stateMaps := ∅; states := ∅; next := 0 |}.

Definition with_states (f : gmap string Iface → gmap string Iface) (m : Mem) : Mem :=
  {| recs := recs m; nodeMaps := nodeMaps m; nodes := nodes m; stateMaps := stateMaps m;
     states := f (states m); next := next m |}.

(** [Save]: the map reference itself is stored. *)
Definition Save (executionID : string) (st : loc) (m : Mem) : Mem * option StorageError :=
  (with_states (insert executionID (IState st)) m, None).

(** [Load]. *)
Definition Load (executionID : string) (m : Mem) : option loc * option StorageError :=
  match states m !! executionID with
  | None => (None, Some (ErrStateNotFound executionID))
  | Some (IState st) => (Some st, None)
  | Some (IMap mp) => (Some mp, None)
  | Some _ => (None, Some ErrInvalidTypeInStorage)
  end.

(** [Delete]. *)
Definition Delete (executionID : string) (m : Mem) : Mem * option StorageError :=
  (with_states (delete executionID) m, None).

(** [Exists]. *)
Definition Exists (executionID : string) (m : Mem) : bool * option StorageError :=
  (bool_decide (is_Some (states m !! executionID)), None).

(** [SetTTL]: a no-op. *)
Definition SetTTL (executionID : string) (ttl : nat) (m : Mem) : Mem * option StorageError :=
  (m, None).

(** [List]: the keys, in the order the map yields them. *)
Definition List (m : Mem) : list string * option StorageError :=
  ((map_to_list (states m)).*1, None).

(** What [SaveState] can come to. *)
Inductive SaveOutcome :=
| Saved (m : Mem)
| SaveError (e : StorageError)
| SavePanic.                      (* a nil *GraphState dereferenced *)

(** [SaveState]: [stateCopy := *graphState] copies the struct, field by
    field, to a fresh location; the [NodeStates] field of the copy is the
    same reference. *)
Definition SaveState (state : Iface) (m : Mem) : SaveOutcome :=
  match state with
  | IGraphState (Some p) =>
      match recs m !! p with
      | None => SavePanic          (* a dangling pointer: not a Go value *)
      | Some graphState =>
          let q := next m in
          Saved {| recs := <[q := graphState]> (recs m);
                   nodeMaps := nodeMaps m; nodes := nodes m; stateMaps := stateMaps m;
                   states := <[rGraphID graphState := IGraphState (Some q)]> (states m);
                   next := S q |}
      end
  | IGraphState None => SavePanic
  | _ => SaveError ErrInvalidStateType
  end.

(** [GetState]: what is stored, as it is. *)
Definition GetState (graphID : string) (m : Mem) : option Iface * option StorageError :=
  match states m !! graphID with
  | None => (None, Some (ErrStateNotFound graphID))
  | Some state => (Some state, None)
  end.

(** The record at [p] with its references followed: the record as a reader
    of [p] sees it. *)
Definition read_record (m : Mem) (p : loc) : option GraphState :=
  r ← recs m !! p;
  nm ← nodeMaps m !! rNodeStates r;
  Some {| GraphID := rGraphID r; SGraph := rGraph r; Status := rStatus r;
          Inputs := rInputs r;
          NodeStates := omap (λ l, nodes m !! l) nm;
          SubmittedAt := rSubmittedAt r; StartedAt := rStartedAt r;
          CompletedAt := rCompletedAt r; Error := rError r |}.

(** The assignment [state.Status = s] through the pointer [p]. *)
Definition assign_status (p : loc) (s : ExecutionStatus) (m : Mem) : Mem :=
  {| recs := alter (λ r, {| rGraphID := rGraphID r; rGraph := rGraph r; rStatus := s;
                            rInputs := rInputs r; rNodeStates := rNodeStates r;
                            rSubmittedAt := rSubmittedAt r; rStartedAt := rStartedAt r;
                            rCompletedAt := rCompletedAt r; rError := rError r |}) p (recs m);
     nodeMaps := nodeMaps m; nodes := nodes m; stateMaps := stateMaps m;
     states := states m; next := next m |}.

(** The assignment [state.NodeStates[nodeID].Status = s] through the
    pointer [p] (nothing happens here when a reference on the way is
    missing; in Go that is a nil dereference). *)
Definition assign_node_status (p : loc) (nodeID : string) (s : ExecutionStatus)
    (m : Mem) : Mem :=
  match recs m !! p ≫= λ r, nodeMaps m !! rNodeStates r ≫= λ nm, nm !! nodeID with
  | None => m
  | Some l =>
      {| recs := recs m; nodeMaps := nodeMaps m;
         nodes := alter (λ ns, {| NodeID := NodeID ns; NStatus := s;
                                  NStartedAt := NStartedAt ns;
                                  NCompletedAt := NCompletedAt ns;
                                  Output := Output ns; NError := NError ns |}) l (nodes m);
         stateMaps := stateMaps m; states := states m; next := next m |}
  end.

(** Locations in use lie below [next]. *)
Definition allocated (m : Mem) : Prop :=
  ∀ p, is_Some (recs m !! p) → p < next m.

(** A memory with one record, built by a caller: a graph state of graph
    [g_single] whose node "a" is Running, at location 0. *)
Definition sample_mem : Mem :=
  {| recs := {[ 0 := {| rGraphID := "x"; rGraph := g_single;
                        rStatus := ExecutionStatusRunning; rInputs := ∅;
                        rNodeStates := 0; rSubmittedAt := 0; rStartedAt := None;
                        rCompletedAt := None; rError := "" |} ]};
     nodeMaps := {[ 0 := {[ "a" := 0 ]} ]};
     nodes := {[ 0 := set_node_running 1 (pending_node "a") ]};
     stateMaps := {[ 0 := ∅ ]};
     states := ∅;
     next := 1 |}.

End MemoryStorage.

(** ** pkg/adapters/events/memory/memory.go: the in-memory event bus *)

Module MemoryBus.

(** A subscribed [ports.EventHandler].  Go function values cannot be
    compared; handlers are told apart here by a name. *)
Definition Handler := nat.

(** [InMemoryEventBus.subscribers]. *)
Definition Bus := gmap string (list Handler).

Definition NewInMemoryEventBus : Bus := ∅.

(** The handlers of a topic; the nil slice for a topic without entry. *)
Definition handlers_of (topic : string) (b : Bus) : list Handler :=
  default [] (b !! topic).

(** [Publish]: one goroutine per handler subscribed to the topic at the
    time of the call, each running its handler on the event; the result is
    the list of the calls started (they run in no specified order, and
    their errors are ignored) and the nil error. *)
Definition Publish (topic : string) (event : Event) (b : Bus)
    : list (Handler * Event) * option string :=
  ((λ h, (h, event)) <$> handlers_of topic b, None).

(** The variables whose addresses [unsubscribe] compares: its parameter
    [handler] and the loop variable [h] of each iteration. *)
Inductive Var :=
| VarHandler
| VarH (iteration : nat).

Global Instance Var_eq_dec : EqDecision Var.
Proof. solve_decision. Defined.

(** The loop of [unsubscribe]: [&h == &handler] compares the addresses of
    two variables, and pointers to distinct variables are unequal. *)
Fixpoint unsubscribe_loop (i : nat) (handlers rest : list Handler)
    : option (list Handler) :=
  match rest with
  | [] => None
  | _ :: rest' =>
      if decide (VarH i = VarHandler)
      then Some (take i handlers ++ drop (S i) handlers)
      else unsubscribe_loop (S i) handlers rest'
  end.

(** [unsubscribe], what the goroutine started by [Subscribe] calls once the
    subscription's context is done. *)
Definition unsubscribe (topic : string) (handler : Handler) (b : Bus) : Bus :=
  match unsubscribe_loop 0 (handlers_of topic b) (handlers_of topic b) with
  | Some handlers => <[topic := handlers]> b
  | None => b
  end.

(** [Subscribe]: the handler is appended to the topic's list. *)
Definition Subscribe (topic : string) (handler : Handler) (b : Bus)
    : Bus * option string :=
  (<[topic := handlers_of topic b ++ [handler]]> b, None).

(** [Unsubscribe]: the topic's entry is deleted. *)
Definition Unsubscribe (topic : string) (b : Bus) : Bus * option string :=
  (delete topic b, None).

(** [Close]. *)
Definition Close (b : Bus) : Bus * option string := (∅, None).

(** [Manager.Start] on this bus: [handleNodeCompleted] (named [handler]
    here) is subscribed to "node.completed"; an error of [Subscribe] is
    returned wrapped. *)
Definition Start (handler : Handler) (b : Bus) : Bus * option string :=
  match Subscribe TopicNodeCompleted handler b with
  | (b', Some err) =>
      (b', Some ("failed to subscribe to node completed events: " +:+ err))
  | (b', None) => (b', None)
  end.

End MemoryBus.

(** ** The Redis state storage (package redis of pkg/adapters/storage):
       keys and [List] *)

Module RedisStorage.

(** [getStateKey]. *)
Definition getStateKey (graphID : string) : string := "dago:state:" +:+ graphID.

Definition prefix : string := "dago:state:".

(** The loop of [List] over SCAN: [scan cursor] is the server's reply to
    SCAN at that cursor ([None]: an error), a batch of keys and the next
    cursor.  Nothing bounds the loop but the server returning cursor 0;
    [fuel] counts the rounds.  The outer [None] is a loop that has not
    ended, the inner one the error "failed to scan keys". *)
Fixpoint scan_keys (fuel : nat) (scan : nat → option (list string * nat))
    (cursor : nat) (keys : list string) : option (option (list string)) :=
  match fuel with
  | 0 => None
  | S fuel' =>
      match scan cursor with
      | None => Some None
      | Some (batch, cursor') =>
          if decide (cursor' = 0) then Some (Some (keys ++ batch))
          else scan_keys fuel' scan cursor' (keys ++ batch)
      end
  end.

(** The second loop of [List]: a key longer than the prefix yields what
    follows its first [len(prefix)] bytes; other keys are skipped. *)
Fixpoint execution_ids (keys : list string) : list string :=
  match keys with
  | [] => []
  | key :: rest =>
      if decide (String.length prefix < String.length key)
      then String.substring (String.length prefix) (String.length key - String.length prefix) key
             :: execution_ids rest
      else execution_ids rest
  end.

Inductive ListResult :=
| ListOk (executionIDs : list string)
| ListScanError                        (* "failed to scan keys: %w" *)
| ListRunning.                         (* the SCAN loop has not ended *)

(** [List]. *)
Definition List (fuel : nat) (scan : nat → option (list string * nat)) : ListResult :=
  match scan_keys fuel scan 0 [] with
  | None => ListRunning
  | Some None => ListScanError
  | Some (Some keys) => ListOk (execution_ids keys)
  end.

(** A server that answers in two batches. *)
Definition sample_scan (cursor : nat) : option (list string * nat) :=
  match cursor with
  | 0 => Some ([getStateKey "e1"; getStateKey ""], 17)
  | _ => Some ([getStateKey "e2"], 0)
  end.

End RedisStorage.

(** ** internal/application/workers: the pool's status and its health monitor *)

Module Workers.

Definition WorkerStatus := string.
Definition WorkerStatusIdle : WorkerStatus := "idle".
Definition WorkerStatusBusy : WorkerStatus := "busy".
Definition WorkerStatusStopped : WorkerStatus := "stopped".

(** A [worker]; its [lastJob] field is written and never read, and is left
    out. *)
Record worker := {
  id : string;
  status : WorkerStatus
}.

(** A [Pool], as far as its status goes: [workers] holds nil pointers
    until [Start] fills it. *)
Record Pool := {
  size : nat;
  workers : list (option worker)
}.

(** [NewPool]: [make([]*worker, size)]. *)
Definition NewPool (size : nat) : Pool :=
  {| size := size; workers := replicate size None |}.

(** The worker [Start] creates in iteration [i]. *)
Definition new_worker (i : nat) : worker :=
  {| id := "worker-" +:+ pretty i; status := WorkerStatusIdle |}.

(** The loop of [Start]: [p.workers[i] = w] for [i] below [p.size]; an
    index outside the slice panics. *)
Fixpoint start_loop (n i : nat) (ws : list (option worker)) : option (list (option worker)) :=
  match n with
  | 0 => Some ws
  | S n' =>
      if decide (i < length ws)
      then start_loop n' (S i) (<[i := Some (new_worker i)]> ws)
      else None
  end.

(** [Pool.Start], the pool it leaves ([None]: a panic). *)
Definition Start (p : Pool) : option Pool :=
  match start_loop (size p) 0 (workers p) with
  | Some ws => Some {| size := size p; workers := ws |}
  | None => None
  end.

(** The loop of [Pool.GetStatus]; reading through a nil worker panics. *)
Fixpoint status_loop (ws : list (option worker)) (status : gmap string WorkerStatus)
    : option (gmap string WorkerStatus) :=
  match ws with
  | [] => Some status
  | None :: _ => None
  | Some w :: rest => status_loop rest (<[id w := Workers.status w]> status)
  end.

(** [Pool.GetStatus] ([None]: a panic). *)
Definition GetStatus (p : Pool) : option (gmap string WorkerStatus) :=
  status_loop (workers p) ∅.

Record HealthStatus := {
  TotalWorkers : nat;
  IdleWorkers : nat;
  BusyWorkers : nat;
  StoppedWorkers : nat;
  Healthy : bool;
  HTimestamp : Time
}.

(** How many workers the switch of [HealthMonitor.GetStatus] counts under
    one of its three cases. *)
Definition count (s : WorkerStatus) (m : gmap string WorkerStatus) : nat :=
  length (filter (λ kv, kv.2 = s) (map_to_list m)).

(** [HealthMonitor.GetStatus]. *)
Definition HealthMonitor_GetStatus (p : Pool) (now : Time) : option HealthStatus :=
  match GetStatus p with
  | None => None
  | Some workerStatuses =>
      let idle := count WorkerStatusIdle workerStatuses in
      let busy := count WorkerStatusBusy workerStatuses in
      let stopped := count WorkerStatusStopped workerStatuses in
      Some {| TotalWorkers := base.size workerStatuses;
              IdleWorkers := idle; BusyWorkers := busy; StoppedWorkers := stopped;
              Healthy := bool_decide (0 < idle) && bool_decide (stopped = 0);
              HTimestamp := now |}
  end.

(** [HealthMonitor.IsHealthy]. *)
Definition IsHealthy (p : Pool) (now : Time) : option bool :=
  Healthy <$> HealthMonitor_GetStatus p now.

(** [HealthMonitor.checkHealth]: the lines it logs, in order, and the
    figures it hands to [RecordWorkerPoolStatus]. *)
Definition checkHealth (p : Pool) (now : Time)
    : option (list (Level * string) * (nat * nat * nat)) :=
  match HealthMonitor_GetStatus p now with
  | None => None
  | Some st =>
      Some ([(LInfo, "worker pool health check")]
            ++ (if Healthy st then [] else [(LWarn, "worker pool is unhealthy")])
            ++ (if decide (BusyWorkers st = TotalWorkers st)
                then [(LWarn, "all workers are busy - consider scaling up")] else []),
            (IdleWorkers st, BusyWorkers st, StoppedWorkers st))
  end.

(** A pool whose only worker is busy. *)
Definition busy_pool : Pool :=
  {| size := 1;
     workers := [Some {| id := "worker-0"; status := WorkerStatusBusy |}] |}.

End Workers.

(** ** internal/config/config.go *)

Module Config.

(** Durations are in nanoseconds, as [time.Duration] is. *)
Record RedisConfig := {
  Addr : string;
  Password : string;
  DB : Z;
  PoolSize : Z;
  MinIdleConns : Z;
  MaxRetries : Z;
  DialTimeout : Z;
  ReadTimeout : Z;
  WriteTimeout : Z
}.

Record TimeoutConfig := {
  GraphExecutionTimeout : Z;
  NodeExecutionTimeout : Z;
  ShutdownTimeout : Z
}.

Record Config := {
  HTTPPort : Z;
  GRPCPort : Z;
  LogLevel : string;
  Redis : RedisConfig;
  Timeouts : TimeoutConfig
}.

Inductive ConfigError :=
| ErrInvalidHTTPPort (port : Z)         (* "invalid HTTP port: %d" *)
| ErrInvalidGRPCPort (port : Z)         (* "invalid gRPC port: %d" *)
| ErrRedisAddrRequired                  (* "redis address is required" *)
| ErrInvalidLogLevel (level : string).  (* "invalid log level: %s (must be ...)" *)

Definition validLogLevels : gmap string bool :=
  {[ "debug" := true; "info" := true; "warn" := true; "error" := true ]}.

(** [Config.Validate]; [None] is the nil error.  Reading a key that a map
    of booleans does not hold gives [false]. *)
Definition Validate (c : Config) : option ConfigError :=
  if (HTTPPort c <? 1)%Z || (65535 <? HTTPPort c)%Z then Some (ErrInvalidHTTPPort (HTTPPort c))
  else if (GRPCPort c <? 1)%Z || (65535 <? GRPCPort c)%Z
  then Some (ErrInvalidGRPCPort (GRPCPort c))
  else if decide (Addr (Redis c) = "") then Some ErrRedisAddrRequired
  else if negb (default false (validLogLevels !! LogLevel c))
  then Some (ErrInvalidLogLevel (LogLevel c))
  else None.

(** [GetHTTPAddr] and [GetGRPCAddr]. *)
Definition GetHTTPAddr (c : Config) : string := ":" +:+ pretty (HTTPPort c).
Definition GetGRPCAddr (c : Config) : string := ":" +:+ pretty (GRPCPort c).

Definition second : Z := 1000000000.

(** The configuration [Load] builds in an empty environment: the
    [envDefault] tags of the fields. *)
Definition default_config : Config :=
  {| HTTPPort := 8080; GRPCPort := 9090; LogLevel := "info";
     Redis := {| Addr := "localhost:6379"; Password := ""; DB := 0; PoolSize := 10;
                 MinIdleConns := 2; MaxRetries := 3; DialTimeout := 5 * second;
                 ReadTimeout := 3 * second; WriteTimeout := 3 * second |};
     Timeouts := {| GraphExecutionTimeout := 3600 * second;
                    NodeExecutionTimeout := 300 * second;
                    ShutdownTimeout := 30 * second |} |}.

Definition with_timeouts (t : TimeoutConfig) (c : Config) : Config :=
  {| HTTPPort := HTTPPort c; GRPCPort := GRPCPort c; LogLevel := LogLevel c;
     Redis := Redis c; Timeouts := t |}.

End Config.

(** * Properties *)

#[local] Set Warnings "-clear-no-such-hyp".

(** ** Admission *)

Lemma validateNode_None k n :
  validateNode k n = None ↔ k ≠ "" ∧ NodeValidate n = None.
Proof.
  unfold validateNode. destruct (decide (k = "")) as [->|Hk].
  - split; [discriminate | intros [? _]; congruence].
  - destruct (NodeValidate n); split; try discriminate; intuition congruence.
Qed.

Lemma validateNodes_None l ids :
  validateNodes l ids = None ↔
  Forall (λ kn, validateNode kn.1 kn.2 = None) l ∧ NoDup l.*1 ∧ ∀ k, k ∈ l.*1 → k ∉ ids.
Proof.
  revert ids. induction l as [|[k n] l IH]; intros ids; simpl.
  - split; [intros _ | done]. split_and!; [constructor | constructor | set_solver].
  - destruct (validateNode k n) eqn:Hn.
    { split; [discriminate|]. intros (Hall & _). inversion Hall; simpl in *; congruence. }
    destruct (decide (k ∈ ids)) as [Hin|Hin].
    { split; [discriminate|]. intros (_ & _ & Hfresh). exfalso. apply (Hfresh k); [set_solver | done]. }
    rewrite IH. split.
    + intros (Hall & Hnd & Hfresh). split_and!.
      * constructor; done.
      * constructor; [|done]. intros Hk. apply (Hfresh k Hk). set_solver.
      * intros k' Hk'. apply elem_of_cons in Hk' as [->|Hk']; [done|].
        specialize (Hfresh k' Hk'). set_solver.
    + intros (Hall & Hnd & Hfresh). inversion Hall; subst. inversion Hnd; subst.
      split_and!; [done | done |].
      intros k' Hk'. apply not_elem_of_union. split.
      * apply not_elem_of_singleton. intros ->. done.
      * apply Hfresh. set_solver.
Qed.

Lemma validateEdges_None nodes edges :
  validateEdges nodes edges = None ↔
  Forall (λ e, is_Some (nodes !! EdgeFrom e) ∧ is_Some (nodes !! EdgeTo e)) edges.
Proof.
  induction edges as [|e edges IH]; simpl.
  - split; [constructor | done].
  - destruct (nodes !! EdgeFrom e) eqn:Hf.
    2:{ split; [discriminate|]. intros H. inversion H as [|? ? [[? ?] _]]; congruence. }
    destruct (nodes !! EdgeTo e) eqn:Ht.
    2:{ split; [discriminate|]. intros H. inversion H as [|? ? [_ [? ?]]]; congruence. }
    rewrite IH. split.
    + intros H. constructor; [split; eauto | done].
    + intros H. by inversion H.
Qed.

(** The validator accepts exactly the admissible graphs. *)
Lemma Validate_None_iff g : Validate g = None ↔ admissible g.
Proof.
  unfold Validate, admissible.
  destruct (decide (ID g = "")) as [Hid|Hid]; [split; [discriminate | tauto] |].
  destruct (decide (Version g = "")) as [Hv|Hv]; [split; [discriminate | tauto] |].
  destruct (decide (size (Nodes g) = 0)) as [Hs|Hs].
  { apply map_size_empty_iff in Hs. split; [discriminate | tauto]. }
  assert (Hne : Nodes g ≠ ∅) by (intros H; apply Hs; by apply map_size_empty_iff).
  destruct (validateNodes (map_to_list (Nodes g)) ∅) eqn:Hn.
  { split; [discriminate|]. intros (_ & _ & _ & _ & Hnodes & _).
    assert (validateNodes (map_to_list (Nodes g)) ∅ = None) as Hnone; [|congruence].
    apply validateNodes_None. split_and!.
    - apply Forall_forall. intros [k n] Hkn. simpl.
      apply elem_of_map_to_list in Hkn. apply validateNode_None. eauto.
    - apply NoDup_fst_map_to_list.
    - set_solver. }
  apply validateNodes_None in Hn as (Hall & _ & _).
  assert (Hnodes : ∀ k n, Nodes g !! k = Some n → k ≠ "" ∧ NodeValidate n = None).
  { intros k n Hkn. apply elem_of_map_to_list in Hkn.
    rewrite Forall_forall in Hall. specialize (Hall _ Hkn). simpl in Hall.
    by apply validateNode_None. }
  destruct (decide (EntryNode g = "")) as [He|He].
  - rewrite validateEdges_None. split; [intros; split_and!; try done | tauto].
  - destruct (Nodes g !! EntryNode g) eqn:Hent.
    + rewrite validateEdges_None. split; [intros; split_and!; eauto | tauto].
    + split; [discriminate|]. intros (_ & _ & _ & _ & _ & H). destruct (H He); congruence.
Qed.

Lemma violates_not_admissible g : violates_admission g → ¬ admissible g.
Proof.
  intros Hv (H1 & H2 & H3 & H4 & H5 & H6).
  destruct Hv as [?|[?|[?|[(e & He & Hend)|[[n Hn]|[Hne Hent]]]]]]; try done.
  - rewrite Forall_forall in H4. destruct (H4 e He) as [[? ?] [? ?]].
    destruct Hend; congruence.
  - by destruct (H5 _ _ Hn).
  - destruct (H6 Hne); congruence.
Qed.

(** ** Effects of the building blocks *)

Lemma completeGraph_effect env gid st s msg w :
  ∃ w', completeGraph env gid st s msg w = Done tt w'
    ∧ store w' = (if save_ok env (set_final s (clock w) msg st)
                  then <[GraphID st := set_final s (clock w) msg st]> (store w) else store w)
    ∧ executions w' = delete gid (executions w)
    ∧ deadlines w' = match executions w !! gid with
                     | Some _ => alter cancel_ctx gid (deadlines w)
                     | None => deadlines w
                     end
    ∧ bus w' = (if publish_ok env TopicGraphEvents (final_event w gid s msg)
                then bus w ++ [(TopicGraphEvents, final_event w gid s msg)] else bus w)
    ∧ uuids w' = S (uuids w) ∧ clock w' = S (S (S (clock w))).
Proof.
  munfold. unfold final_event. simpl.
  destruct (save_ok env _); simpl;
    destruct (executions w !! gid) eqn:He; simpl;
    destruct (publish_ok env _ _); simpl;
    eexists; (split; [reflexivity|]); simpl; split_and!; try reflexivity;
    by rewrite ?delete_id.
Qed.

Lemma publish_work_effect env topic gid nodeID node st w :
  ∃ r w', publish_work env topic gid nodeID node st w = Done r w'
    ∧ store w' = store w ∧ executions w' = executions w ∧ deadlines w' = deadlines w
    ∧ (publish_ok env topic
         (work_event (uuid_of (uuids w)) (clock w) gid nodeID
            (NodeType_string (GetType node)) st) = false →
       r = Some ErrPublishWork ∧ bus w' = bus w)
    ∧ (publish_ok env topic
         (work_event (uuid_of (uuids w)) (clock w) gid nodeID
            (NodeType_string (GetType node)) st) = true →
       r = None).
Proof.
  munfold. simpl. destruct (publish_ok env topic _) eqn:Hp; simpl.
  - match goal with
    | |- context [publish_ok env ?t ?e] => destruct (publish_ok env t e)
    end; simpl;
      do 2 eexists; (split; [reflexivity|]); simpl; split_and!; done.
  - do 2 eexists; (split; [reflexivity|]); simpl; split_and!; done.
Qed.

Lemma mark_running_fields p : ∀ t st,
  GraphID (mark_running p t st) = GraphID st
  ∧ SGraph (mark_running p t st) = SGraph st
  ∧ Status (mark_running p t st) = Status st
  ∧ Inputs (mark_running p t st) = Inputs st
  ∧ SubmittedAt (mark_running p t st) = SubmittedAt st
  ∧ CompletedAt (mark_running p t st) = CompletedAt st
  ∧ Error (mark_running p t st) = Error st.
Proof.
  induction p as [|n p IH]; intros t st; simpl; [done|].
  destruct (NodeStates st !! n); [|done].
  destruct (IH (S t) (set_node_state n (set_node_running t n0) st)) as (?&?&?&?&?&?&?).
  simpl in *. split_and!; congruence.
Qed.

Lemma covered_set_node_state n ns st :
  covered st → covered (set_node_state n ns st).
Proof.
  intros Hc k Hk. simpl in *. destruct (decide (n = k)) as [->|Hne].
  - rewrite lookup_insert_eq. eauto.
  - rewrite lookup_insert_ne; [|done]. by apply Hc.
Qed.

Lemma dispatch_route_nil fuel g n l :
  dispatch_route fuel g n = Some ([], l) → l = LandMissing n.
Proof.
  destruct fuel as [|fuel]; simpl; [done|].
  destruct (GetNode g n) as [node|]; [|congruence].
  destruct (GetType node); try done.
  destruct (decide _); [done|].
  by destruct (dispatch_route fuel g _) as [[? ?]|].
Qed.

(** What a dispatch does to the store and what it returns, along its route. *)
Lemma publishNodeWork_route env fuel : ∀ gid n st w p l,
  (∀ s, save_ok env s = true) →
  covered st →
  dispatch_route fuel (SGraph st) n = Some (p, l) →
  ∃ r w', publishNodeWork env fuel gid n st w = Done r w'
    ∧ store w' = match p with
                 | [] => store w
                 | _ => <[GraphID st := route_final p l (clock w) st]> (store w)
                 end
    ∧ (l ≠ LandEnd → executions w' = executions w ∧ deadlines w' = deadlines w)
    ∧ (l = LandEnd → executions w' = delete gid (executions w))
    ∧ match l with
      | LandMissing m => r = Some (ErrNodeNotFound m)
      | LandWork topic _ =>
          ((∀ e, EvType e = EventTypeNodeWork → publish_ok env topic e = false) →
           r = Some ErrPublishWork ∧ bus w' = bus w)
          ∧ ((∀ e, EvType e = EventTypeNodeWork → publish_ok env topic e = true) →
             r = None)
      | LandEnd | LandStop => r = None
      end.
Proof.
  induction fuel as [|fuel IH]; intros gid n st w p l Hsave Hcov Hroute; [done|].
  simpl in Hroute. simpl. unfold GetNode in *.
  destruct (Nodes (SGraph st) !! n) as [node|] eqn:Hnode.
  2:{ inversion Hroute; subst. do 2 eexists. split; [reflexivity|]. split_and!; done. }
  destruct (Hcov n) as [ns Hns]; [eauto|]. rewrite Hns.
  unfold bind, time_Now, SaveState, when, ret. rewrite Hsave. simpl.
  set (st1 := set_node_state n (set_node_running (clock w) ns) st).
  set (w1 := with_store (insert (GraphID st) st1) (with_clock S w)).
  destruct (GetType node) eqn:Hty.
  - (* start *)
    destruct (decide (findNextNode (SGraph st) n = "")) as [Hnext|Hnext].
    + inversion Hroute; subst.
      do 2 eexists. split; [reflexivity|]. simpl. rewrite Hns. split_and!; done.
    + destruct (dispatch_route fuel (SGraph st) (findNextNode (SGraph st) n))
        as [[p' l']|] eqn:Hr'; [|done].
      inversion Hroute; subst.
      destruct (IH gid (findNextNode (SGraph st) n) st1 w1 p' l Hsave)
        as (r & w' & Hrun & Hst & Hex & Hend & Hres).
      { by apply covered_set_node_state. }
      { done. }
      exists r, w'. split; [exact Hrun|]. split_and!; try done.
      rewrite Hst. unfold route_final. simpl mark_running. rewrite Hns. fold st1.
      destruct p' as [|m p'].
      * apply dispatch_route_nil in Hr' as ->. done.
      * simpl store. rewrite insert_insert_eq. simpl GraphID. simpl clock.
        replace (clock w + length (n :: m :: p')) with (S (clock w) + length (m :: p'))
          by (simpl; lia).
        done.
  - (* executor *)
    inversion Hroute; subst.
    destruct (publish_work_effect env TopicExecutorWork gid n node st1 w1)
      as (r & w' & Hrun & Hst & Hex & Hdl & Hfail & Hok).
    exists r, w'. split; [exact Hrun|]. simpl. rewrite Hns. split_and!; try done.
    + intros Hf. destruct Hfail as [-> Hb]; [by apply Hf|]. by rewrite Hb.
    + intros Ht. apply Hok. by apply Ht.
  - (* router *)
    inversion Hroute; subst.
    destruct (publish_work_effect env TopicRouterWork gid n node st1 w1)
      as (r & w' & Hrun & Hst & Hex & Hdl & Hfail & Hok).
    exists r, w'. split; [exact Hrun|]. simpl. rewrite Hns. split_and!; try done.
    + intros Hf. destruct Hfail as [-> Hb]; [by apply Hf|]. by rewrite Hb.
    + intros Ht. apply Hok. by apply Ht.
  - (* end *)
    inversion Hroute; subst.
    destruct (completeGraph_effect env gid st1 ExecutionStatusCompleted "" w1)
      as (w' & Hrun & Hst & Hex & Hdl & _).
    exists None, w'. rewrite Hrun. split; [reflexivity|].
    rewrite Hst, Hsave. simpl. rewrite Hns, insert_insert_eq. fold st1.
    replace (clock w + 1) with (S (clock w)) by lia.
    split_and!; done.
Qed.

(** ** Submission *)


Lemma SubmitGraph_rejected env fuel g inputs w err :
  Validate g = Some err →
  SubmitGraph env fuel g inputs w =
    Done ("", Some (ErrValidationFailed err))
      (with_metrics (λ ms, ms ++ [RecordGraphSubmitted ExecutionStatusFailed])
         (with_logs (λ ls, ls ++ [{| LogLevel := LError;
                                     LogMsg := "graph validation failed";
                                     LogGraph := ID g |}]) w)).
Proof. intros Hv. unfold SubmitGraph. rewrite Hv. reflexivity. Qed.

Lemma SubmitGraph_accepted env fuel g inputs w :
  Validate g = None →
  save_ok env (initial_state (uuid_of (uuids w)) g inputs (clock w)) = true →
  publish_ok env TopicGraphEvents (submitted_event w g) = true →
  SubmitGraph env fuel g inputs w =
    (werr <- publishNodeWork env fuel (uuid_of (uuids w)) (EntryNode g)
               (initial_state (uuid_of (uuids w)) g inputs (clock w)) ;;
     match werr with
     | Some _ =>
         log LError "failed to publish entry node work" (uuid_of (uuids w)) ;;;
         ret (uuid_of (uuids w), None)
     | None => ret (uuid_of (uuids w), None)
     end) (tracked_world w g inputs).
Proof.
  intros Hv Hs Hp. unfold SubmitGraph. rewrite Hv.
  munfold. unfold submitted_event in Hp. simpl. rewrite Hs. simpl. rewrite Hp. simpl.
  reflexivity.
Qed.

(** ** The tracking invariant *)

Lemma uuid_of_inj n m : uuid_of n = uuid_of m → n = m.
Proof.
  unfold uuid_of. intros H. apply (inj (String.app "uuid-")) in H.
  by apply (inj pretty) in H.
Qed.

Lemma writes_only_refl gid w : writes_only gid w w.
Proof. split; [done | lia]. Qed.

Lemma writes_only_trans gid w1 w2 w3 :
  writes_only gid w1 w2 → writes_only gid w2 w3 → writes_only gid w1 w3.
Proof.
  intros [H1 ?] [H2 ?]. split; [|lia].
  intros k Hk. rewrite H2, H1; done.
Qed.

Lemma handling_frame gid s0 w w' :
  store w' = store w → executions w' = executions w → deadlines w' = deadlines w →
  uuids w ≤ uuids w' →
  handling gid s0 w → handling gid s0 w' ∧ writes_only gid w w'.
Proof.
  intros Hs He Hd Hu ([Ia Ib Ic Id Ie] & Ht & (n & Hn & ->)).
  split; [|split; [by rewrite Hs | done]].
  split_and!.
  - split.
    + intros k. rewrite Hd, He. apply Ia.
    + intros k st. rewrite Hs, He. apply Ib.
    + intros k st. rewrite Hs. apply Ic.
    + intros k. rewrite Hs. intros Hk. destruct (Id k Hk) as (m & ? & ?).
      exists m. split; [lia | done].
    + intros k st. rewrite Hs. apply Ie.
  - by rewrite He.
  - exists n. split; [lia | done].
Qed.

Lemma SaveState_handling env gid s0 st w b w' :
  GraphID st = gid → Status st = s0 → sound_record st →
  SaveState env st w = Done b w' →
  handling gid s0 w → handling gid s0 w' ∧ writes_only gid w w'.
Proof.
  intros Hg Hs Hsound Hrun Hh. unfold SaveState in Hrun.
  destruct (save_ok env st); inversion Hrun; subst; clear Hrun.
  2:{ by apply handling_frame. }
  destruct Hh as ([Ia Ib Ic Id Ie] & Ht & (n & Hn & Heq)).
  split; [|split; [|simpl; lia]].
  - split_and!; [|done|by exists n].
    split; simpl.
    + done.
    + intros k st'. destruct (decide (GraphID st = k)) as [<-|Hne].
      * rewrite lookup_insert_eq. intros [= <-]. done.
      * rewrite lookup_insert_ne; [|done]. apply Ib.
    + intros k st'. destruct (decide (GraphID st = k)) as [<-|Hne].
      * rewrite lookup_insert_eq. by intros [= <-].
      * rewrite lookup_insert_ne; [|done]. apply Ic.
    + intros k. destruct (decide (GraphID st = k)) as [<-|Hne].
      * intros _. by exists n.
      * rewrite lookup_insert_ne; [|done]. apply Id.
    + intros k st'. destruct (decide (GraphID st = k)) as [<-|Hne].
      * rewrite lookup_insert_eq. by intros [= <-].
      * rewrite lookup_insert_ne; [|done]. apply Ie.
  - intros k Hk. simpl. by rewrite lookup_insert_ne.
Qed.

Lemma cancel_ctx_not_active c : cancel_ctx c ≠ CtxActive.
Proof. by destruct c. Qed.

Lemma sound_set_final s now msg st :
  is_terminal s = true → sound_record st → sound_record (set_final s now msg st).
Proof.
  intros Hs (Hv & Hc & _). split_and!; [done | done |]. simpl. congruence.
Qed.

Lemma sound_set_node_state n ns st :
  sound_record st → sound_record (set_node_state n ns st).
Proof.
  intros (Hv & Hc & He). split_and!; [done | by apply covered_set_node_state | done].
Qed.

Lemma completeGraph_handling env gid s0 st s msg w w' :
  GraphID st = gid → is_terminal s = true → sound_record st →
  completeGraph env gid st s msg w = Done tt w' →
  handling gid s0 w → handling gid s0 w' ∧ writes_only gid w w'.
Proof.
  intros Hg Hs Hsound Hrun ([Ia Ib Ic Id Ie] & Ht & (n & Hn & Heq)).
  destruct (completeGraph_effect env gid st s msg w)
    as (w'' & Hrun' & Hst & Hex & Hdl & _ & Hu & _).
  rewrite Hrun in Hrun'. inversion Hrun'; subst w''. clear Hrun'.
  assert (Hother : ∀ k, k ≠ gid → store w' !! k = store w !! k).
  { intros k Hk. rewrite Hst. destruct (save_ok env _); [|done].
    rewrite lookup_insert_ne; [done | congruence]. }
  split; [|split; [done | lia]].
  split_and!; [|by rewrite Hex, lookup_delete_eq|exists n; split; [lia|done]].
  split.
  - intros k Hk. destruct (decide (k = gid)) as [->|Hne].
    + exfalso. rewrite Hdl in Hk. destruct (executions w !! gid) eqn:He.
      * rewrite lookup_alter_eq in Hk. destruct (deadlines w !! gid); simpl in Hk; [|done].
        inversion Hk as [Hc]. by apply cancel_ctx_not_active in Hc.
      * destruct (Ia _ Hk). congruence.
    + rewrite Hex, lookup_delete_ne; [|done]. apply Ia.
      rewrite Hdl in Hk. destruct (executions w !! gid); [|done].
      by rewrite lookup_alter_ne in Hk.
  - intros k st' Hk Hterm. rewrite Hex. destruct (decide (k = gid)) as [->|Hne].
    + by rewrite lookup_delete_eq.
    + rewrite lookup_delete_ne; [|done]. rewrite Hother in Hk; [|done]. by eapply Ib.
  - intros k st' Hk. destruct (decide (k = gid)) as [->|Hne].
    + rewrite Hst in Hk. destruct (save_ok env _).
      * rewrite Hg, lookup_insert_eq in Hk. inversion Hk. done.
      * by apply Ic.
    + rewrite Hother in Hk; [|done]. by apply Ic.
  - intros k Hk. destruct (decide (k = gid)) as [->|Hne].
    + exists n. split; [lia | done].
    + rewrite Hother in Hk; [|done]. destruct (Id k Hk) as (m & ? & ?).
      exists m. split; [lia | done].
  - intros k st' Hk. destruct (decide (k = gid)) as [->|Hne].
    + rewrite Hst in Hk. destruct (save_ok env _).
      * rewrite Hg, lookup_insert_eq in Hk. inversion Hk. by apply sound_set_final.
      * by eapply Ie.
    + rewrite Hother in Hk; [|done]. by eapply Ie.
Qed.

Lemma publish_work_handling env topic gid s0 nodeID node st w r w' :
  publish_work env topic gid nodeID node st w = Done r w' →
  handling gid s0 w → handling gid s0 w' ∧ writes_only gid w w'.
Proof.
  intros Hrun. apply handling_frame; revert Hrun; munfold; simpl;
    repeat (match goal with
            | |- context [publish_ok env ?t ?e] => destruct (publish_ok env t e)
            end; simpl);
    intros [= <- <-]; simpl; try done; lia.
Qed.

Lemma publishGraphEvent_handling env gid s0 gid' ty data w r w' :
  publishGraphEvent env gid' ty data w = Done r w' →
  handling gid s0 w → handling gid s0 w' ∧ writes_only gid w w'.
Proof.
  intros Hrun. apply handling_frame; revert Hrun; munfold; simpl;
    repeat (match goal with
            | |- context [publish_ok env ?t ?e] => destruct (publish_ok env t e)
            end; simpl);
    intros [= <- <-]; simpl; try done; lia.
Qed.

Lemma handling_then gid s0 w1 w2 w3 :
  (handling gid s0 w1 → handling gid s0 w2 ∧ writes_only gid w1 w2) →
  (handling gid s0 w2 → handling gid s0 w3 ∧ writes_only gid w2 w3) →
  handling gid s0 w1 → handling gid s0 w3 ∧ writes_only gid w1 w3.
Proof.
  intros H12 H23 H1. destruct (H12 H1) as [H2 Hw12]. destruct (H23 H2) as [H3 Hw23].
  split; [done | by eapply writes_only_trans].
Qed.

Lemma publishNodeWork_handling env fuel : ∀ gid n st w r w',
  GraphID st = gid → sound_record st →
  publishNodeWork env fuel gid n st w = Done r w' →
  handling gid (Status st) w → handling gid (Status st) w' ∧ writes_only gid w w'.
Proof.
  induction fuel as [|fuel IH]; intros gid n st w r w' Hg Hsound Hrun; [done|].
  simpl in Hrun. destruct (GetNode (SGraph st) n) as [node|].
  2:{ inversion Hrun; subst. intros; split; [done | apply writes_only_refl]. }
  destruct (NodeStates st !! n) as [ns|]; [|done].
  unfold bind at 1 in Hrun. unfold time_Now at 1 in Hrun.
  unfold bind at 1 in Hrun.
  set (st1 := set_node_state n (set_node_running (clock w) ns) st) in *.
  destruct (SaveState env st1 (with_clock S w)) as [b w1| |] eqn:Hsave; try done.
  eapply handling_then.
  { eapply handling_then; [by apply (handling_frame gid (Status st) w (with_clock S w)) |].
    eapply SaveState_handling; [| | |exact Hsave]; [done | done |].
    by apply sound_set_node_state. }
  unfold bind at 1 in Hrun.
  assert (Hlog : ∃ w2, when (negb b) (log LError "failed to save state before node work" gid) w1
                       = Done tt w2
                     ∧ (handling gid (Status st) w1 →
                        handling gid (Status st) w2 ∧ writes_only gid w1 w2)).
  { destruct b; simpl; eexists; (split; [reflexivity|]); by apply handling_frame. }
  destruct Hlog as (w2 & Hlog & Hstep). rewrite Hlog in Hrun.
  eapply handling_then; [exact Hstep|]. clear Hstep Hlog Hsave.
  destruct (GetType node).
  - simpl in Hrun. destruct (decide (findNextNode (SGraph st) n = "")).
    + inversion Hrun; subst. intros; split; [done | apply writes_only_refl].
    + eapply (IH gid _ st1); [exact Hg | by apply sound_set_node_state | exact Hrun].
  - by eapply publish_work_handling.
  - by eapply publish_work_handling.
  - unfold bind in Hrun.
    destruct (completeGraph env gid st1 ExecutionStatusCompleted "" w2) as [[] w3| |] eqn:Hc;
      try done.
    inversion Hrun; subst w'.
    eapply (completeGraph_handling env gid (Status st) st1 ExecutionStatusCompleted);
      [exact Hg | reflexivity | by apply sound_set_node_state | exact Hc].
Qed.

(** ** The completion handler, case by case *)

Lemma handleNodeCompleted_no_record env fuel event w :
  (if get_ok env (ExecutionID event) then store w !! ExecutionID event else None) = None →
  handleNodeCompleted env fuel event w =
    Done None
      (with_logs (λ ls, ls ++ [{| LogLevel := LError;
                                  LogMsg := "failed to get state on node completion";
                                  LogGraph := ExecutionID event |}])
         (with_logs (λ ls, ls ++ [{| LogLevel := LInfo;
                                     LogMsg := "received node completed event";
                                     LogGraph := ExecutionID event |}]) w)).
Proof.
  intros Hget. unfold handleNodeCompleted.
  destruct (as_string (Data event !! "error")) as [errorMsg hasError].
  munfold. simpl. rewrite Hget. reflexivity.
Qed.

Lemma handleNodeCompleted_no_node env fuel event w st :
  get_ok env (ExecutionID event) = true →
  store w !! ExecutionID event = Some st →
  NodeStates st !! ev_node event = None →
  handleNodeCompleted env fuel event w =
    Done None
      (with_logs (λ ls, ls ++ [{| LogLevel := LError;
                                  LogMsg := "node state not found";
                                  LogGraph := ExecutionID event |}])
         (with_logs (λ ls, ls ++ [{| LogLevel := LInfo;
                                     LogMsg := "received node completed event";
                                     LogGraph := ExecutionID event |}]) w)).
Proof.
  intros Hget Hst Hns. unfold handleNodeCompleted. unfold ev_node in Hns.
  destruct (as_string (Data event !! "error")) as [errorMsg hasError].
  munfold. simpl. rewrite Hget, Hst, Hns. reflexivity.
Qed.

Lemma handleNodeCompleted_known env fuel event w st ns :
  get_ok env (ExecutionID event) = true →
  store w !! ExecutionID event = Some st →
  NodeStates st !! ev_node event = Some ns →
  handleNodeCompleted env fuel event w =
    (let gid := ExecutionID event in
     let st1 := completed_state event (clock w) ns st in
     ok <- SaveState env st1 ;;
     when (negb ok) (log LError "failed to save state after node completion" gid) ;;;
     if ev_has_error event then
       completeGraph env gid st1 ExecutionStatusFailed (ev_error event) ;;; ret None
     else
       let nextNode := if decide (ev_next event = "")
                       then findNextNode (SGraph st) (ev_node event) else ev_next event in
       if decide (nextNode = "") then
         completeGraph env gid st1 ExecutionStatusCompleted "" ;;; ret None
       else dispatch_successor env fuel gid nextNode st1)
      (received_world event w).
Proof.
  intros Hget Hst Hns. unfold handleNodeCompleted, dispatch_successor, completed_state.
  unfold ev_node, ev_error, ev_has_error, ev_next in *.
  destruct (as_string (Data event !! "error")) as [errorMsg hasError].
  unfold bind at 1. unfold log at 1, modify at 1.
  unfold bind at 1. unfold GetState at 1. simpl. rewrite Hget, Hst, Hns.
  reflexivity.
Qed.

Lemma handleNodeCompleted_saved env fuel event w st ns :
  get_ok env (ExecutionID event) = true →
  store w !! ExecutionID event = Some st →
  NodeStates st !! ev_node event = Some ns →
  let gid := ExecutionID event in
  let st1 := completed_state event (clock w) ns st in
  save_ok env st1 = true →
  handleNodeCompleted env fuel event w =
    (if ev_has_error event then
       completeGraph env gid st1 ExecutionStatusFailed (ev_error event) ;;; ret None
     else
       let nextNode := if decide (ev_next event = "")
                       then findNextNode (SGraph st) (ev_node event) else ev_next event in
       if decide (nextNode = "") then
         completeGraph env gid st1 ExecutionStatusCompleted "" ;;; ret None
       else dispatch_successor env fuel gid nextNode st1)
      (completion_world event st1 w).
Proof.
  intros Hget Hst Hns gid st1 Hsave.
  rewrite (handleNodeCompleted_known env fuel event w st ns Hget Hst Hns).
  cbv zeta. fold gid st1. unfold bind at 1, SaveState at 1. rewrite Hsave. reflexivity.
Qed.

(** ** Node states along a route *)

Lemma initial_node_states_lookup g k :
  initial_node_states g !! k = (λ _, pending_node k) <$> Nodes g !! k.
Proof. unfold initial_node_states. rewrite map_lookup_imap. by destruct (Nodes g !! k). Qed.

Lemma initial_state_covered gid g inputs t : covered (initial_state gid g inputs t).
Proof.
  intros k [n Hn]. simpl in *. rewrite initial_node_states_lookup, Hn. simpl. eauto.
Qed.

Lemma dispatch_route_nodes fuel : ∀ g n p l,
  dispatch_route fuel g n = Some (p, l) → ∀ k, k ∈ p → is_Some (Nodes g !! k).
Proof.
  induction fuel as [|fuel IH]; intros g n p l; simpl; [done|]. unfold GetNode.
  destruct (Nodes g !! n) as [node|] eqn:Hn.
  2:{ intros [= <- <-] k Hk. by apply elem_of_nil in Hk. }
  assert (Hhere : ∀ k, k ∈ [n] → is_Some (Nodes g !! k)).
  { intros k Hk. apply list_elem_of_singleton in Hk as ->. eauto. }
  destruct (GetType node); try (by intros [= <- <-]).
  destruct (decide _); [by intros [= <- <-]|].
  destruct (dispatch_route fuel g _) as [[p' l']|] eqn:Hr; [|done].
  intros [= <- <-] k Hk. apply elem_of_cons in Hk as [->|Hk]; [eauto|].
  by eapply IH.
Qed.

Lemma mark_running_other p : ∀ t st k,
  k ∉ p → NodeStates (mark_running p t st) !! k = NodeStates st !! k.
Proof.
  induction p as [|n p IH]; intros t st k Hk; simpl; [done|].
  apply not_elem_of_cons in Hk as [Hne Hk].
  destruct (NodeStates st !! n); [|done].
  rewrite IH; [|done]. simpl. by rewrite lookup_insert_ne.
Qed.

Lemma mark_running_dom p : ∀ t st k,
  is_Some (NodeStates (mark_running p t st) !! k) ↔ is_Some (NodeStates st !! k).
Proof.
  induction p as [|n p IH]; intros t st k; simpl; [done|].
  destruct (NodeStates st !! n) eqn:Hn; [|done].
  rewrite IH. simpl. destruct (decide (n = k)) as [->|Hne].
  - rewrite lookup_insert_eq, Hn. split; eauto.
  - by rewrite lookup_insert_ne.
Qed.

Lemma mark_running_in p : ∀ t st k,
  (∀ k', k' ∈ p → is_Some (NodeStates st !! k')) →
  k ∈ p →
  ∃ ns, NodeStates (mark_running p t st) !! k = Some ns
        ∧ NStatus ns = ExecutionStatusRunning ∧ is_Some (NStartedAt ns).
Proof.
  induction p as [|n p IH]; intros t st k Hall Hk; [by apply elem_of_nil in Hk|].
  simpl. destruct (Hall n) as [ns Hns]; [by left|]. rewrite Hns.
  destruct (decide (k ∈ p)) as [Hin|Hnin].
  - apply IH; [|done]. intros k' Hk'. simpl. destruct (decide (n = k')) as [->|Hne].
    + rewrite lookup_insert_eq. eauto.
    + rewrite lookup_insert_ne; [|done]. apply Hall. by right.
  - apply elem_of_cons in Hk as [->|Hk]; [|done].
    rewrite mark_running_other; [|done]. simpl. rewrite lookup_insert_eq.
    eexists. split; [reflexivity|]. simpl. eauto.
Qed.

(** What [SubmitGraph] leaves in the store for a graph it accepts. *)
Lemma SubmitGraph_route env fuel g inputs w p l :
  Validate g = None →
  (∀ s, save_ok env s = true) →
  publish_ok env TopicGraphEvents (submitted_event w g) = true →
  dispatch_route fuel g (EntryNode g) = Some (p, l) →
  ∃ w', SubmitGraph env fuel g inputs w = Done (uuid_of (uuids w), None) w'
    ∧ store w' = <[uuid_of (uuids w) :=
                    route_final p l (S (S (S (clock w))))
                      (initial_state (uuid_of (uuids w)) g inputs (clock w))]> (store w)
    ∧ (l ≠ LandEnd → deadlines w' !! uuid_of (uuids w) = Some CtxActive
                     ∧ is_Some (executions w' !! uuid_of (uuids w)))
    ∧ (∀ topic node, l = LandWork topic node →
       (∀ e, EvType e = EventTypeNodeWork → publish_ok env topic e = false) →
       last (logs w') = Some {| LogLevel := LError;
                                LogMsg := "failed to publish entry node work";
                                LogGraph := uuid_of (uuids w) |}).
Proof.
  intros Hv Hs Hp Hroute.
  rewrite (SubmitGraph_accepted _ _ _ _ _ Hv (Hs _) Hp).
  set (gid := uuid_of (uuids w)). set (st0 := initial_state gid g inputs (clock w)).
  destruct (publishNodeWork_route env fuel gid (EntryNode g) st0 (tracked_world w g inputs)
              p l Hs (initial_state_covered _ _ _ _) Hroute)
    as (r & w1 & Hrun & Hst & Hkeep & _ & Hres).
  unfold bind. rewrite Hrun.
  assert (Hstore : store w1 = <[gid := route_final p l (S (S (S (clock w)))) st0]> (store w)).
  { rewrite Hst. destruct p as [|n p].
    - apply dispatch_route_nil in Hroute as ->. done.
    - simpl. by rewrite insert_insert_eq. }
  assert (Htrack : l ≠ LandEnd → deadlines w1 !! gid = Some CtxActive
                                  ∧ is_Some (executions w1 !! gid)).
  { intros Hl. destruct (Hkeep Hl) as [-> ->]. simpl. rewrite !lookup_insert_eq. eauto. }
  destruct r as [err|].
  - eexists. split; [reflexivity|]. simpl. split_and!; try done.
    intros _ _ _ _. by rewrite last_snoc.
  - eexists. split; [reflexivity|]. split_and!; try done.
    intros topic node -> Hfail. destruct Hres as [Hres _]. by destruct (Hres Hfail).
Qed.

(** ** Every operation keeps the invariant *)

Lemma tracking_inv_init : tracking_inv init_world.
Proof.
  split; simpl.
  - intros k. by rewrite lookup_empty.
  - intros k st. by rewrite lookup_empty.
  - intros k st. by rewrite lookup_empty.
  - intros k. rewrite lookup_empty. by intros [].
  - intros k st. by rewrite lookup_empty.
Qed.

Lemma inv_store_insert gid st w w' :
  tracking_inv w →
  store w' = <[gid := st]> (store w) →
  (∀ k, k ≠ gid → executions w' !! k = executions w !! k) →
  (is_Some (executions w' !! gid) → is_terminal (Status st) = false) →
  (∀ k, deadlines w' !! k = Some CtxActive → is_Some (executions w' !! k)) →
  GraphID st = gid →
  sound_record st →
  (∃ n, n < uuids w' ∧ gid = uuid_of n) →
  uuids w ≤ uuids w' →
  tracking_inv w'.
Proof.
  intros [Ia Ib Ic Id Ie] Hs He Hnt Hd Hg Hsound Hm Hu. split.
  - done.
  - intros k st'. rewrite Hs. destruct (decide (k = gid)) as [->|Hne].
    + rewrite lookup_insert_eq. intros [= <-] Ht.
      destruct (executions w' !! gid) eqn:Hx; [|done].
      rewrite Hnt in Ht; [done | eauto].
    + rewrite lookup_insert_ne; [|done]. rewrite He; [|done]. apply Ib.
  - intros k st'. rewrite Hs. destruct (decide (k = gid)) as [->|Hne].
    + rewrite lookup_insert_eq. by intros [= <-].
    + rewrite lookup_insert_ne; [|done]. apply Ic.
  - intros k. rewrite Hs. destruct (decide (k = gid)) as [->|Hne]; [done|].
    rewrite lookup_insert_ne; [|done]. intros Hk. destruct (Id k Hk) as (m & ? & ?).
    exists m. split; [lia | done].
  - intros k st'. rewrite Hs. destruct (decide (k = gid)) as [->|Hne].
    + rewrite lookup_insert_eq. by intros [= <-].
    + rewrite lookup_insert_ne; [|done]. apply Ie.
Qed.

Lemma initial_state_sound gid g inputs t :
  Validate g = None → sound_record (initial_state gid g inputs t).
Proof. intros Hv. split_and!; [done | apply initial_state_covered | done]. Qed.

Lemma SubmitGraph_save_failed env fuel g inputs w :
  Validate g = None →
  save_ok env (initial_state (uuid_of (uuids w)) g inputs (clock w)) = false →
  SubmitGraph env fuel g inputs w =
    Done ("", Some ErrSaveState)
      (with_logs (λ ls, ls ++ [{| LogLevel := LError;
                                  LogMsg := "failed to save initial state";
                                  LogGraph := uuid_of (uuids w) |}])
         (with_clock S (with_uuids S w))).
Proof.
  intros Hv Hs. unfold SubmitGraph. rewrite Hv. munfold. simpl. rewrite Hs. reflexivity.
Qed.

(** When the bus refuses the GraphSubmitted event, [SubmitGraph] gives the
    bus error back: the record stays saved, nothing is tracked. *)
Lemma SubmitGraph_unannounced env fuel g inputs w :
  Validate g = None →
  save_ok env (initial_state (uuid_of (uuids w)) g inputs (clock w)) = true →
  publish_ok env TopicGraphEvents (submitted_event w g) = false →
  SubmitGraph env fuel g inputs w =
    Done ("", Some ErrPublish)
      (with_logs (λ ls, ls ++ [{| LogLevel := LError;
                                  LogMsg := "failed to publish graph event";
                                  LogGraph := uuid_of (uuids w) |}])
         (with_clock S (with_uuids S
            (with_store (insert (uuid_of (uuids w))
                           (initial_state (uuid_of (uuids w)) g inputs (clock w)))
               (with_clock S (with_uuids S w)))))).
Proof.
  intros Hv Hs Hp. unfold SubmitGraph. rewrite Hv. munfold.
  unfold submitted_event in Hp. simpl. rewrite Hs. simpl. rewrite Hp. reflexivity.
Qed.

Lemma tracked_world_handling w g inputs :
  tracking_inv w → Validate g = None →
  handling (uuid_of (uuids w)) ExecutionStatusRunning (tracked_world w g inputs)
  ∧ writes_only (uuid_of (uuids w)) w (tracked_world w g inputs).
Proof.
  intros Hinv Hv. split; [split_and!|split].
  - eapply (inv_store_insert (uuid_of (uuids w))); [exact Hinv|reflexivity|..]; simpl.
    + intros k Hk. by rewrite lookup_insert_ne.
    + done.
    + intros k. destruct (decide (k = uuid_of (uuids w))) as [->|Hne].
      * rewrite !lookup_insert_eq. eauto.
      * rewrite !lookup_insert_ne; [|done..]. apply Hinv.
    + done.
    + by apply initial_state_sound.
    + exists (uuids w). split; [lia | done].
    + lia.
  - done.
  - exists (uuids w). simpl. split; [lia | done].
  - intros k Hk. simpl. by rewrite lookup_insert_ne.
  - simpl. lia.
Qed.

Lemma SubmitGraph_inv env fuel g inputs w r w' :
  tracking_inv w →
  SubmitGraph env fuel g inputs w = Done r w' →
  tracking_inv w' ∧ writes_only (uuid_of (uuids w)) w w'
  ∧ (r.2 = None → r.1 = uuid_of (uuids w) ∧ uuids w < uuids w').
Proof.
  intros Hinv Hrun.
  destruct (Validate g) as [err|] eqn:Hv.
  { rewrite (SubmitGraph_rejected _ _ _ _ _ _ Hv) in Hrun. inversion Hrun; subst.
    split_and!; [|split; simpl; [done|lia]|done].
    destruct Hinv. by split. }
  destruct (save_ok env (initial_state (uuid_of (uuids w)) g inputs (clock w))) eqn:Hs.
  2:{ rewrite (SubmitGraph_save_failed _ _ _ _ _ Hv Hs) in Hrun. inversion Hrun; subst.
      split_and!; [|split; [done|simpl; lia]|done].
      destruct Hinv as [Ia Ib Ic Id Ie]. split; simpl; try done.
      intros k Hk. destruct (Id k Hk) as (m & ? & ?). exists m. split; [lia|done]. }
  destruct (publish_ok env TopicGraphEvents (submitted_event w g)) eqn:Hp.
  2:{ rewrite (SubmitGraph_unannounced _ _ _ _ _ Hv Hs Hp) in Hrun. inversion Hrun; subst.
      split_and!; [| |done].
      - eapply (inv_store_insert (uuid_of (uuids w))); [exact Hinv|reflexivity|..]; simpl;
          try done.
        + apply Hinv.
        + by apply initial_state_sound.
        + exists (uuids w). split; [lia | done].
        + lia.
      - split; simpl; [|lia]. intros k Hk. by rewrite lookup_insert_ne. }
  rewrite (SubmitGraph_accepted _ _ _ _ _ Hv Hs Hp) in Hrun.
  unfold bind at 1 in Hrun.
  destruct (publishNodeWork env fuel _ _ _ _) as [werr w1| |] eqn:Hwork; try done.
  destruct (tracked_world_handling w g inputs Hinv Hv) as [Hh Hw].
  destruct (publishNodeWork_handling env fuel (uuid_of (uuids w)) _
              (initial_state (uuid_of (uuids w)) g inputs (clock w)) _ _ _ eq_refl
              (initial_state_sound _ _ _ _ Hv) Hwork Hh)
    as [Hh1 Hw1].
  assert (Hw01 := writes_only_trans _ _ _ _ Hw Hw1).
  assert (Hlt : uuids w < uuids w1).
  { destruct Hw1 as [_ Hu]. simpl in Hu. lia. }
  destruct werr; munfold; inversion Hrun; subst; simpl.
  - split_and!; [|done|done].
    destruct Hh1 as ([Ia Ib Ic Id Ie] & _). by split.
  - split_and!; [|done|done]. apply Hh1.
Qed.

Lemma inv_weaken w w' :
  tracking_inv w →
  store w' = store w →
  (∀ k, is_Some (executions w' !! k) ↔ is_Some (executions w !! k)) →
  (∀ k, deadlines w' !! k = Some CtxActive → deadlines w !! k = Some CtxActive) →
  uuids w ≤ uuids w' →
  tracking_inv w'.
Proof.
  intros [Ia Ib Ic Id Ie] Hs He Hd Hu. split; [| | | |intros k st; rewrite Hs; apply Ie].
  - intros k Hk. apply He, Ia, Hd, Hk.
  - intros k st. rewrite Hs. intros Hk Ht. specialize (Ib k st Hk Ht).
    destruct (executions w' !! k) eqn:Hx; [|done].
    assert (is_Some (executions w !! k)) as [? ?] by (apply He; eauto). congruence.
  - intros k st. rewrite Hs. apply Ic.
  - intros k. rewrite Hs. intros Hk. destruct (Id k Hk) as (m & ? & ?).
    exists m. split; [lia | done].
Qed.

Lemma handling_of_record w gid st :
  tracking_inv w → store w !! gid = Some st →
  handling gid (Status st) w ∧ GraphID st = gid ∧ sound_record st.
Proof.
  intros Hinv Hst. split; [split_and!|split].
  - done.
  - intros Ht. by eapply (inv_terminal_untracked w Hinv).
  - apply (inv_minted w Hinv). eauto.
  - by apply (inv_key w Hinv).
  - by eapply (inv_sound w Hinv).
Qed.

Lemma sound_completed_state event now ns st :
  sound_record st → sound_record (completed_state event now ns st).
Proof. apply sound_set_node_state. Qed.

Lemma handleNodeCompleted_inv env fuel event w r w' :
  tracking_inv w →
  handleNodeCompleted env fuel event w = Done r w' →
  tracking_inv w' ∧ writes_only (ExecutionID event) w w'.
Proof.
  intros Hinv Hrun.
  destruct (if get_ok env (ExecutionID event) then store w !! ExecutionID event else None)
    as [st|] eqn:Hget.
  2:{ rewrite (handleNodeCompleted_no_record _ _ _ _ Hget) in Hrun. inversion Hrun; subst.
      split; [|split; simpl; [done | lia]]. eapply inv_weaken; eauto. }
  destruct (get_ok env (ExecutionID event)) eqn:Hok; [|done].
  destruct (NodeStates st !! ev_node event) as [ns|] eqn:Hns.
  2:{ rewrite (handleNodeCompleted_no_node _ _ _ _ _ Hok Hget Hns) in Hrun.
      inversion Hrun; subst.
      split; [|split; simpl; [done | lia]]. eapply inv_weaken; eauto. }
  rewrite (handleNodeCompleted_known _ _ _ _ _ _ Hok Hget Hns) in Hrun.
  destruct (handling_of_record w _ st Hinv Hget) as (Hh & Hg & Hsound).
  assert (Hsound1 := sound_completed_state event (clock w) ns st Hsound).
  set (gid := ExecutionID event) in *.
  set (st1 := completed_state event (clock w) ns st) in *.
  cut (handling gid (Status st) w' ∧ writes_only gid w w'); [intros [[? _] ?]; done|].
  revert Hh. cbv zeta in Hrun.
  eapply (handling_then gid _ w (received_world event w)); [by apply handling_frame|].
  unfold bind at 1 in Hrun.
  destruct (SaveState env st1 (received_world event w)) as [b w1| |] eqn:Hsave; try done.
  eapply handling_then; [eapply SaveState_handling; [| | |exact Hsave]; done|].
  unfold bind at 1 in Hrun.
  assert (Hlog : ∃ w2, when (negb b)
                         (log LError "failed to save state after node completion" gid) w1
                       = Done tt w2
                     ∧ (handling gid (Status st) w1 →
                        handling gid (Status st) w2 ∧ writes_only gid w1 w2)).
  { destruct b; simpl; eexists; (split; [reflexivity|]); by apply handling_frame. }
  destruct Hlog as (w2 & Hlog & Hstep). rewrite Hlog in Hrun.
  eapply handling_then; [exact Hstep|]. clear Hstep Hlog Hsave.
  destruct (ev_has_error event).
  { unfold bind in Hrun.
    destruct (completeGraph env gid st1 _ _ w2) as [[] w3| |] eqn:Hc; try done.
    inversion Hrun; subst w'.
    eapply (completeGraph_handling env gid (Status st) st1 ExecutionStatusFailed);
      [exact Hg | reflexivity | exact Hsound1 | exact Hc]. }
  destruct (decide _).
  { unfold bind in Hrun.
    destruct (completeGraph env gid st1 _ _ w2) as [[] w3| |] eqn:Hc; try done.
    inversion Hrun; subst w'.
    eapply (completeGraph_handling env gid (Status st) st1 ExecutionStatusCompleted);
      [exact Hg | reflexivity | exact Hsound1 | exact Hc]. }
  unfold dispatch_successor, bind at 1 in Hrun.
  destruct (publishNodeWork env fuel gid _ st1 w2) as [werr w3| |] eqn:Hwork; try done.
  eapply handling_then.
  { eapply (publishNodeWork_handling env fuel gid _ st1);
      [exact Hg | exact Hsound1 | exact Hwork]. }
  destruct werr; munfold; inversion Hrun; subst; by apply handling_frame.
Qed.

Lemma inv_untrack gid st w w' :
  tracking_inv w →
  store w' = <[gid := st]> (store w) →
  executions w' = delete gid (executions w) →
  deadlines w' = deadlines w →
  deadlines w !! gid ≠ Some CtxActive →
  is_Some (store w !! gid) →
  GraphID st = gid →
  sound_record st →
  uuids w ≤ uuids w' →
  tracking_inv w'.
Proof.
  intros Hinv Hs He Hd Hgone Hold Hg Hsound Hu.
  eapply (inv_store_insert gid st w); [exact Hinv | exact Hs | ..]; try done.
  - intros k Hk. by rewrite He, lookup_delete_ne.
  - rewrite He, lookup_delete_eq. by intros [].
  - intros k. rewrite Hd, He. intros Hk. destruct (decide (k = gid)) as [->|Hne]; [done|].
    rewrite lookup_delete_ne; [|done]. by apply (inv_active_tracked w Hinv).
  - destruct (inv_minted w Hinv gid Hold) as (n & ? & ?). exists n. split; [lia | done].
Qed.

Lemma CancelExecution_inv env gid w r w' :
  tracking_inv w →
  CancelExecution env gid w = Done r w' →
  tracking_inv w' ∧ writes_only gid w w'.
Proof.
  intros Hinv Hrun. unfold CancelExecution in Hrun. revert Hrun. munfold. simpl.
  destruct (executions w !! gid) as [execCtx|] eqn:Hx.
  2:{ intros [= <- <-]. split; [done | apply writes_only_refl]. }
  destruct (is_terminal (status execCtx)).
  { intros [= <- <-]. split; [done | apply writes_only_refl]. }
  simpl.
  set (w1 := with_executions
               (insert gid (set_exec_status ExecutionStatusCancelled execCtx))
               (with_deadlines (alter cancel_ctx gid) w)).
  assert (Hgone : deadlines w1 !! gid ≠ Some CtxActive).
  { simpl. rewrite lookup_alter_eq. destruct (deadlines w !! gid); simpl; [|done].
    intros [= Hc]. by apply cancel_ctx_not_active in Hc. }
  assert (Hinv1 : tracking_inv w1).
  { eapply inv_weaken; [exact Hinv | reflexivity | | | simpl; lia].
    - intros k. simpl. destruct (decide (k = gid)) as [->|Hne].
      + rewrite lookup_insert_eq, Hx. split; eauto.
      + by rewrite lookup_insert_ne.
    - intros k Hk. destruct (decide (k = gid)) as [->|Hne]; [done|].
      simpl in Hk. by rewrite lookup_alter_ne in Hk. }
  destruct (if get_ok env gid then store w !! gid else None) as [st|] eqn:Hget.
  2:{ intros [= <- <-]. split; [exact Hinv1 | split; simpl; [done | lia]]. }
  assert (Hst : store w1 !! gid = Some st) by (destruct (get_ok env gid); done).
  destruct (handling_of_record w1 gid st Hinv1 Hst) as (_ & Hg & Hsound).
  assert (Hsound' : sound_record (set_final ExecutionStatusCancelled (clock w) "" st))
    by by apply sound_set_final.
  destruct (save_ok env _); simpl.
  2:{ intros [= <- <-]. split; [|split; simpl; [done | lia]].
      eapply inv_weaken; [exact Hinv1 | done..| simpl; lia]. }
  assert (Hwrites : ∀ k, k ≠ gid →
            <[GraphID st := set_final ExecutionStatusCancelled (clock w) "" st]> (store w) !! k
            = store w !! k).
  { intros k Hk. rewrite Hg. by rewrite lookup_insert_ne. }
  destruct (publish_ok env _ _); simpl; intros [= <- <-].
  all: split; [|split; simpl; [exact Hwrites | lia]].
  all: eapply (inv_untrack gid _ w1); [exact Hinv1 | simpl; by rewrite Hg | simpl | ..];
    try done; try (by eexists); simpl; lia.
Qed.

Lemma monitorExecution_inv env gid w w' :
  tracking_inv w →
  monitorExecution env gid w = Done tt w' →
  tracking_inv w' ∧ writes_only gid w w'.
Proof.
  intros Hinv. unfold monitorExecution, bind at 1, gets at 1.
  destruct (deadlines w !! gid) as [[| |]|] eqn:Hd;
    try (intros [= <-]; split; [done | apply writes_only_refl]).
  unfold bind at 1, modify at 1, handleTimeout, bind at 1, log at 1, modify at 1.
  unfold bind at 1, GetState at 1. simpl.
  set (w1 := with_logs _ (with_deadlines _ w)).
  assert (Hinv1 : tracking_inv w1).
  { eapply inv_weaken; [exact Hinv | reflexivity | done | | simpl; lia].
    intros k. simpl. destruct (decide (k = gid)) as [->|Hne].
    - by rewrite lookup_insert_eq.
    - by rewrite lookup_insert_ne. }
  assert (Hw1 : writes_only gid w w1) by (split; simpl; [done | lia]).
  destruct (if get_ok env gid then store w !! gid else None) as [st|] eqn:Hget.
  2:{ munfold. intros [= <-]. split; [|split; simpl; [done | lia]].
      eapply inv_weaken; [exact Hinv1 | done..]. }
  assert (Hst : store w1 !! gid = Some st) by (destruct (get_ok env gid); done).
  destruct (handling_of_record w1 gid st Hinv1 Hst) as (Hh & Hg & Hsound).
  intros Hrun.
  destruct (completeGraph_handling env gid (Status st) st ExecutionStatusFailed _ _ _
              Hg eq_refl Hsound Hrun Hh) as [[? _] ?].
  split; [done | by eapply writes_only_trans].
Qed.

Lemma Shutdown_inv w r w' :
  tracking_inv w → Shutdown w = Done r w' →
  tracking_inv w' ∧ store w' = store w ∧ uuids w' = uuids w.
Proof.
  intros Hinv. munfold. simpl. intros [= <- <-]. simpl. split; [|done].
  eapply inv_weaken; [exact Hinv | done..| |simpl; lia].
  intros k. simpl. rewrite map_lookup_imap.
  destruct (deadlines w !! k) as [c|] eqn:Hc; simpl; [|done].
  destruct (decide (is_Some (executions w !! k))); [|done].
  intros [= Hx]. by apply cancel_ctx_not_active in Hx.
Qed.

Lemma GetStatus_world env gid w r w' :
  GetStatus env gid w = Done r w' → w' = w.
Proof.
  munfold. simpl. destruct (if get_ok env gid then store w !! gid else None);
    by intros [= <- <-].
Qed.

(** Each operation keeps the invariant, writes no record but its target's
    and never gives an identifier back. *)
Lemma run_op_inv env fuel op w w' :
  tracking_inv w →
  run_op env fuel op w = Done tt w' →
  tracking_inv w' ∧ writes_only (op_target w op) w w'.
Proof.
  intros Hinv. destruct op as [g inputs|event|gid|gid|gid|]; cbn [run_op op_target];
    try unfold bind at 1.
  - destruct (SubmitGraph env fuel g inputs w) as [r w1| |] eqn:Hrun; try done.
    intros [= <-]. by destruct (SubmitGraph_inv _ _ _ _ _ _ _ Hinv Hrun) as (? & ? & _).
  - destruct (handleNodeCompleted env fuel event w) as [r w1| |] eqn:Hrun; try done.
    intros [= <-]. by eapply handleNodeCompleted_inv.
  - destruct (CancelExecution env gid w) as [r w1| |] eqn:Hrun; try done.
    intros [= <-]. by eapply CancelExecution_inv.
  - intros Hrun. by eapply monitorExecution_inv.
  - destruct (GetStatus env gid w) as [r w1| |] eqn:Hrun; try done.
    intros [= <-]. apply GetStatus_world in Hrun as ->.
    split; [done | apply writes_only_refl].
  - destruct (Shutdown w) as [r w1| |] eqn:Hrun; try done.
    intros [= <-]. destruct (Shutdown_inv _ _ _ Hinv Hrun) as (? & Hs & Hu).
    split; [done|]. split; [by rewrite Hs | lia].
Qed.

Lemma steps_inv env w w' :
  steps env w w' → tracking_inv w → tracking_inv w' ∧ uuids w ≤ uuids w'.
Proof.
  induction 1 as [w|w1 w2 w3 fuel op _ IH Hrun]; intros Hinv; [split; [done | lia]|].
  destruct (IH Hinv) as [Hinv2 Hu].
  destruct (run_op_inv _ _ _ _ _ Hinv2 Hrun) as [? [_ ?]]. split; [done | lia].
Qed.

Lemma reachable_inv env w : reachable env w → tracking_inv w.
Proof. intros H. by destruct (steps_inv _ _ _ H tracking_inv_init). Qed.

(** * The claims *)

(** C7. A graph violating one of the admission invariants I1 to I5 (no
    nodes, empty id or version, an edge endpoint that is not a node, a node
    with the empty id, a given entry node that is not a node) is refused by
    [SubmitGraph] with a validation error, and nothing is written: the
    store, the tracker, the deadline contexts and the bus are as before and
    no identifier is minted; only the failed-submission counter moves. *)
Theorem submit_rejects_invalid_graph env fuel g inputs w :
  violates_admission g →
  ∃ err w',
    SubmitGraph env fuel g inputs w = Done ("", Some (ErrValidationFailed err)) w'
    ∧ store w' = store w
    ∧ executions w' = executions w
    ∧ deadlines w' = deadlines w
    ∧ bus w' = bus w
    ∧ uuids w' = uuids w
    ∧ metrics w' = metrics w ++ [RecordGraphSubmitted ExecutionStatusFailed].
Proof.
  intros Hbad. destruct (Validate g) as [err|] eqn:Hv.
  - exists err. eexists. split; [by apply SubmitGraph_rejected|]. done.
  - apply Validate_None_iff in Hv. by apply violates_not_admissible in Hbad.
Qed.

Lemma submit_rejects_invalid_graph_witness :
  violates_admission g_dangling
  ∧ ∃ err w',
      SubmitGraph env_ok 1 g_dangling ∅ init_world
        = Done ("", Some (ErrValidationFailed err)) w'
      ∧ store w' = store init_world
      ∧ executions w' = executions init_world
      ∧ deadlines w' = deadlines init_world
      ∧ bus w' = bus init_world
      ∧ uuids w' = uuids init_world
      ∧ metrics w' = metrics init_world ++ [RecordGraphSubmitted ExecutionStatusFailed].
Proof.
  assert (Hbad : violates_admission g_dangling).
  { right. right. right. left. exists (mkEdge "a" "b").
    split; [apply list_elem_of_here | right; reflexivity]. }
  split; [exact Hbad|].
  exact (submit_rejects_invalid_graph env_ok 1 g_dangling ∅ init_world Hbad).
Defined.

(** Scenario 6: the dangling edge is what the validator reports. *)
Example dangling_edge_reported : Validate g_dangling = Some (ErrEdgeTarget "b").
Proof. reflexivity. Qed.

(** C10. A graph that is admissible and names no entry node passes
    validation; [SubmitGraph] (given a store and a bus that take the record
    and the announcement) returns the minted id; the dispatch of the empty
    node id fails with "node not found", which is only logged, so no work
    envelope reaches the bus; the record stays Running with every node
    Pending and the deadline armed, and when the deadline elapses the
    record is failed with "execution timeout". *)
Theorem submit_without_entry_node env fuel g inputs w :
  admissible g →
  EntryNode g = "" →
  store_reliable env →
  publish_ok env TopicGraphEvents (submitted_event w g) = true →
  let gid := uuid_of (uuids w) in
  let st0 := initial_state gid g inputs (clock w) in
  Validate g = None
  ∧ publishNodeWork env (S fuel) gid "" st0 (tracked_world w g inputs)
      = Done (Some (ErrNodeNotFound "")) (tracked_world w g inputs)
  ∧ ∃ w', SubmitGraph env (S fuel) g inputs w = Done (gid, None) w'
      ∧ bus w' = bus w ++ [(TopicGraphEvents, submitted_event w g)]
      ∧ last (logs w') = Some {| LogLevel := LError;
                                 LogMsg := "failed to publish entry node work";
                                 LogGraph := gid |}
      ∧ store w' !! gid = Some st0
      ∧ Status st0 = ExecutionStatusRunning
      ∧ (∀ k ns, NodeStates st0 !! k = Some ns → NStatus ns = ExecutionStatusPending)
      ∧ deadlines w' !! gid = Some CtxActive
      ∧ ∃ w'' st', monitorExecution env gid w' = Done tt w''
          ∧ store w'' !! gid = Some st'
          ∧ Status st' = ExecutionStatusFailed
          ∧ Error st' = "execution timeout".
Proof.
  intros Hadm Hentry [Hsave Hget] Hp gid st0.
  assert (Hv : Validate g = None) by by apply Validate_None_iff.
  assert (Hmissing : Nodes g !! "" = None).
  { destruct (Nodes g !! "") as [n|] eqn:Hn; [|done].
    destruct Hadm as (_ & _ & _ & _ & Hnodes & _). by destruct (Hnodes _ _ Hn). }
  assert (Hwork : publishNodeWork env (S fuel) gid "" st0 (tracked_world w g inputs)
                  = Done (Some (ErrNodeNotFound "")) (tracked_world w g inputs)).
  { simpl. unfold GetNode. simpl. by rewrite Hmissing. }
  split; [done|]. split; [done|].
  rewrite (SubmitGraph_accepted _ _ _ _ _ Hv (Hsave _) Hp), Hentry.
  unfold bind at 1. fold gid st0. rewrite Hwork.
  eexists. split; [reflexivity|]. simpl.
  rewrite !lookup_insert_eq, last_snoc. split_and!; try done.
  { intros k ns. rewrite initial_node_states_lookup.
    destruct (Nodes g !! k); simpl; [|done]. by intros [= <-]. }
  set (w' := with_logs _ _).
  destruct (completeGraph_effect env gid st0 ExecutionStatusFailed "execution timeout"
              (with_logs (λ ls, ls ++ [{| LogLevel := LWarn;
                                          LogMsg := "graph execution timed out";
                                          LogGraph := gid |}])
                 (with_deadlines (insert gid CtxDeadlineExceeded) w')))
    as (w'' & Hrun & Hst & _).
  exists w''. eexists. split; [|split; [rewrite Hst, Hsave; apply lookup_insert_eq|done]].
  unfold monitorExecution, bind at 1, gets at 1. simpl. rewrite lookup_insert_eq.
  unfold bind at 1, modify at 1, handleTimeout, bind at 1, log at 1, modify at 1.
  unfold bind at 1, GetState at 1. simpl. rewrite Hget, lookup_insert_eq. exact Hrun.
Qed.

Lemma submit_without_entry_node_witness :
  admissible g_no_entry ∧ EntryNode g_no_entry = "" ∧ store_reliable env_ok
  ∧ ∃ w', SubmitGraph env_ok 1 g_no_entry ∅ init_world = Done (uuid_of 0, None) w'
      ∧ bus w' = [(TopicGraphEvents, submitted_event init_world g_no_entry)].
Proof.
  assert (Hadm : admissible g_no_entry) by (apply Validate_None_iff; reflexivity).
  assert (Hrel : store_reliable env_ok) by (split; intros; reflexivity).
  split; [exact Hadm|]. split; [reflexivity|]. split; [exact Hrel|].
  destruct (submit_without_entry_node env_ok 0 g_no_entry ∅ init_world
              Hadm eq_refl Hrel eq_refl) as (_ & _ & w' & Hrun & Hbus & _).
  exists w'. split; [exact Hrun | exact Hbus].
Defined.

(** C6, as stated, fails: when [SubmitGraph] returns, the entry node has
    been dispatched and its node state is Running, not Pending. *)
Lemma submit_leaves_entry_node_running :
  Validate g_single = None
  ∧ SubmitGraph env_ok 1 g_single ∅ init_world = Done (uuid_of 0, None) w_submitted
  ∧ (store w_submitted !! uuid_of 0 ≫= λ st, NStatus <$> NodeStates st !! "a")
    = Some ExecutionStatusRunning
  ∧ ExecutionStatusRunning ≠ ExecutionStatusPending.
Proof. split_and!; [reflexivity | reflexivity | reflexivity | discriminate]. Qed.

(** C6, amended. For a graph the validator accepts, with a store that
    takes every save and a bus that takes the announcement, and a dispatch
    of the entry node that comes to rest after the route [p] landing at
    [l]: [SubmitGraph] returns the identifier it minted, under which no
    record existed and which no earlier submission of the history returned;
    the record stored under it embeds the submitted graph and inputs, has
    [submitted_at] set, and has a node state for exactly the nodes of the
    graph; the nodes on the route are Running with [started_at] set, every
    other node is Pending; the record's status is Running, unless the route
    landed on an end node, in which case it is already Completed. *)
Theorem submit_persists_record env fuel g inputs w p l :
  reachable env w →
  Validate g = None →
  (∀ s, save_ok env s = true) →
  publish_ok env TopicGraphEvents (submitted_event w g) = true →
  dispatch_route fuel g (EntryNode g) = Some (p, l) →
  let gid := uuid_of (uuids w) in
  ∃ w' st,
    SubmitGraph env fuel g inputs w = Done (gid, None) w'
    ∧ store w !! gid = None
    ∧ (∀ w0 fuel0 g0 inputs0 gid0 w0',
         reachable env w0 →
         SubmitGraph env fuel0 g0 inputs0 w0 = Done (gid0, None) w0' →
         steps env w0' w → gid0 ≠ gid)
    ∧ store w' !! gid = Some st
    ∧ GraphID st = gid ∧ SGraph st = g ∧ Inputs st = inputs
    ∧ SubmittedAt st = clock w
    ∧ Status st = match l with
                  | LandEnd => ExecutionStatusCompleted
                  | _ => ExecutionStatusRunning
                  end
    ∧ (∀ k, is_Some (NodeStates st !! k) ↔ is_Some (Nodes g !! k))
    ∧ (∀ k, k ∈ p → ∃ ns, NodeStates st !! k = Some ns
                          ∧ NStatus ns = ExecutionStatusRunning
                          ∧ is_Some (NStartedAt ns))
    ∧ (∀ k, k ∉ p → is_Some (Nodes g !! k) →
            NodeStates st !! k = Some (pending_node k)).
Proof.
  intros Hreach Hv Hs Hp Hroute gid.
  destruct (SubmitGraph_route env fuel g inputs w p l Hv Hs Hp Hroute)
    as (w' & Hrun & Hst & _).
  set (st0 := initial_state gid g inputs (clock w)) in *.
  set (t := S (S (S (clock w)))) in *.
  assert (Hinv := reachable_inv _ _ Hreach).
  exists w', (route_final p l t st0). split; [exact Hrun|].
  assert (Hns : NodeStates (route_final p l t st0) = NodeStates (mark_running p t st0))
    by by destruct l.
  destruct (mark_running_fields p t st0) as (Hf1 & Hf2 & Hf3 & Hf4 & Hf5 & _).
  assert (Hdom : ∀ k, is_Some (NodeStates st0 !! k) ↔ is_Some (Nodes g !! k)).
  { intros k. simpl. rewrite initial_node_states_lookup.
    destruct (Nodes g !! k); simpl; split; intros [? ?]; eauto; done. }
  split_and!.
  - destruct (store w !! gid) eqn:Hold; [|done]. exfalso.
    destruct (inv_minted w Hinv gid) as (n & Hn & Heq); [eauto|].
    apply uuid_of_inj in Heq. lia.
  - intros w0 fuel0 g0 inputs0 gid0 w0' Hreach0 Hrun0 Hsteps Heq.
    destruct (SubmitGraph_inv _ _ _ _ _ _ _ (reachable_inv _ _ Hreach0) Hrun0)
      as (Hinv0' & _ & Hid).
    destruct (Hid eq_refl) as [Hgid0 Hlt]. simpl in Hgid0.
    destruct (steps_inv _ _ _ Hsteps Hinv0') as [_ Hle].
    rewrite Hgid0 in Heq. apply uuid_of_inj in Heq. lia.
  - rewrite Hst. apply lookup_insert_eq.
  - by destruct l.
  - by destruct l.
  - by destruct l.
  - by destruct l.
  - destruct l; simpl; done.
  - intros k. rewrite Hns, mark_running_dom. apply Hdom.
  - intros k Hk. rewrite Hns. apply mark_running_in; [|done].
    intros k' Hk'. apply Hdom. by eapply dispatch_route_nodes.
  - intros k Hk [n Hn]. rewrite Hns, mark_running_other; [|done].
    simpl. by rewrite initial_node_states_lookup, Hn.
Qed.

Lemma submit_persists_record_witness :
  reachable env_ok init_world
  ∧ Validate g_linear = None
  ∧ dispatch_route 2 g_linear (EntryNode g_linear)
    = Some (["A"; "B"], LandWork TopicExecutorWork (mkNode NodeTypeExecutor))
  ∧ ∃ w' st,
      SubmitGraph env_ok 2 g_linear ∅ init_world = Done (uuid_of 0, None) w'
      ∧ store w' !! uuid_of 0 = Some st
      ∧ Status st = ExecutionStatusRunning
      ∧ NodeStates st !! "C" = Some (pending_node "C").
Proof.
  assert (Hreach : reachable env_ok init_world) by apply steps_refl.
  split; [exact Hreach|]. split; [reflexivity|]. split; [reflexivity|].
  destruct (submit_persists_record env_ok 2 g_linear ∅ init_world
              ["A"; "B"] (LandWork TopicExecutorWork (mkNode NodeTypeExecutor))
              Hreach eq_refl (λ _, eq_refl) eq_refl eq_refl)
    as (w' & st & Hrun & _ & _ & Hst & _ & _ & _ & _ & Hstatus & _ & _ & Hpending).
  exists w', st. split; [exact Hrun|]. split; [exact Hst|]. split; [exact Hstatus|].
  apply Hpending.
  - intros Hin. repeat (apply elem_of_cons in Hin as [Hin|Hin]; [discriminate|]).
    by apply elem_of_nil in Hin.
  - exists (mkNode NodeTypeEnd). reflexivity.
Defined.

(** C3, as stated, fails: when the bus refuses the GraphSubmitted event,
    [SubmitGraph] returns the bus error and no execution id, although the
    graph is valid and the record was saved. *)
Lemma submit_fails_when_announcement_fails :
  Validate g_single = None
  ∧ ∃ w', SubmitGraph env_events_down 1 g_single ∅ init_world
          = Done ("", Some ErrPublish) w'
      ∧ (Status <$> store w' !! uuid_of 0) = Some ExecutionStatusRunning.
Proof.
  split; [reflexivity|]. eexists. split; [vm_compute; reflexivity|]. reflexivity.
Qed.

(** C3, amended. For a graph the validator accepts and a store that takes
    every save:
    - if the bus refuses the GraphSubmitted event, [SubmitGraph] logs the
      failure and returns the bus error without an execution id; the record
      it saved stays in the store, Running, with no tracker entry and no
      deadline context;
    - if the announcement is accepted and the dispatch of the entry node
      comes to rest, [SubmitGraph] returns the minted id whatever the bus
      does with the later publications (the work envelope, the NodeStarted
      and GraphCompleted notices); a refused work envelope is logged as
      "failed to publish entry node work"; and unless the dispatch reached
      an end node the record stays Running, tracked, with its deadline
      armed. *)
Theorem submit_publish_failures env fuel g inputs w :
  Validate g = None →
  (∀ s, save_ok env s = true) →
  let gid := uuid_of (uuids w) in
  (publish_ok env TopicGraphEvents (submitted_event w g) = false →
   ∃ w', SubmitGraph env fuel g inputs w = Done ("", Some ErrPublish) w'
     ∧ last (logs w') = Some {| LogLevel := LError;
                                LogMsg := "failed to publish graph event";
                                LogGraph := gid |}
     ∧ store w' !! gid = Some (initial_state gid g inputs (clock w))
     ∧ Status (initial_state gid g inputs (clock w)) = ExecutionStatusRunning
     ∧ executions w' = executions w
     ∧ deadlines w' = deadlines w)
  ∧ (publish_ok env TopicGraphEvents (submitted_event w g) = true →
     ∀ p l,
       dispatch_route fuel g (EntryNode g) = Some (p, l) →
       ∃ w' st, SubmitGraph env fuel g inputs w = Done (gid, None) w'
         ∧ store w' !! gid = Some st
         ∧ (l ≠ LandEnd →
            Status st = ExecutionStatusRunning
            ∧ is_Some (executions w' !! gid)
            ∧ deadlines w' !! gid = Some CtxActive)
         ∧ (∀ topic node,
              l = LandWork topic node →
              (∀ e, EvType e = EventTypeNodeWork → publish_ok env topic e = false) →
              last (logs w') = Some {| LogLevel := LError;
                                       LogMsg := "failed to publish entry node work";
                                       LogGraph := gid |})).
Proof.
  intros Hv Hs gid. split.
  - intros Hp. rewrite (SubmitGraph_unannounced _ _ _ _ _ Hv (Hs _) Hp).
    eexists. split; [reflexivity|]. simpl.
    rewrite last_snoc, lookup_insert_eq. done.
  - intros Hp p l Hroute.
    destruct (SubmitGraph_route env fuel g inputs w p l Hv Hs Hp Hroute)
      as (w' & Hrun & Hst & Htrack & Hlog).
    exists w'. eexists. split; [exact Hrun|].
    split; [rewrite Hst; apply lookup_insert_eq|]. split; [|exact Hlog].
    intros Hl. destruct (Htrack Hl) as [Hd Hx]. split; [|done].
    destruct (mark_running_fields p (S (S (S (clock w))))
                (initial_state gid g inputs (clock w))) as (_ & _ & Hstatus & _).
    destruct l; try done; exact Hstatus.
Qed.

Lemma submit_publish_failures_witness :
  Validate g_linear = None
  ∧ (∀ s, save_ok env_work_down s = true)
  ∧ publish_ok env_work_down TopicGraphEvents (submitted_event init_world g_linear) = true
  ∧ ∃ w' st, SubmitGraph env_work_down 2 g_linear ∅ init_world = Done (uuid_of 0, None) w'
      ∧ last (logs w') = Some {| LogLevel := LError;
                                 LogMsg := "failed to publish entry node work";
                                 LogGraph := uuid_of 0 |}
      ∧ store w' !! uuid_of 0 = Some st
      ∧ Status st = ExecutionStatusRunning
      ∧ is_Some (executions w' !! uuid_of 0)
      ∧ deadlines w' !! uuid_of 0 = Some CtxActive.
Proof.
  split; [reflexivity|]. split; [intros s; reflexivity|]. split; [reflexivity|].
  destruct (submit_publish_failures env_work_down 2 g_linear ∅ init_world
              eq_refl (λ _, eq_refl)) as [_ Hwork].
  destruct (Hwork eq_refl ["A"; "B"] (LandWork TopicExecutorWork (mkNode NodeTypeExecutor))
              eq_refl) as (w' & st & Hrun & Hst & Hkeep & Hlog).
  destruct Hkeep as (Hstatus & Hx & Hd); [discriminate|].
  exists w', st. split; [exact Hrun|].
  split; [apply (Hlog TopicExecutorWork (mkNode NodeTypeExecutor) eq_refl);
          intros e _; reflexivity|].
  split; [exact Hst|]. split; [exact Hstatus|]. split; [exact Hx | exact Hd].
Defined.

(** ** One step of a dispatch *)

Lemma publishNodeWork_step env fuel gid n st w node ns :
  GetNode (SGraph st) n = Some node →
  NodeStates st !! n = Some ns →
  let st1 := set_node_state n (set_node_running (clock w) ns) st in
  save_ok env st1 = true →
  publishNodeWork env (S fuel) gid n st w
  = match GetType node with
    | NodeTypeExecutor => publish_work env TopicExecutorWork gid n node st1
    | NodeTypeRouter => publish_work env TopicRouterWork gid n node st1
    | NodeTypeEnd => completeGraph env gid st1 ExecutionStatusCompleted "" ;;; ret None
    | NodeTypeStart =>
        if decide (findNextNode (SGraph st) n = "") then ret None
        else publishNodeWork env fuel gid (findNextNode (SGraph st) n) st1
    end (with_store (insert (GraphID st) st1) (with_clock S w)).
Proof.
  intros Hnode Hns st1 Hsave. cbn [publishNodeWork]. rewrite Hnode, Hns.
  unfold bind at 1, time_Now at 1, bind at 1, SaveState at 1. fold st1. rewrite Hsave.
  reflexivity.
Qed.



(** C9. When a dispatch reaches an end node (whose node state has no
    [completed_at] yet) and the store takes the saves, the record is saved
    as Completed with [completed_at] set while the end node's own state is
    left Running: [started_at] set, [completed_at] still unset. *)
Theorem end_node_left_running env fuel gid n st w node ns :
  (∀ s, save_ok env s = true) →
  GetNode (SGraph st) n = Some node →
  GetType node = NodeTypeEnd →
  NodeStates st !! n = Some ns →
  NCompletedAt ns = None →
  ∃ w' st' ns',
    publishNodeWork env (S fuel) gid n st w = Done None w'
    ∧ store w' !! GraphID st = Some st'
    ∧ Status st' = ExecutionStatusCompleted
    ∧ CompletedAt st' = Some (S (clock w))
    ∧ NodeStates st' !! n = Some ns'
    ∧ NStatus ns' = ExecutionStatusRunning
    ∧ NStartedAt ns' = Some (clock w)
    ∧ NCompletedAt ns' = None.
Proof.
  intros Hsave Hnode Hty Hns Hnc.
  set (st1 := set_node_state n (set_node_running (clock w) ns) st).
  set (w1 := with_store (insert (GraphID st) st1) (with_clock S w)).
  destruct (completeGraph_effect env gid st1 ExecutionStatusCompleted "" w1)
    as (w' & Hrun & Hst & _).
  exists w', (set_final ExecutionStatusCompleted (S (clock w)) "" st1),
    (set_node_running (clock w) ns).
  rewrite (publishNodeWork_step env fuel gid n st w node ns Hnode Hns (Hsave _)), Hty.
  fold st1 w1. unfold bind. rewrite Hrun. split; [reflexivity|].
  rewrite Hst, Hsave. simpl. rewrite !lookup_insert_eq. by split_and!.
Qed.

Lemma end_node_left_running_witness :
  let st := initial_state (uuid_of 0) g_end ∅ 0 in
  (∀ s, save_ok env_ok s = true)
  ∧ GetNode (SGraph st) "z" = Some (mkNode NodeTypeEnd)
  ∧ NodeStates st !! "z" = Some (pending_node "z")
  ∧ ∃ w' st' ns',
      publishNodeWork env_ok 1 (uuid_of 0) "z" st init_world = Done None w'
      ∧ store w' !! uuid_of 0 = Some st'
      ∧ Status st' = ExecutionStatusCompleted
      ∧ CompletedAt st' = Some 1
      ∧ NodeStates st' !! "z" = Some ns'
      ∧ NStatus ns' = ExecutionStatusRunning
      ∧ NStartedAt ns' = Some 0
      ∧ NCompletedAt ns' = None.
Proof.
  intros st. split; [intros s; reflexivity|]. split; [reflexivity|]. split; [reflexivity|].
  exact (end_node_left_running env_ok 0 (uuid_of 0) "z" st init_world
           (mkNode NodeTypeEnd) (pending_node "z") (λ _, eq_refl)
           eq_refl eq_refl eq_refl eq_refl).
Defined.

(** ** Successor selection *)






Lemma w_router_record : store w_router !! uuid_of 0 = Some st_router.
Proof. vm_compute. reflexivity. Qed.

Lemma w_submitted_reachable : reachable env_ok w_submitted.
Proof.
  apply (steps_op env_ok init_world init_world w_submitted 1 (OpSubmit g_single ∅)).
  - apply steps_refl.
  - vm_compute. reflexivity.
Qed.




(** Scenario 2, run: the router's answer sends the work to Y, not to X. *)
Example router_override_dispatches_Y :
  match handleNodeCompleted env_ok 1
          (completion (uuid_of 0) "R" {[ "next_node" := AValue (VString "Y") ]}) w_router with
  | Done _ w' =>
      (λ te, (te.1, Data te.2 !! "node_id"))
        <$> filter (λ te, EvType te.2 = EventTypeNodeWork) (bus w')
  | _ => []
  end = [(TopicRouterWork, Some (AValue (VString "R")));
         (TopicExecutorWork, Some (AValue (VString "Y")))].
Proof. vm_compute. reflexivity. Qed.







(** ** Terminal records *)

Lemma cancel_untracked env gid w :
  executions w !! gid = None →
  CancelExecution env gid w = Done (Some (ErrExecutionNotFound gid)) w.
Proof. intros Hx. unfold CancelExecution, bind, gets. by rewrite Hx. Qed.


Lemma terminal_untracked w gid st :
  tracking_inv w → store w !! gid = Some st → is_terminal (Status st) = true →
  executions w !! gid = None ∧ deadlines w !! gid ≠ Some CtxActive.
Proof.
  intros Hinv Hst Hterm.
  assert (Hx : executions w !! gid = None) by by eapply (inv_terminal_untracked w Hinv).
  split; [done|]. intros Hd. destruct (inv_active_tracked w Hinv _ Hd). congruence.
Qed.

Lemma w_completed_reachable : reachable env_ok w_completed.
Proof.
  apply (steps_op env_ok init_world w_submitted w_completed 1
           (OpNodeCompleted
              (completion (uuid_of 0) "a" {[ "output" := AValue (VString "hi") ]}))).
  - apply (steps_op env_ok init_world init_world w_submitted 1 (OpSubmit g_single ∅)).
    + apply steps_refl.
    + vm_compute. reflexivity.
  - vm_compute. reflexivity.
Qed.

Lemma w_completed_record : store w_completed !! uuid_of 0 = Some st_completed.
Proof. vm_compute. reflexivity. Qed.





(** C2, on the code. For every execution whose record is terminal, in every
    world the manager can reach, [CancelExecution] changes nothing, as the
    claim says, but the error it returns is "execution not found", not
    "already in terminal state": the terminal transition removed the
    tracker entry, and the tracker is all [CancelExecution] consults. *)
Theorem cancel_terminal_reports_not_found env w gid st :
  reachable env w →
  store w !! gid = Some st →
  is_terminal (Status st) = true →
  executions w !! gid = None
  ∧ CancelExecution env gid w = Done (Some (ErrExecutionNotFound gid)) w.
Proof.
  intros Hreach Hst Hterm.
  destruct (terminal_untracked w gid st (reachable_inv _ _ Hreach) Hst Hterm) as [Hx _].
  split; [done | by apply cancel_untracked].
Qed.

Lemma cancel_terminal_reports_not_found_witness :
  reachable env_ok w_completed
  ∧ store w_completed !! uuid_of 0 = Some st_completed
  ∧ Status st_completed = ExecutionStatusCompleted
  ∧ CancelExecution env_ok (uuid_of 0) w_completed
    = Done (Some (ErrExecutionNotFound (uuid_of 0))) w_completed.
Proof.
  split; [apply w_completed_reachable|]. split; [apply w_completed_record|].
  split; [reflexivity|].
  destruct (cancel_terminal_reports_not_found env_ok w_completed (uuid_of 0) st_completed
              w_completed_reachable w_completed_record eq_refl) as [_ Hcancel].
  exact Hcancel.
Defined.

(** ** The scenarios of the specification, run *)

(** Scenario 1: A(start) → B(executor) → C(end).  After the submission B is
    the only node with a work envelope; after B's completion the record is
    Completed, B holds its output, and C, the end node, is still Running. *)
Example linear_graph_runs :
  match run_ops env_ok
          [OpSubmit g_linear ∅;
           OpNodeCompleted (completion (uuid_of 0) "B"
                              {[ "output" := AValue (VString "hi") ]})] init_world with
  | Some w =>
      (status_of w (uuid_of 0),
       node_status_of w (uuid_of 0) <$> ["A"; "B"; "C"],
       (λ te, (te.1, Data te.2 !! "node_id"))
         <$> filter (λ te, EvType te.2 = EventTypeNodeWork) (bus w))
  | None => (None, [], [])
  end
  = (Some ExecutionStatusCompleted,
     [Some ExecutionStatusRunning; Some ExecutionStatusCompleted; Some ExecutionStatusRunning],
     [(TopicExecutorWork, Some (AValue (VString "B")))]).
Proof. vm_compute. reflexivity. Qed.

(** Scenario 4 does not go as the specification expects: after Submit and
    Cancel the record is Cancelled, but a late completion of the entry node
    is handled like any other and leaves the record Completed. *)
Example late_completion_after_cancel :
  (run_ops env_ok [OpSubmit g_single ∅; OpCancel (uuid_of 0)] init_world
     ≫= λ w, status_of w (uuid_of 0)) = Some ExecutionStatusCancelled
  ∧ (run_ops env_ok
       [OpSubmit g_single ∅; OpCancel (uuid_of 0);
        OpNodeCompleted (completion (uuid_of 0) "a" ∅)] init_world
       ≫= λ w, status_of w (uuid_of 0)) = Some ExecutionStatusCompleted.
Proof. split; vm_compute; reflexivity. Qed.

(** Scenario 5: no completion arrives and the deadline elapses. *)
Example deadline_fails_the_record :
  (run_ops env_ok [OpSubmit g_single ∅; OpDeadline (uuid_of 0)] init_world
     ≫= λ w, store w !! uuid_of 0 ≫= λ st, Some (Status st, Error st))
  = Some (ExecutionStatusFailed, "execution timeout").
Proof. vm_compute. reflexivity. Qed.

(** ** A dispatch that never returns

    The validator accepts cycles.  Through start nodes [publishNodeWork]
    follows first edges without a bound, so on a cycle of start nodes it
    recurses for ever: whatever the fuel, the dispatch has not returned, and
    neither has the [SubmitGraph] that called it. *)

Lemma publishNodeWork_loop env fuel : ∀ gid st w,
  SGraph st = g_loop →
  is_Some (NodeStates st !! "A") →
  publishNodeWork env fuel gid "A" st w = @OutOfFuel (option ManagerError).
Proof.
  induction fuel as [|fuel IH]; intros gid st w Hg [ns Hns]; [reflexivity|].
  cbn [publishNodeWork]. unfold GetNode. rewrite Hg. cbn [Nodes g_loop].
  rewrite lookup_singleton_eq, Hns.
  unfold bind at 1, time_Now at 1, bind at 1, SaveState at 1.
  assert (Hnext : ∀ w1, publishNodeWork env fuel gid "A"
                          (set_node_state "A" (set_node_running (clock w) ns) st) w1
                        = OutOfFuel).
  { intros w1. apply IH; [exact Hg|]. simpl. rewrite lookup_insert_eq. eauto. }
  assert (Hedge : findNextNode (SGraph st) "A" = "A") by (rewrite Hg; reflexivity).
  destruct (save_ok env _); unfold bind, when, log, modify, ret; simpl;
    rewrite Hedge; apply Hnext.
Qed.

Lemma start_cycle_never_returns :
  Validate g_loop = None
  ∧ ∀ fuel, SubmitGraph env_ok fuel g_loop ∅ init_world
            = @OutOfFuel (string * option ManagerError).
Proof.
  split; [reflexivity|]. intros fuel.
  rewrite (SubmitGraph_accepted env_ok fuel g_loop ∅ init_world eq_refl eq_refl eq_refl).
  unfold bind. rewrite publishNodeWork_loop; [reflexivity | reflexivity |].
  exists (pending_node "A"). reflexivity.
Qed.
(** * Further properties of the code *)

(** ** The validator *)

Lemma validateNodes_no_duplicate l : ∀ ids,
  NoDup l.*1 → (∀ k, k ∈ l.*1 → k ∉ ids) →
  is_duplicate_error (validateNodes l ids) = false.
Proof.
  induction l as [|[k n] l IH]; intros ids Hnd Hfresh; simpl; [done|].
  destruct (validateNode k n); [done|].
  destruct (decide (k ∈ ids)) as [Hin|Hin].
  { exfalso. apply (Hfresh k); [set_solver | done]. }
  inversion Hnd; subst. apply IH; [done|].
  intros k' Hk'. apply not_elem_of_union. split.
  - apply not_elem_of_singleton. intros ->. done.
  - apply Hfresh. set_solver.
Qed.

(** X1. The "duplicate node ID" error of [Validate] is dead code: the loop
    ranges over the keys of a map, which are distinct, so the [nodeIDs] set
    never already holds the key at hand.  Whatever the graph, the verdict
    is never that error. *)
Theorem validator_never_reports_duplicate g :
  is_duplicate_error (Validate g) = false.
Proof.
  unfold Validate.
  destruct (decide (ID g = "")); [done|].
  destruct (decide (Version g = "")); [done|].
  destruct (decide (size (Nodes g) = 0)); [done|].
  pose proof (validateNodes_no_duplicate (map_to_list (Nodes g)) ∅
                (NoDup_fst_map_to_list _)) as Hdup.
  destruct (validateNodes (map_to_list (Nodes g)) ∅) as [err|] eqn:Hn.
  { apply Hdup. set_solver. }
  destruct (decide (EntryNode g = "")).
  - clear. induction (Edges g) as [|e l IH]; simpl; [done|].
    destruct (Nodes g !! EdgeFrom e); [|done]. by destruct (Nodes g !! EdgeTo e).
  - destruct (Nodes g !! EntryNode g); [|done].
    clear. induction (Edges g) as [|e l IH]; simpl; [done|].
    destruct (Nodes g !! EdgeFrom e); [|done]. by destruct (Nodes g !! EdgeTo e).
Qed.

(** X2. [Validate] accepts a graph exactly when its id and version are
    non-empty, it has at least one node, no node is keyed by the empty
    string, every node passes its own Validate hook, the entry node is
    either not given or a node of the graph, and both ends of every edge
    are nodes of the graph.  Nothing else is examined: not the node types,
    not reachability, not cycles, not the presence of an end node. *)
Theorem validator_accepts_exactly g :
  Validate g = None ↔
    ID g ≠ "" ∧ Version g ≠ "" ∧ size (Nodes g) ≠ 0
    ∧ (∀ k n, Nodes g !! k = Some n → k ≠ "" ∧ NodeValidate n = None)
    ∧ (EntryNode g = "" ∨ is_Some (Nodes g !! EntryNode g))
    ∧ (∀ e, e ∈ Edges g → is_Some (Nodes g !! EdgeFrom e) ∧ is_Some (Nodes g !! EdgeTo e)).
Proof.
  rewrite Validate_None_iff. unfold admissible. rewrite Forall_forall.
  split.
  - intros (Hn & Hid & Hv & He & Hk & Hent). split_and!; try done.
    + intros Hs. by apply map_size_empty_iff in Hs.
    + destruct (decide (EntryNode g = "")); [by left | right; by apply Hent].
  - intros (Hid & Hv & Hs & Hk & Hent & He). split_and!; try done.
    + intros Hn. apply Hs. by apply map_size_empty_iff.
    + intros Hne. by destruct Hent.
Qed.

Lemma validateEdges_app nodes pre l :
  validateEdges nodes pre = None →
  validateEdges nodes (pre ++ l) = validateEdges nodes l.
Proof.
  induction pre as [|e pre IH]; simpl; [done|].
  destruct (nodes !! EdgeFrom e); [|done]. destruct (nodes !! EdgeTo e); [|done]. exact IH.
Qed.

(** X3. Edges are checked in [edges] order, the source of an edge before
    its target, and after everything else: if the graph with only the edges
    that precede [e] is accepted and [e] has an end that is not a node, then
    [Validate] reports [e], naming its source when the source is missing and
    its target otherwise, whatever edges follow. *)
Theorem validator_reports_first_dangling_edge g pre e post :
  Edges g = pre ++ e :: post →
  Validate (with_edges pre g) = None →
  Nodes g !! EdgeFrom e = None ∨ Nodes g !! EdgeTo e = None →
  Validate g = Some (match Nodes g !! EdgeFrom e with
                     | None => ErrEdgeSource (EdgeFrom e)
                     | Some _ => ErrEdgeTarget (EdgeTo e)
                     end).
Proof.
  intros Hedges Hpre Hbad. unfold Validate in *. simpl in Hpre.
  destruct (decide (ID g = "")); [done|].
  destruct (decide (Version g = "")); [done|].
  destruct (decide (size (Nodes g) = 0)); [done|].
  destruct (validateNodes (map_to_list (Nodes g)) ∅); [done|].
  assert (Htail : validateEdges (Nodes g) (Edges g)
                  = Some (match Nodes g !! EdgeFrom e with
                          | None => ErrEdgeSource (EdgeFrom e)
                          | Some _ => ErrEdgeTarget (EdgeTo e)
                          end)).
  { assert (Hp : validateEdges (Nodes g) pre = None).
    { destruct (decide (EntryNode g = "")); [done|].
      by destruct (Nodes g !! EntryNode g). }
    rewrite Hedges, (validateEdges_app _ _ _ Hp). simpl.
    destruct (Nodes g !! EdgeFrom e); [|done].
    destruct Hbad as [?|Ht]; [done|]. by rewrite Ht. }
  destruct (decide (EntryNode g = "")); [exact Htail|].
  destruct (Nodes g !! EntryNode g); [exact Htail | done].
Qed.

Lemma validator_reports_first_dangling_edge_witness :
  Edges g_dangling = [] ++ mkEdge "a" "b" :: []
  ∧ Validate (with_edges [] g_dangling) = None
  ∧ Validate g_dangling = Some (ErrEdgeTarget "b").
Proof.
  split; [reflexivity|]. split; [reflexivity|].
  apply (validator_reports_first_dangling_edge g_dangling [] (mkEdge "a" "b") []);
    [reflexivity | reflexivity | right; reflexivity].
Defined.

(** ** Invariants of the store and of the tracker *)

Lemma grows_refl w : grows w w.
Proof. by split. Qed.

Lemma grows_trans w1 w2 w3 : grows w1 w2 → grows w2 w3 → grows w1 w3.
Proof. intros [H1 H2] [H3 H4]. split; eauto. Qed.

Lemma grows_frame w w' :
  store w' = store w → executions w' = executions w → grows w w'.
Proof. intros Hs He. split; intros k; rewrite ?Hs, ?He; done. Qed.

Section StoreInvariant.

Variable P : GraphState → Prop.
Hypothesis P_initial : ∀ gid g inputs t,
  Validate g = None → P (initial_state gid g inputs t).
Hypothesis P_node : ∀ n ns ns' st,
  NodeStates st !! n = Some ns → NodeID ns' = NodeID ns →
  NStatus ns' ∈ [ExecutionStatusRunning; ExecutionStatusCompleted; ExecutionStatusFailed] →
  P st → P (set_node_state n ns' st).
Hypothesis P_final : ∀ s t msg st,
  is_terminal s = true → P st → P (set_final s t msg st).

Lemma keeps_refl w : keeps P w w.
Proof. split; [apply grows_refl | done]. Qed.

Lemma keeps_trans w1 w2 w3 : keeps P w1 w2 → keeps P w2 w3 → keeps P w1 w3.
Proof. intros [H1 H2] [H3 H4]. split; [by eapply grows_trans | auto]. Qed.

Lemma keeps_frame w w' :
  store w' = store w → executions w' = executions w → keeps P w w'.
Proof.
  intros Hs He. split; [by apply grows_frame|]. intros H k st. rewrite Hs. apply H.
Qed.

Lemma keeps_insert w w' st :
  P st → store w' = <[GraphID st := st]> (store w) →
  (∀ k x, executions w' !! k = Some x → executions w !! k = Some x) →
  keeps P w w'.
Proof.
  intros HP Hs He. split; [split; [|exact He]|].
  - intros k Hk. rewrite Hs. destruct (decide (GraphID st = k)) as [<-|Hne].
    + rewrite lookup_insert_eq. eauto.
    + by rewrite lookup_insert_ne.
  - intros H k st'. rewrite Hs. destruct (decide (GraphID st = k)) as [<-|Hne].
    + rewrite lookup_insert_eq. by intros [= <-].
    + rewrite lookup_insert_ne; [|done]. apply H.
Qed.

Lemma SaveState_keeps env st w b w' :
  P st → SaveState env st w = Done b w' → keeps P w w'.
Proof.
  intros HP. unfold SaveState. destruct (save_ok env st); intros [= <- <-].
  - by apply (keeps_insert _ _ st).
  - apply keeps_refl.
Qed.

Lemma completeGraph_keeps env gid st s msg w w' :
  P st → is_terminal s = true →
  completeGraph env gid st s msg w = Done tt w' → keeps P w w'.
Proof.
  intros HP Hs Hrun.
  destruct (completeGraph_effect env gid st s msg w) as (w'' & Hrun' & Hst & Hex & _).
  rewrite Hrun in Hrun'. injection Hrun' as <-.
  assert (He : ∀ k x, executions w' !! k = Some x → executions w !! k = Some x).
  { intros k x. rewrite Hex. intros H. by apply lookup_delete_Some in H as [_ H]. }
  destruct (save_ok env _).
  - eapply (keeps_insert _ _ (set_final s (clock w) msg st)); [by apply P_final | done | done].
  - split; [by split; [rewrite Hst|] |]. intros H k st'. rewrite Hst. apply H.
Qed.

Lemma publish_work_keeps env topic gid nodeID node st w r w' :
  publish_work env topic gid nodeID node st w = Done r w' → keeps P w w'.
Proof.
  intros Hrun.
  destruct (publish_work_effect env topic gid nodeID node st w)
    as (r' & w'' & Hrun' & Hst & Hex & _).
  rewrite Hrun in Hrun'. injection Hrun' as <- <-. by apply keeps_frame.
Qed.

Lemma publishNodeWork_keeps env fuel : ∀ gid n st w r w',
  P st → publishNodeWork env fuel gid n st w = Done r w' → keeps P w w'.
Proof.
  induction fuel as [|fuel IH]; intros gid n st w r w' HP Hrun; [done|].
  simpl in Hrun. destruct (GetNode (SGraph st) n) as [node|].
  2:{ injection Hrun as <- <-. apply keeps_refl. }
  destruct (NodeStates st !! n) as [ns|] eqn:Hns; [|done].
  unfold bind at 1 in Hrun. unfold time_Now at 1 in Hrun.
  unfold bind at 1 in Hrun.
  set (st1 := set_node_state n (set_node_running (clock w) ns) st) in *.
  assert (HP1 : P st1).
  { apply (P_node n ns); [done | done | set_solver | done]. }
  destruct (SaveState env st1 (with_clock S w)) as [b w1| |] eqn:Hsave; try done.
  eapply keeps_trans.
  { eapply keeps_trans; [by apply (keeps_frame w (with_clock S w)) |].
    by eapply SaveState_keeps. }
  unfold bind at 1 in Hrun.
  assert (Hlog : ∃ w2, when (negb b) (log LError "failed to save state before node work" gid) w1
                       = Done tt w2 ∧ keeps P w1 w2).
  { destruct b; simpl; eexists; (split; [reflexivity|]); by apply keeps_frame. }
  destruct Hlog as (w2 & Hlog & Hstep). rewrite Hlog in Hrun.
  eapply keeps_trans; [exact Hstep|]. clear Hstep Hlog Hsave.
  destruct (GetType node).
  - simpl in Hrun. destruct (decide (findNextNode (SGraph st) n = "")).
    + injection Hrun as <- <-. apply keeps_refl.
    + by eapply (IH gid _ st1).
  - by eapply publish_work_keeps.
  - by eapply publish_work_keeps.
  - unfold bind in Hrun.
    destruct (completeGraph env gid st1 ExecutionStatusCompleted "" w2) as [[] w3| |] eqn:Hc;
      try done.
    injection Hrun as <- <-.
    eapply (completeGraph_keeps env gid st1 ExecutionStatusCompleted); [exact HP1 | reflexivity | exact Hc].
Qed.

Lemma handleNodeCompleted_keeps env fuel event w r w' :
  stores P w → handleNodeCompleted env fuel event w = Done r w' → keeps P w w'.
Proof.
  intros Hall Hrun.
  destruct (if get_ok env (ExecutionID event) then store w !! ExecutionID event else None)
    as [st|] eqn:Hget.
  2:{ rewrite (handleNodeCompleted_no_record _ _ _ _ Hget) in Hrun. injection Hrun as <- <-.
      by apply keeps_frame. }
  destruct (get_ok env (ExecutionID event)) eqn:Hok; [|done].
  destruct (NodeStates st !! ev_node event) as [ns|] eqn:Hns.
  2:{ rewrite (handleNodeCompleted_no_node _ _ _ _ _ Hok Hget Hns) in Hrun.
      injection Hrun as <- <-. by apply keeps_frame. }
  rewrite (handleNodeCompleted_known _ _ _ _ _ _ Hok Hget Hns) in Hrun.
  set (gid := ExecutionID event) in *.
  set (st1 := completed_state event (clock w) ns st) in *.
  assert (HP1 : P st1).
  { apply (P_node _ ns); [done | | | by eapply Hall].
    - by destruct (as_string (Data event !! "error")).2.
    - destruct (as_string (Data event !! "error")).2; set_solver. }
  cbv zeta in Hrun.
  eapply (keeps_trans w (received_world event w)); [by apply keeps_frame|].
  unfold bind at 1 in Hrun.
  destruct (SaveState env st1 (received_world event w)) as [b w1| |] eqn:Hsave; try done.
  eapply keeps_trans; [by eapply SaveState_keeps|].
  unfold bind at 1 in Hrun.
  assert (Hlog : ∃ w2, when (negb b)
                         (log LError "failed to save state after node completion" gid) w1
                       = Done tt w2 ∧ keeps P w1 w2).
  { destruct b; simpl; eexists; (split; [reflexivity|]); by apply keeps_frame. }
  destruct Hlog as (w2 & Hlog & Hstep). rewrite Hlog in Hrun.
  eapply keeps_trans; [exact Hstep|]. clear Hstep Hlog Hsave.
  destruct (ev_has_error event).
  { unfold bind in Hrun.
    destruct (completeGraph env gid st1 _ _ w2) as [[] w3| |] eqn:Hc; try done.
    injection Hrun as <- <-.
    eapply (completeGraph_keeps env gid st1 ExecutionStatusFailed); [exact HP1 | reflexivity | exact Hc]. }
  destruct (decide _).
  { unfold bind in Hrun.
    destruct (completeGraph env gid st1 _ _ w2) as [[] w3| |] eqn:Hc; try done.
    injection Hrun as <- <-.
    eapply (completeGraph_keeps env gid st1 ExecutionStatusCompleted); [exact HP1 | reflexivity | exact Hc]. }
  unfold dispatch_successor, bind at 1 in Hrun.
  destruct (publishNodeWork env fuel gid _ st1 w2) as [werr w3| |] eqn:Hwork; try done.
  eapply keeps_trans; [by eapply publishNodeWork_keeps|].
  destruct werr; munfold; injection Hrun as <- <-; by apply keeps_frame.
Qed.

Lemma monitorExecution_keeps env gid w w' :
  stores P w → monitorExecution env gid w = Done tt w' → keeps P w w'.
Proof.
  intros Hall. unfold monitorExecution, bind at 1, gets at 1.
  destruct (deadlines w !! gid) as [[| |]|] eqn:Hd;
    try (intros [= <-]; apply keeps_refl).
  unfold bind at 1, modify at 1, handleTimeout, bind at 1, log at 1, modify at 1.
  unfold bind at 1, GetState at 1. simpl.
  set (w1 := with_logs _ (with_deadlines _ w)).
  destruct (if get_ok env gid then store w !! gid else None) as [st|] eqn:Hget.
  2:{ munfold. intros [= <-]. by apply keeps_frame. }
  intros Hrun. eapply (keeps_trans w w1); [by apply keeps_frame|].
  eapply (completeGraph_keeps env gid st ExecutionStatusFailed); [|reflexivity|exact Hrun].
  destruct (get_ok env gid); [by eapply Hall | done].
Qed.

Lemma SubmitGraph_stores env fuel g inputs w r w' :
  stores P w → SubmitGraph env fuel g inputs w = Done r w' →
  stores P w' ∧ (∀ k, is_Some (store w !! k) → is_Some (store w' !! k)).
Proof.
  intros Hall Hrun.
  destruct (Validate g) as [err|] eqn:Hv.
  { rewrite (SubmitGraph_rejected _ _ _ _ _ _ Hv) in Hrun. injection Hrun as <- <-. done. }
  set (gid := uuid_of (uuids w)) in *.
  set (st0 := initial_state gid g inputs (clock w)).
  assert (HP0 : P st0) by by apply P_initial.
  destruct (save_ok env st0) eqn:Hs.
  2:{ rewrite (SubmitGraph_save_failed _ _ _ _ _ Hv Hs) in Hrun. injection Hrun as <- <-. done. }
  destruct (publish_ok env TopicGraphEvents (submitted_event w g)) eqn:Hp.
  2:{ rewrite (SubmitGraph_unannounced _ _ _ _ _ Hv Hs Hp) in Hrun. injection Hrun as <- <-.
      destruct (keeps_insert w (with_store (insert gid st0) w) st0 HP0 eq_refl) as [[? _] ?];
        [done|]. split; [by auto | done]. }
  rewrite (SubmitGraph_accepted _ _ _ _ _ Hv Hs Hp) in Hrun.
  fold gid in Hrun. fold st0 in Hrun.
  assert (H0 : stores P (tracked_world w g inputs)
               ∧ ∀ k, is_Some (store w !! k) → is_Some (store (tracked_world w g inputs) !! k)).
  { destruct (keeps_insert w (with_store (insert gid st0) w) st0 HP0 eq_refl) as [[? _] ?];
      [done|]. split; [by auto | done]. }
  destruct H0 as [H0 Hdom].
  unfold bind at 1 in Hrun.
  destruct (publishNodeWork env fuel gid (EntryNode g) st0 (tracked_world w g inputs))
    as [werr w1| |] eqn:Hwork; try done.
  destruct (publishNodeWork_keeps _ _ _ _ _ _ _ _ HP0 Hwork) as [[Hg _] Hk].
  destruct werr; revert Hrun; munfold; intros [= <- <-]; simpl; split; auto.
Qed.

Lemma CancelExecution_stores env gid w r w' :
  stores P w → CancelExecution env gid w = Done r w' →
  stores P w' ∧ (∀ k, is_Some (store w !! k) → is_Some (store w' !! k)).
Proof.
  intros Hall. unfold CancelExecution. munfold. simpl.
  destruct (executions w !! gid) as [execCtx|] eqn:Hx; [|by intros [= <- <-]].
  destruct (is_terminal (status execCtx)); [by intros [= <- <-]|]. simpl.
  destruct (if get_ok env gid then store w !! gid else None) as [st|] eqn:Hget;
    [|by intros [= <- <-]].
  assert (HP1 : P (set_final ExecutionStatusCancelled (clock w) "" st)).
  { apply P_final; [done|]. destruct (get_ok env gid); [by eapply Hall | done]. }
  destruct (save_ok env _); simpl; [|by intros [= <- <-]].
  destruct (keeps_insert w (with_store (insert (GraphID st)
              (set_final ExecutionStatusCancelled (clock w) "" st)) w) _ HP1 eq_refl)
    as [[? _] ?]; [done|].
  destruct (publish_ok env _ _); simpl; intros [= <- <-]; simpl; split; auto.
Qed.

Lemma run_op_stores env fuel op w w' :
  stores P w → run_op env fuel op w = Done tt w' → stores P w'.
Proof.
  intros Hall. destruct op as [g inputs|event|gid|gid|gid|]; cbn [run_op];
    try unfold bind at 1.
  - destruct (SubmitGraph env fuel g inputs w) as [r w1| |] eqn:Hrun; try done.
    intros [= <-]. by destruct (SubmitGraph_stores _ _ _ _ _ _ _ Hall Hrun).
  - destruct (handleNodeCompleted env fuel event w) as [r w1| |] eqn:Hrun; try done.
    intros [= <-]. destruct (handleNodeCompleted_keeps _ _ _ _ _ _ Hall Hrun). auto.
  - destruct (CancelExecution env gid w) as [r w1| |] eqn:Hrun; try done.
    intros [= <-]. by destruct (CancelExecution_stores _ _ _ _ _ Hall Hrun).
  - intros Hrun. destruct (monitorExecution_keeps _ _ _ _ Hall Hrun). auto.
  - destruct (GetStatus env gid w) as [r w1| |] eqn:Hrun; try done.
    intros [= <-]. by apply GetStatus_world in Hrun as ->.
  - munfold. simpl. intros [= <-]. done.
Qed.

Lemma steps_stores env w w' : steps env w w' → stores P w → stores P w'.
Proof.
  induction 1 as [w|w1 w2 w3 fuel op _ IH Hrun]; intros Hall; [done|].
  eapply run_op_stores; [|exact Hrun]. by apply IH.
Qed.

Lemma reachable_stores env w : reachable env w → stores P w.
Proof.
  intros H. eapply steps_stores; [exact H|].
  intros k st. simpl. by rewrite lookup_empty.
Qed.

End StoreInvariant.

Lemma publishNodeWork_grows env fuel gid n st w r w' :
  publishNodeWork env fuel gid n st w = Done r w' → grows w w'.
Proof.
  intros Hrun.
  eapply (publishNodeWork_keeps (λ _, True)) in Hrun; [by destruct Hrun | done..].
Qed.

Lemma handleNodeCompleted_grows env fuel event w r w' :
  handleNodeCompleted env fuel event w = Done r w' → grows w w'.
Proof.
  intros Hrun.
  eapply (handleNodeCompleted_keeps (λ _, True)) in Hrun; [by destruct Hrun | done..].
Qed.

Lemma monitorExecution_grows env gid w w' :
  monitorExecution env gid w = Done tt w' → grows w w'.
Proof.
  intros Hrun.
  eapply (monitorExecution_keeps (λ _, True)) in Hrun; [by destruct Hrun | done..].
Qed.

Lemma tracker_sound_grows env w w' :
  tracker_sound env w → grows w w' → tracker_sound env w'.
Proof.
  intros Ht [Hs He] k x Hx. destruct (Ht k x (He k x Hx)) as (? & ? & ?). auto.
Qed.

Lemma tracker_sound_tracked env w g inputs :
  tracker_sound env w → tracker_sound env (tracked_world w g inputs).
Proof.
  intros Ht k x. simpl. destruct (decide (uuid_of (uuids w) = k)) as [<-|Hne].
  - rewrite !lookup_insert_eq. intros [= <-]. simpl. split_and!; eauto.
  - rewrite !lookup_insert_ne by done. apply Ht.
Qed.

Lemma SubmitGraph_tracker env fuel g inputs w r w' :
  tracker_sound env w → SubmitGraph env fuel g inputs w = Done r w' →
  tracker_sound env w'.
Proof.
  intros Ht Hrun.
  destruct (Validate g) as [err|] eqn:Hv.
  { rewrite (SubmitGraph_rejected _ _ _ _ _ _ Hv) in Hrun. injection Hrun as <- <-. done. }
  set (gid := uuid_of (uuids w)) in *.
  set (st0 := initial_state gid g inputs (clock w)).
  destruct (save_ok env st0) eqn:Hs.
  2:{ rewrite (SubmitGraph_save_failed _ _ _ _ _ Hv Hs) in Hrun. injection Hrun as <- <-. done. }
  destruct (publish_ok env TopicGraphEvents (submitted_event w g)) eqn:Hp.
  2:{ rewrite (SubmitGraph_unannounced _ _ _ _ _ Hv Hs Hp) in Hrun. injection Hrun as <- <-.
      eapply tracker_sound_grows; [exact Ht|]. split; simpl; [|done].
      intros k Hk. destruct (decide (uuid_of (uuids w) = k)) as [<-|Hne].
      - rewrite lookup_insert_eq. eauto.
      - by rewrite lookup_insert_ne. }
  rewrite (SubmitGraph_accepted _ _ _ _ _ Hv Hs Hp) in Hrun.
  unfold bind at 1 in Hrun.
  destruct (publishNodeWork env fuel _ (EntryNode g) _ (tracked_world w g inputs))
    as [werr w1| |] eqn:Hwork; try done.
  apply publishNodeWork_grows in Hwork.
  pose proof (tracker_sound_grows _ _ _ (tracker_sound_tracked env w g inputs Ht) Hwork) as H1.
  destruct werr; revert Hrun; munfold; intros [= <- <-]; exact H1.
Qed.

Lemma CancelExecution_tracker env gid w r w' :
  tracker_sound env w → CancelExecution env gid w = Done r w' →
  tracker_sound env w'.
Proof.
  intros Ht. unfold CancelExecution. munfold. simpl.
  destruct (executions w !! gid) as [execCtx|] eqn:Hx; [|by intros [= <- <-]].
  destruct (is_terminal (status execCtx)) eqn:Hterm; [by intros [= <- <-]|]. simpl.
  destruct (Ht gid execCtx Hx) as (Hid & [st0 Hst0] & Hstatus).
  assert (Hfail : ¬ store_reliable env →
            tracker_sound env
              (with_executions (insert gid (set_exec_status ExecutionStatusCancelled execCtx))
                 (with_deadlines (alter cancel_ctx gid) w))).
  { intros Hbad k x. simpl. destruct (decide (gid = k)) as [<-|Hne].
    - rewrite lookup_insert_eq. intros [= <-]. simpl. split_and!; eauto.
    - rewrite lookup_insert_ne by done. apply Ht. }
  destruct (get_ok env gid) eqn:Hget.
  2:{ intros [= <- <-]. apply Hfail. intros [_ Hg]. specialize (Hg gid). congruence. }
  rewrite Hst0.
  destruct (save_ok env _) eqn:Hsave; simpl.
  2:{ intros [= <- <-]. apply Hfail. intros [Hs _]. rewrite Hs in Hsave. done. }
  assert (Hdone : ∀ k x,
            delete gid (<[gid := set_exec_status ExecutionStatusCancelled execCtx]>
                          (executions w)) !! k = Some x →
            graphID x = k
            ∧ is_Some (<[GraphID st0 := set_final ExecutionStatusCancelled (clock w) "" st0]>
                         (store w) !! k)
            ∧ (status x = ExecutionStatusRunning
               ∨ (status x = ExecutionStatusCancelled ∧ ¬ store_reliable env))).
  { intros k x Hk. apply lookup_delete_Some in Hk as [Hne Hk].
    rewrite lookup_insert_ne in Hk by done.
    destruct (Ht k x Hk) as (? & ? & ?). split_and!; [done | | done].
    destruct (decide (GraphID st0 = k)) as [<-|?].
    - rewrite lookup_insert_eq. eauto.
    - by rewrite lookup_insert_ne. }
  destruct (publish_ok env _ _); simpl; intros [= <- <-]; exact Hdone.
Qed.

Lemma run_op_tracker env fuel op w w' :
  tracker_sound env w → run_op env fuel op w = Done tt w' → tracker_sound env w'.
Proof.
  intros Ht. destruct op as [g inputs|event|gid|gid|gid|]; cbn [run_op];
    try unfold bind at 1.
  - destruct (SubmitGraph env fuel g inputs w) as [r w1| |] eqn:Hrun; try done.
    intros [= <-]. by eapply SubmitGraph_tracker.
  - destruct (handleNodeCompleted env fuel event w) as [r w1| |] eqn:Hrun; try done.
    intros [= <-]. eapply tracker_sound_grows; [exact Ht|].
    by eapply handleNodeCompleted_grows.
  - destruct (CancelExecution env gid w) as [r w1| |] eqn:Hrun; try done.
    intros [= <-]. by eapply CancelExecution_tracker.
  - intros Hrun. eapply tracker_sound_grows; [exact Ht|]. by eapply monitorExecution_grows.
  - destruct (GetStatus env gid w) as [r w1| |] eqn:Hrun; try done.
    intros [= <-]. by apply GetStatus_world in Hrun as ->.
  - munfold. simpl. intros [= <-]. done.
Qed.

Lemma reachable_tracker env w : reachable env w → tracker_sound env w.
Proof.
  intros H. unfold reachable in H. remember init_world as w0 eqn:Hw0.
  induction H as [w|w1 w2 w3 fuel op _ IH Hrun].
  - subst. intros k x. simpl. by rewrite lookup_empty.
  - eapply run_op_tracker; [|exact Hrun]. by apply IH.
Qed.

(** ** The shape of stored records *)

Lemma well_keyed_initial gid g inputs t : well_keyed (initial_state gid g inputs t).
Proof.
  split; simpl.
  - intros k. rewrite initial_node_states_lookup. by rewrite fmap_is_Some.
  - intros k ns. rewrite initial_node_states_lookup.
    destruct (Nodes g !! k); simpl; [|done]. by intros [= <-].
Qed.

Lemma well_keyed_node n ns ns' st :
  NodeStates st !! n = Some ns → NodeID ns' = NodeID ns →
  well_keyed st → well_keyed (set_node_state n ns' st).
Proof.
  intros Hns Hid [Hdom Hkey]. split; simpl.
  - intros k. destruct (decide (n = k)) as [<-|Hne].
    + rewrite lookup_insert_eq. split; [intros _ | eauto]. apply Hdom. eauto.
    + by rewrite lookup_insert_ne.
  - intros k ns0. destruct (decide (n = k)) as [<-|Hne].
    + rewrite lookup_insert_eq. intros [= <-]. rewrite Hid. by apply Hkey.
    + rewrite lookup_insert_ne by done. apply Hkey.
Qed.

Lemma well_timed_initial gid g inputs t : well_timed (initial_state gid g inputs t).
Proof.
  split_and!; simpl; [set_solver | | done |].
  - split; [by intros [? ?] | done].
  - intros k ns. rewrite initial_node_states_lookup.
    destruct (Nodes g !! k); simpl; [|done]. intros [= <-]. set_solver.
Qed.

Lemma well_timed_node n ns' st :
  NStatus ns' ∈ [ExecutionStatusRunning; ExecutionStatusCompleted; ExecutionStatusFailed] →
  well_timed st → well_timed (set_node_state n ns' st).
Proof.
  intros Hs (H1 & H2 & H3 & H4). split_and!; simpl; try done.
  intros k ns0. destruct (decide (n = k)) as [<-|Hne].
  - rewrite lookup_insert_eq. intros [= <-]. set_solver.
  - rewrite lookup_insert_ne by done. apply H4.
Qed.

Lemma well_timed_final s t msg st :
  is_terminal s = true → well_timed st → well_timed (set_final s t msg st).
Proof.
  intros Hs (H1 & H2 & H3 & H4). split_and!; simpl; try done.
  destruct s; try done; set_solver.
Qed.

(** X4. In every world the manager can reach, every stored record sits
    under its own execution id, embeds a graph the validator accepts, has a
    node state for exactly the nodes of that graph, and each node state
    carries the id of its node. *)
Theorem stored_records_keep_their_shape env w k st :
  reachable env w →
  store w !! k = Some st →
  GraphID st = k
  ∧ Validate (SGraph st) = None
  ∧ (∀ n, is_Some (NodeStates st !! n) ↔ is_Some (Nodes (SGraph st) !! n))
  ∧ (∀ n ns, NodeStates st !! n = Some ns → NodeID ns = n).
Proof.
  intros Hr Hst. pose proof (reachable_inv _ _ Hr) as Hinv.
  split; [by apply (inv_key w Hinv)|].
  split; [by destruct (inv_sound w Hinv k st Hst)|].
  assert (Hk : well_keyed st); [|exact Hk].
  eapply (reachable_stores well_keyed); [..|exact Hr|exact Hst].
  - intros. apply well_keyed_initial.
  - intros n ns ns' st' Hns Hid _. by apply (well_keyed_node n ns).
  - intros s t msg st' _ H. exact H.
Qed.

Lemma stored_records_keep_their_shape_witness :
  reachable env_ok w_completed
  ∧ store w_completed !! uuid_of 0 = Some st_completed
  ∧ GraphID st_completed = uuid_of 0
  ∧ Validate (SGraph st_completed) = None
  ∧ (∀ n, is_Some (NodeStates st_completed !! n)
          ↔ is_Some (Nodes (SGraph st_completed) !! n))
  ∧ (∀ n ns, NodeStates st_completed !! n = Some ns → NodeID ns = n).
Proof.
  split; [exact w_completed_reachable|]. split; [exact w_completed_record|].
  exact (stored_records_keep_their_shape env_ok w_completed (uuid_of 0) st_completed
           w_completed_reachable w_completed_record).
Defined.

(** X5. In every world the manager can reach, a stored record is Running,
    Completed, Failed or Cancelled (never Pending or Submitted); its
    [completed_at] is set exactly when its status is terminal; its
    [started_at] is never set; it carries no error while it is not
    terminal; and each of its node states is Pending, Running, Completed or
    Failed: a cancellation or a timeout leaves the node states as they were
    and marks no node Cancelled. *)
Theorem stored_records_statuses env w k st :
  reachable env w →
  store w !! k = Some st →
  Status st ∈ [ExecutionStatusRunning; ExecutionStatusCompleted;
               ExecutionStatusFailed; ExecutionStatusCancelled]
  ∧ (is_Some (CompletedAt st) ↔ is_terminal (Status st) = true)
  ∧ StartedAt st = None
  ∧ (is_terminal (Status st) = false → Error st = "")
  ∧ (∀ n ns, NodeStates st !! n = Some ns →
       NStatus ns ∈ [ExecutionStatusPending; ExecutionStatusRunning;
                     ExecutionStatusCompleted; ExecutionStatusFailed]).
Proof.
  intros Hr Hst. pose proof (reachable_inv _ _ Hr) as Hinv.
  assert (Ht : well_timed st).
  { eapply (reachable_stores well_timed); [..|exact Hr|exact Hst].
    - intros. apply well_timed_initial.
    - intros n ns ns' st' _ _ Hs. by apply well_timed_node.
    - intros s t msg st'. apply well_timed_final. }
  destruct Ht as (H1 & H2 & H3 & H4).
  destruct (inv_sound w Hinv k st Hst) as (_ & _ & He).
  split_and!; done.
Qed.

Lemma stored_records_statuses_witness :
  reachable env_ok w_completed
  ∧ store w_completed !! uuid_of 0 = Some st_completed
  ∧ Status st_completed = ExecutionStatusCompleted
  ∧ (is_Some (CompletedAt st_completed) ↔ is_terminal (Status st_completed) = true)
  ∧ StartedAt st_completed = None.
Proof.
  split; [exact w_completed_reachable|]. split; [exact w_completed_record|].
  split; [reflexivity|].
  destruct (stored_records_statuses env_ok w_completed (uuid_of 0) st_completed
              w_completed_reachable w_completed_record) as (_ & H2 & H3 & _).
  split; [exact H2 | exact H3].
Defined.

(** ** Cancellation, deadlines and shutdown *)

Lemma cancel_tracked_execution_effect env gid w :
  reachable env w →
  store_reliable env →
  is_Some (executions w !! gid) →
  ∃ st w',
    store w !! gid = Some st
    ∧ is_terminal (Status st) = false
    ∧ CancelExecution env gid w = Done None w'
    ∧ store w' = <[gid := set_final ExecutionStatusCancelled (clock w) "" st]> (store w)
    ∧ executions w' = delete gid (executions w)
    ∧ deadlines w' = alter cancel_ctx gid (deadlines w)
    ∧ bus w' = (if publish_ok env TopicGraphEvents (cancelled_event w gid)
                then bus w ++ [(TopicGraphEvents, cancelled_event w gid)] else bus w)
    ∧ metrics w' = metrics w.
Proof.
  intros Hr [Hsave Hget] [x Hx].
  pose proof (reachable_inv _ _ Hr) as Hinv.
  destruct (reachable_tracker _ _ Hr gid x Hx) as (_ & [st Hst] & Hstatus).
  assert (Hrun : status x = ExecutionStatusRunning).
  { destruct Hstatus as [?|[_ Hbad]]; [done|]. exfalso. by apply Hbad. }
  assert (Hg : GraphID st = gid) by by apply (inv_key w Hinv).
  assert (Hlive : is_terminal (Status st) = false).
  { destruct (is_terminal (Status st)) eqn:Ht; [|done].
    pose proof (inv_terminal_untracked w Hinv gid st Hst Ht). congruence. }
  exists st. unfold CancelExecution. munfold. simpl.
  rewrite Hx, Hrun. simpl. rewrite Hget, Hst, Hsave. simpl. rewrite Hg.
  unfold cancelled_event.
  destruct (publish_ok env _ _); simpl; eexists;
    (split; [done|]); (split; [done|]); (split; [reflexivity|]); simpl;
    split_and!; try done; by rewrite delete_insert_eq.
Qed.

(** X6. With a store that answers, cancelling a tracked execution always
    succeeds: in every world the manager can reach, the execution has a
    stored record that is not terminal; [CancelExecution] returns nil,
    saves the record as Cancelled with [completed_at] set and every other
    field (the node states among them) as it was, cancels the deadline
    context, drops the tracker entry and publishes the GraphCancelled
    notice if the bus takes it; no completion metric is recorded. *)
Theorem cancel_tracked_execution env gid w :
  reachable env w →
  store_reliable env →
  is_Some (executions w !! gid) →
  ∃ st w',
    store w !! gid = Some st
    ∧ is_terminal (Status st) = false
    ∧ CancelExecution env gid w = Done None w'
    ∧ store w' = <[gid := set_final ExecutionStatusCancelled (clock w) "" st]> (store w)
    ∧ executions w' = delete gid (executions w)
    ∧ deadlines w' = alter cancel_ctx gid (deadlines w)
    ∧ bus w' = (if publish_ok env TopicGraphEvents (cancelled_event w gid)
                then bus w ++ [(TopicGraphEvents, cancelled_event w gid)] else bus w)
    ∧ metrics w' = metrics w.
Proof.
  intros Hr Hstore Hx.
  destruct (cancel_tracked_execution_effect env gid w Hr Hstore Hx) as (st & w' & H).
  exists st, w'. exact H.
Qed.

Lemma cancel_tracked_execution_witness :
  reachable env_ok w_submitted
  ∧ store_reliable env_ok
  ∧ is_Some (executions w_submitted !! uuid_of 0)
  ∧ ∃ st w',
      store w_submitted !! uuid_of 0 = Some st
      ∧ CancelExecution env_ok (uuid_of 0) w_submitted = Done None w'
      ∧ (Status <$> store w' !! uuid_of 0) = Some ExecutionStatusCancelled
      ∧ executions w' !! uuid_of 0 = None.
Proof.
  assert (Hx : is_Some (executions w_submitted !! uuid_of 0)) by (vm_compute; eauto).
  assert (Hs : store_reliable env_ok) by (split; intros; reflexivity).
  split; [exact w_submitted_reachable|]. split; [exact Hs|]. split; [exact Hx|].
  destruct (cancel_tracked_execution env_ok (uuid_of 0) w_submitted
              w_submitted_reachable Hs Hx)
    as (st & w' & Hst & _ & Hrun & Hstore & Hexec & _).
  exists st, w'. split; [exact Hst|]. split; [exact Hrun|]. split.
  - rewrite Hstore, lookup_insert_eq. reflexivity.
  - rewrite Hexec. apply lookup_delete_eq.
Defined.



(** X8. With a store that answers, an elapsing deadline fails the
    execution it guards: in every world the manager can reach, a live
    deadline context belongs to a tracked execution whose stored record is
    not terminal; the supervisor saves the record as Failed with the error
    "execution timeout" and [completed_at] set, drops the tracker entry,
    publishes the GraphFailed notice carrying that error if the bus takes
    it, and records the completion metric with status failed. *)
Theorem deadline_fails_execution env gid w :
  reachable env w →
  store_reliable env →
  deadlines w !! gid = Some CtxActive →
  ∃ st w',
    store w !! gid = Some st
    ∧ is_terminal (Status st) = false
    ∧ monitorExecution env gid w = Done tt w'
    ∧ store w' = <[gid := set_final ExecutionStatusFailed (clock w) "execution timeout" st]>
                   (store w)
    ∧ executions w' = delete gid (executions w)
    ∧ deadlines w' !! gid = Some CtxDeadlineExceeded
    ∧ bus w' = (if publish_ok env TopicGraphEvents
                     (final_event w gid ExecutionStatusFailed "execution timeout")
                then bus w ++ [(TopicGraphEvents,
                                final_event w gid ExecutionStatusFailed "execution timeout")]
                else bus w)
    ∧ metrics w' = metrics w ++ [RecordGraphCompleted ExecutionStatusFailed
                                   (S (S (clock w)) - SubmittedAt st)].
Proof.
  intros Hr [Hsave Hget] Hd.
  pose proof (reachable_inv _ _ Hr) as Hinv.
  destruct (inv_active_tracked w Hinv gid Hd) as [x Hx].
  destruct (reachable_tracker _ _ Hr gid x Hx) as (_ & [st Hst] & _).
  assert (Hg : GraphID st = gid) by by apply (inv_key w Hinv).
  assert (Hlive : is_terminal (Status st) = false).
  { destruct (is_terminal (Status st)) eqn:Ht; [|done].
    pose proof (inv_terminal_untracked w Hinv gid st Hst Ht). congruence. }
  exists st. munfold. simpl. rewrite Hd. simpl. rewrite Hget, Hst, Hsave. simpl.
  rewrite Hx. simpl. rewrite Hg. unfold final_event. simpl.
  destruct (publish_ok env _ _); simpl; eexists;
    (split; [done|]); (split; [done|]); (split; [reflexivity|]); simpl;
    (split_and!; try done);
    by rewrite lookup_alter_eq, lookup_insert_eq.
Qed.

Lemma deadline_fails_execution_witness :
  reachable env_ok w_submitted
  ∧ store_reliable env_ok
  ∧ deadlines w_submitted !! uuid_of 0 = Some CtxActive
  ∧ ∃ st w',
      store w_submitted !! uuid_of 0 = Some st
      ∧ monitorExecution env_ok (uuid_of 0) w_submitted = Done tt w'
      ∧ store w' !! uuid_of 0
        = Some (set_final ExecutionStatusFailed (clock w_submitted) "execution timeout" st).
Proof.
  assert (Hd : deadlines w_submitted !! uuid_of 0 = Some CtxActive)
    by (vm_compute; reflexivity).
  assert (Hs : store_reliable env_ok) by (split; intros; reflexivity).
  split; [exact w_submitted_reachable|]. split; [exact Hs|]. split; [exact Hd|].
  destruct (deadline_fails_execution env_ok (uuid_of 0) w_submitted
              w_submitted_reachable Hs Hd)
    as (st & w' & Hst & _ & Hrun & Hstore & _).
  exists st, w'. split; [exact Hst|]. split; [exact Hrun|].
  rewrite Hstore. apply lookup_insert_eq.
Defined.



(** ** Submission and completion: failures and edge cases *)

(** X10. When the store refuses the initial record of a valid graph,
    [SubmitGraph] returns "failed to save state" and leaves no trace but a
    log line: nothing is stored, tracked, armed or published, and neither
    the failed nor the submitted counter moves (the counters therefore miss
    this submission); the identifier minted for it is spent. *)
Theorem submit_save_failure_leaves_no_trace env fuel g inputs w :
  Validate g = None →
  save_ok env (initial_state (uuid_of (uuids w)) g inputs (clock w)) = false →
  ∃ w',
    SubmitGraph env fuel g inputs w = Done ("", Some ErrSaveState) w'
    ∧ store w' = store w
    ∧ executions w' = executions w
    ∧ deadlines w' = deadlines w
    ∧ bus w' = bus w
    ∧ metrics w' = metrics w
    ∧ uuids w' = S (uuids w)
    ∧ last (logs w') = Some {| LogLevel := LError; LogMsg := "failed to save initial state";
                               LogGraph := uuid_of (uuids w) |}.
Proof.
  intros Hv Hs. rewrite (SubmitGraph_save_failed _ _ _ _ _ Hv Hs).
  eexists. split; [reflexivity|]. simpl. split_and!; try done. apply last_snoc.
Qed.

Lemma submit_save_failure_leaves_no_trace_witness :
  Validate g_single = None
  ∧ ∃ w', SubmitGraph env_store_full 1 g_single ∅ init_world
          = Done ("", Some ErrSaveState) w'
      ∧ store w' = ∅ ∧ bus w' = [] ∧ metrics w' = [] ∧ uuids w' = 1.
Proof.
  split; [reflexivity|].
  destruct (submit_save_failure_leaves_no_trace env_store_full 1 g_single ∅ init_world
              eq_refl eq_refl) as (w' & Hrun & Hs & _ & _ & Hb & Hm & Hu & _).
  exists w'. split; [exact Hrun|]. split; [exact Hs|]. split; [exact Hb|].
  split; [exact Hm | exact Hu].
Defined.

(** X11. A completion event is dropped, with nothing but two log lines
    written, when the store cannot be read, when it holds no record under
    the event's execution id, or when the record has no node state under
    the event's [node_id] (an event without a [node_id] string reads as the
    empty node id): the handler returns nil and the store, the tracker, the
    deadline contexts, the bus, the metrics and the clock are as before. *)
Theorem completion_without_target_is_dropped env fuel event w :
  (get_ok env (ExecutionID event) = false
   ∨ store w !! ExecutionID event = None
   ∨ ∃ st, store w !! ExecutionID event = Some st
           ∧ NodeStates st !! ev_node event = None) →
  ∃ w',
    handleNodeCompleted env fuel event w = Done None w'
    ∧ store w' = store w
    ∧ executions w' = executions w
    ∧ deadlines w' = deadlines w
    ∧ bus w' = bus w
    ∧ metrics w' = metrics w
    ∧ clock w' = clock w
    ∧ length (logs w') = 2 + length (logs w).
Proof.
  intros Hcase.
  destruct (if get_ok env (ExecutionID event) then store w !! ExecutionID event else None)
    as [st|] eqn:Hget.
  - destruct (get_ok env (ExecutionID event)) eqn:Hok; [|done].
    destruct Hcase as [?|[?|(st' & Hst & Hns)]]; [done | congruence |].
    rewrite (handleNodeCompleted_no_node _ _ _ _ _ Hok Hst Hns).
    eexists. split; [reflexivity|]. simpl. split_and!; try done.
    rewrite !length_app. simpl. lia.
  - rewrite (handleNodeCompleted_no_record _ _ _ _ Hget).
    eexists. split; [reflexivity|]. simpl. split_and!; try done.
    rewrite !length_app. simpl. lia.
Qed.

Lemma completion_without_target_is_dropped_witness :
  store w_submitted !! "no-such-execution" = None
  ∧ ∃ w', handleNodeCompleted env_ok 1 (completion "no-such-execution" "a" ∅) w_submitted
          = Done None w'
      ∧ store w' = store w_submitted
      ∧ bus w' = bus w_submitted.
Proof.
  assert (Hno : store w_submitted !! "no-such-execution" = None) by (vm_compute; reflexivity).
  split; [exact Hno|].
  destruct (completion_without_target_is_dropped env_ok 1
              (completion "no-such-execution" "a" ∅) w_submitted
              (or_intror (or_introl Hno)))
    as (w' & Hrun & Hs & _ & _ & Hb & _).
  exists w'. split; [exact Hrun|]. split; [exact Hs | exact Hb].
Defined.

(** X12. [handleNodeCompleted] never hands an error back to the bus:
    whatever the event, the world and the answers of the store and the bus,
    a call that returns returns nil. *)
Theorem completion_handler_returns_no_error env fuel event w :
  returned_error (handleNodeCompleted env fuel event w) = false.
Proof.
  destruct (if get_ok env (ExecutionID event) then store w !! ExecutionID event else None)
    as [st|] eqn:Hget.
  2:{ by rewrite (handleNodeCompleted_no_record _ _ _ _ Hget). }
  destruct (get_ok env (ExecutionID event)) eqn:Hok; [|done].
  destruct (NodeStates st !! ev_node event) as [ns|] eqn:Hns.
  2:{ by rewrite (handleNodeCompleted_no_node _ _ _ _ _ Hok Hget Hns). }
  rewrite (handleNodeCompleted_known _ _ _ _ _ _ Hok Hget Hns). cbv zeta.
  set (st1 := completed_state event (clock w) ns st).
  unfold bind at 1.
  destruct (SaveState env st1 (received_world event w)) as [b w1| |] eqn:Hsave; try done.
  unfold bind at 1.
  assert (Hlog : ∃ w2, when (negb b)
                         (log LError "failed to save state after node completion"
                            (ExecutionID event)) w1 = Done tt w2).
  { destruct b; simpl; eexists; reflexivity. }
  destruct Hlog as (w2 & ->).
  destruct (ev_has_error event).
  { unfold bind. by destruct (completeGraph env _ st1 _ _ w2) as [[] w3| |]. }
  destruct (decide _).
  { unfold bind. by destruct (completeGraph env _ st1 _ _ w2) as [[] w3| |]. }
  unfold dispatch_successor, bind.
  destruct (publishNodeWork env fuel _ _ st1 w2) as [[err|] w3| |]; done.
Qed.

(** X13. When a router's answer names a node that is not in the graph, the
    execution is stranded: the completed node is saved as Completed, the
    dispatch fails with "node not found", which is only logged, and the
    handler returns nil.  Nothing is published, the record keeps its
    status, the tracker entry and the deadline context stay as they were;
    only the deadline will end the execution. *)
Theorem router_names_missing_node env fuel event w st ns :
  get_ok env (ExecutionID event) = true →
  store w !! ExecutionID event = Some st →
  NodeStates st !! ev_node event = Some ns →
  ev_has_error event = false →
  ev_next event ≠ "" →
  Nodes (SGraph st) !! ev_next event = None →
  save_ok env (completed_state event (clock w) ns st) = true →
  ∃ w',
    handleNodeCompleted env (S fuel) event w = Done None w'
    ∧ store w' = <[GraphID st := completed_state event (clock w) ns st]> (store w)
    ∧ Status (completed_state event (clock w) ns st) = Status st
    ∧ bus w' = bus w
    ∧ executions w' = executions w
    ∧ deadlines w' = deadlines w
    ∧ last (logs w') = Some {| LogLevel := LError;
                               LogMsg := "failed to publish next node work";
                               LogGraph := ExecutionID event |}.
Proof.
  intros Hok Hst Hns Herr Hnext Hmissing Hsave.
  rewrite (handleNodeCompleted_saved _ _ _ _ _ _ Hok Hst Hns Hsave). cbv zeta.
  rewrite Herr.
  destruct (decide (ev_next event = "")) as [?|_]; [done|].
  destruct (decide (ev_next event = "")) as [?|_]; [done|].
  unfold dispatch_successor, bind. simpl. unfold GetNode. simpl. rewrite Hmissing.
  munfold. simpl. eexists. split; [reflexivity|]. simpl. split_and!; try done.
  apply last_snoc.
Qed.

Lemma router_names_missing_node_witness :
  let event := completion (uuid_of 0) "R" {[ "next_node" := AValue (VString "Z") ]} in
  store w_router !! uuid_of 0 = Some st_router
  ∧ ev_next event = "Z"
  ∧ Nodes (SGraph st_router) !! "Z" = None
  ∧ ∃ w', handleNodeCompleted env_ok 1 event w_router = Done None w'
      ∧ (Status <$> store w' !! uuid_of 0) = Some ExecutionStatusRunning
      ∧ bus w' = bus w_router
      ∧ deadlines w' !! uuid_of 0 = Some CtxActive.
Proof.
  intros event.
  split; [exact w_router_record|]. split; [reflexivity|]. split; [reflexivity|].
  destruct (router_names_missing_node env_ok 0 event w_router st_router
              (set_node_running 4 (pending_node "R")))
    as (w' & Hrun & Hs & _ & Hb & _ & Hd & _);
    [reflexivity | exact w_router_record | reflexivity | reflexivity | discriminate
    | reflexivity | reflexivity |].
  exists w'. split; [exact Hrun|]. split; [|split; [exact Hb|]].
  - rewrite Hs. vm_compute. reflexivity.
  - rewrite Hd. vm_compute. reflexivity.
Defined.

(** ** The nil dereference of [publishNodeWork] *)

Lemma is_panic_bind {A B} (m : M A) (k : A → M B) w :
  is_panic (m w) = false →
  (∀ a w', m w = Done a w' → is_panic (k a w') = false) →
  is_panic (bind m k w) = false.
Proof.
  intros Hm Hk. unfold bind. destruct (m w) as [a w'| |]; [by apply Hk | done | done].
Qed.

Lemma completeGraph_no_panic env gid st s msg w :
  is_panic (completeGraph env gid st s msg w) = false.
Proof. by destruct (completeGraph_effect env gid st s msg w) as (w' & -> & _). Qed.

Lemma publish_work_no_panic env topic gid nodeID node st w :
  is_panic (publish_work env topic gid nodeID node st w) = false.
Proof.
  by destruct (publish_work_effect env topic gid nodeID node st w) as (r & w' & -> & _).
Qed.

Lemma publishNodeWork_no_panic env fuel : ∀ gid n st w,
  covered st → is_panic (publishNodeWork env fuel gid n st w) = false.
Proof.
  induction fuel as [|fuel IH]; intros gid n st w Hcov; [done|].
  simpl. unfold GetNode. destruct (Nodes (SGraph st) !! n) as [node|] eqn:Hnode; [|done].
  destruct (Hcov n) as [ns Hns]; [eauto|]. rewrite Hns.
  apply is_panic_bind; [done|]. intros now w0 _.
  assert (Hcov1 : covered (set_node_state n (set_node_running now ns) st))
    by by apply covered_set_node_state.
  apply is_panic_bind; [unfold SaveState; by destruct (save_ok env _)|]. intros b w1 _.
  apply is_panic_bind; [by destruct b|]. intros [] w2 _.
  destruct (GetType node).
  - simpl. destruct (decide (findNextNode (SGraph st) n = "")); [done | by apply IH].
  - apply publish_work_no_panic.
  - apply publish_work_no_panic.
  - apply is_panic_bind; [apply completeGraph_no_panic | done].
Qed.

Lemma dispatch_successor_no_panic env fuel gid n st w :
  covered st → is_panic (dispatch_successor env fuel gid n st w) = false.
Proof.
  intros Hcov. unfold dispatch_successor. apply is_panic_bind.
  - by apply publishNodeWork_no_panic.
  - intros [err|] w' _; done.
Qed.

Lemma handleNodeCompleted_no_panic env fuel event w :
  tracking_inv w → is_panic (handleNodeCompleted env fuel event w) = false.
Proof.
  intros Hinv.
  destruct (if get_ok env (ExecutionID event) then store w !! ExecutionID event else None)
    as [st|] eqn:Hget.
  2:{ by rewrite (handleNodeCompleted_no_record _ _ _ _ Hget). }
  destruct (get_ok env (ExecutionID event)) eqn:Hok; [|done].
  destruct (NodeStates st !! ev_node event) as [ns|] eqn:Hns.
  2:{ by rewrite (handleNodeCompleted_no_node _ _ _ _ _ Hok Hget Hns). }
  rewrite (handleNodeCompleted_known _ _ _ _ _ _ Hok Hget Hns). cbv zeta.
  set (st1 := completed_state event (clock w) ns st).
  assert (Hcov1 : covered st1).
  { apply covered_set_node_state. by destruct (inv_sound w Hinv _ _ Hget) as (_ & ? & _). }
  apply is_panic_bind; [unfold SaveState; by destruct (save_ok env st1)|].
  intros b w1 _. apply is_panic_bind; [by destruct b|].
  intros [] w2 _.
  destruct (ev_has_error event).
  { apply is_panic_bind; [apply completeGraph_no_panic | done]. }
  destruct (decide _).
  { apply is_panic_bind; [apply completeGraph_no_panic | done]. }
  by apply dispatch_successor_no_panic.
Qed.

Lemma SubmitGraph_no_panic env fuel g inputs w :
  is_panic (SubmitGraph env fuel g inputs w) = false.
Proof.
  destruct (Validate g) as [err|] eqn:Hv.
  { by rewrite (SubmitGraph_rejected _ _ _ _ _ _ Hv). }
  destruct (save_ok env (initial_state (uuid_of (uuids w)) g inputs (clock w))) eqn:Hs.
  2:{ by rewrite (SubmitGraph_save_failed _ _ _ _ _ Hv Hs). }
  destruct (publish_ok env TopicGraphEvents (submitted_event w g)) eqn:Hp.
  2:{ by rewrite (SubmitGraph_unannounced _ _ _ _ _ Hv Hs Hp). }
  rewrite (SubmitGraph_accepted _ _ _ _ _ Hv Hs Hp).
  apply is_panic_bind.
  - apply publishNodeWork_no_panic, initial_state_covered.
  - intros [err|] w' _; done.
Qed.

(** X14. The nil dereference in [publishNodeWork] (a node of the graph
    without node state) cannot be reached through the manager: in every
    world the manager can reach, whatever the answers of the store and the
    bus and whatever arrives as a completion event, no operation panics. *)
Theorem manager_never_panics env fuel op w :
  reachable env w → is_panic (run_op env fuel op w) = false.
Proof.
  intros Hr. pose proof (reachable_inv _ _ Hr) as Hinv.
  destruct op as [g inputs|event|gid|gid|gid|]; cbn [run_op].
  - apply is_panic_bind; [apply SubmitGraph_no_panic | done].
  - apply is_panic_bind; [by apply handleNodeCompleted_no_panic | done].
  - apply is_panic_bind; [|done]. unfold CancelExecution. munfold. simpl.
    destruct (executions w !! gid) as [x|]; [|done].
    destruct (is_terminal (status x)); [done|]. simpl.
    destruct (if get_ok env gid then store w !! gid else None) as [st|]; [|done].
    destruct (save_ok env _); simpl; [|done]. by destruct (publish_ok env _ _).
  - unfold monitorExecution, bind at 1, gets.
    destruct (deadlines w !! gid) as [[| |]|]; try done.
    apply is_panic_bind; [done|]. intros [] w1 _. unfold handleTimeout.
    apply is_panic_bind; [done|]. intros [] w2 _.
    apply is_panic_bind; [done|]. intros [st|] w3 _; [|done].
    apply completeGraph_no_panic.
  - apply is_panic_bind; [|done]. unfold GetStatus. munfold.
    by destruct (if get_ok env gid then store w !! gid else None).
  - done.
Qed.

Lemma manager_never_panics_witness :
  reachable env_ok w_completed
  ∧ is_panic (run_op env_ok 1 (OpNodeCompleted late_failure) w_completed) = false.
Proof.
  split; [exact w_completed_reachable|].
  exact (manager_never_panics env_ok 1 (OpNodeCompleted late_failure) w_completed
           w_completed_reachable).
Defined.

(** ** How deep a dispatch recurses *)

Lemma dispatch_route_S fuel : ∀ g n r,
  dispatch_route fuel g n = Some r → dispatch_route (S fuel) g n = Some r.
Proof.
  induction fuel as [|fuel IH]; intros g n r H; [done|].
  change (dispatch_route (S (S fuel)) g n)
    with (match GetNode g n with
          | None => Some ([], LandMissing n)
          | Some node =>
              match GetType node with
              | NodeTypeExecutor => Some ([n], LandWork TopicExecutorWork node)
              | NodeTypeRouter => Some ([n], LandWork TopicRouterWork node)
              | NodeTypeEnd => Some ([n], LandEnd)
              | NodeTypeStart =>
                  if decide (findNextNode g n = "") then Some ([n], LandStop)
                  else match dispatch_route (S fuel) g (findNextNode g n) with
                       | Some (p, l) => Some (n :: p, l)
                       | None => None
                       end
              end
          end).
  simpl in H. destruct (GetNode g n) as [node|]; [|done].
  destruct (GetType node); try done.
  destruct (decide (findNextNode g n = "")); [done|].
  destruct (dispatch_route fuel g (findNextNode g n)) as [[p l]|] eqn:Hr; [|done].
  by rewrite (IH _ _ _ Hr).
Qed.

Lemma dispatch_route_le fuel fuel' g n r :
  fuel ≤ fuel' → dispatch_route fuel g n = Some r → dispatch_route fuel' g n = Some r.
Proof. intros Hle Hr. induction Hle; [done | by apply dispatch_route_S]. Qed.

Lemma dispatch_route_agree fuel fuel' g n r r' :
  dispatch_route fuel g n = Some r → dispatch_route fuel' g n = Some r' → r = r'.
Proof.
  intros H H'. destruct (decide (fuel ≤ fuel')).
  - apply (dispatch_route_le fuel fuel') in H; [congruence | done].
  - apply (dispatch_route_le fuel' fuel) in H'; [congruence | lia].
Qed.

Lemma dispatch_route_min fuel : ∀ g n p l,
  dispatch_route fuel g n = Some (p, l) → dispatch_route (S (length p)) g n = Some (p, l).
Proof.
  induction fuel as [|fuel IH]; intros g n p l H; [done|].
  simpl in H. destruct (GetNode g n) as [node|] eqn:Hnode.
  2:{ injection H as <- <-. simpl. by rewrite Hnode. }
  destruct (GetType node) eqn:Hty;
    try (injection H as <- <-; simpl; by rewrite Hnode, Hty).
  destruct (decide (findNextNode g n = "")) as [Hn|Hn].
  { injection H as <- <-. simpl. rewrite Hnode, Hty. by rewrite decide_True. }
  destruct (dispatch_route fuel g (findNextNode g n)) as [[p' l']|] eqn:Hr; [|done].
  injection H as <- <-. apply IH in Hr.
  change (dispatch_route (S (length (n :: p'))) g n)
    with (match GetNode g n with
          | None => Some ([], LandMissing n)
          | Some node =>
              match GetType node with
              | NodeTypeExecutor => Some ([n], LandWork TopicExecutorWork node)
              | NodeTypeRouter => Some ([n], LandWork TopicRouterWork node)
              | NodeTypeEnd => Some ([n], LandEnd)
              | NodeTypeStart =>
                  if decide (findNextNode g n = "") then Some ([n], LandStop)
                  else match dispatch_route (S (length p')) g (findNextNode g n) with
                       | Some (p, l) => Some (n :: p, l)
                       | None => None
                       end
              end
          end).
  rewrite Hnode, Hty. rewrite decide_False by done. by rewrite Hr.
Qed.

(** A node on a route starts a route of its own, a suffix of the first. *)
Lemma dispatch_route_suffix fuel : ∀ g n p l k,
  dispatch_route fuel g n = Some (p, l) → k ∈ p →
  ∃ p1 p2, p = p1 ++ p2 ∧ dispatch_route fuel g k = Some (p2, l).
Proof.
  induction fuel as [|fuel IH]; intros g n p l k H Hk; [done|].
  pose proof H as Hfull.
  simpl in H. destruct (GetNode g n) as [node|] eqn:Hnode.
  2:{ injection H as <- <-. by apply elem_of_nil in Hk. }
  destruct (GetType node) eqn:Hty;
    try (injection H as <- <-; apply list_elem_of_singleton in Hk as ->;
         by exists [], [n]).
  destruct (decide (findNextNode g n = "")) as [Hn|Hn].
  { injection H as <- <-. apply list_elem_of_singleton in Hk as ->. by exists [], [n]. }
  destruct (dispatch_route fuel g (findNextNode g n)) as [[p' l']|] eqn:Hr; [|done].
  injection H as <- <-. apply elem_of_cons in Hk as [->|Hk].
  - by exists [], (n :: p').
  - destruct (IH _ _ _ _ _ Hr Hk) as (p1 & p2 & -> & Hk2).
    exists (n :: p1), p2. split; [done|]. by apply dispatch_route_S.
Qed.

Lemma dispatch_route_NoDup fuel : ∀ g n p l,
  dispatch_route fuel g n = Some (p, l) → NoDup p.
Proof.
  induction fuel as [|fuel IH]; intros g n p l H; [done|].
  pose proof H as Hfull.
  simpl in H. destruct (GetNode g n) as [node|] eqn:Hnode.
  2:{ injection H as <- <-. constructor. }
  destruct (GetType node) eqn:Hty;
    try (injection H as <- <-; apply NoDup_singleton).
  destruct (decide (findNextNode g n = "")) as [Hn|Hn].
  { injection H as <- <-. apply NoDup_singleton. }
  destruct (dispatch_route fuel g (findNextNode g n)) as [[p' l']|] eqn:Hr; [|done].
  injection H as <- <-. constructor; [|by eapply IH].
  intros Hin. destruct (dispatch_route_suffix _ _ _ _ _ _ Hr Hin) as (p1 & p2 & -> & Hk).
  pose proof (dispatch_route_agree _ _ _ _ _ _ Hk Hfull) as Heq.
  injection Heq as Heq. apply (f_equal length) in Heq.
  rewrite length_cons, length_app in Heq. lia.
Qed.

Lemma dispatch_route_short fuel g n p l :
  dispatch_route fuel g n = Some (p, l) → length p ≤ size (Nodes g).
Proof.
  intros H. rewrite <- (length_map_to_list (Nodes g)), <- (length_fmap fst).
  apply submseteq_length, NoDup_submseteq; [by eapply dispatch_route_NoDup|].
  intros k Hk. destruct (dispatch_route_nodes _ _ _ _ _ H k Hk) as [node Hnode].
  apply list_elem_of_fmap. exists (k, node). split; [done|]. by apply elem_of_map_to_list.
Qed.

(** A dispatch that returns has a route. *)
Lemma publishNodeWork_has_route env fuel : ∀ gid n st w r w',
  publishNodeWork env fuel gid n st w = Done r w' →
  is_Some (dispatch_route fuel (SGraph st) n).
Proof.
  induction fuel as [|fuel IH]; intros gid n st w r w' Hrun; [done|].
  simpl in Hrun. simpl. destruct (GetNode (SGraph st) n) as [node|]; [|eauto].
  destruct (GetType node) eqn:Hty; eauto.
  destruct (NodeStates st !! n) as [ns|]; [|done].
  unfold bind at 1, time_Now at 1, bind at 1 in Hrun.
  destruct (SaveState env _ _) as [b w1| |]; try done.
  unfold bind at 1 in Hrun.
  destruct (when (negb b) _ w1) as [[] w2| |]; try done.
  destruct (decide (findNextNode (SGraph st) n = "")); [eauto|].
  apply IH in Hrun as [[p l] Hr]. simpl in Hr. rewrite Hr. eauto.
Qed.

(** With a route at both fuels the outcome is the same. *)
Lemma publishNodeWork_fuel_irrelevant env fuel : ∀ fuel' gid n st w,
  is_Some (dispatch_route fuel (SGraph st) n) →
  is_Some (dispatch_route fuel' (SGraph st) n) →
  publishNodeWork env fuel gid n st w = publishNodeWork env fuel' gid n st w.
Proof.
  induction fuel as [|fuel IH]; intros fuel' gid n st w [r H] [r' H']; [done|].
  destruct fuel' as [|fuel']; [done|].
  simpl in H, H'. simpl.
  destruct (GetNode (SGraph st) n) as [node|]; [|done].
  destruct (NodeStates st !! n) as [ns|]; [|done].
  unfold bind, time_Now, SaveState, when, log, modify, ret. simpl.
  destruct (save_ok env _); simpl; (destruct (GetType node); try done);
    (destruct (decide (findNextNode (SGraph st) n = "")); [done|]);
    apply IH; simpl.
  all: first [ by destruct (dispatch_route fuel (SGraph st) _)
             | by destruct (dispatch_route fuel' (SGraph st) _) ].
Qed.

(** X15. The recursion of [publishNodeWork] through start nodes is no
    deeper than the graph has nodes, or it never ends: a dispatch that
    returns at all returns the same result, in the same world, within
    |nodes| + 1 calls.  (A cycle of start nodes, which the validator
    accepts, is the case where it never returns.) *)
Theorem dispatch_returns_within_graph_size env fuel gid n st w r w' :
  publishNodeWork env fuel gid n st w = Done r w' →
  publishNodeWork env (S (size (Nodes (SGraph st)))) gid n st w = Done r w'.
Proof.
  intros Hrun. pose proof (publishNodeWork_has_route _ _ _ _ _ _ _ _ Hrun) as Hroute.
  rewrite <- Hrun. apply publishNodeWork_fuel_irrelevant; [|exact Hroute].
  destruct Hroute as [[p l] Hr]. exists (p, l).
  apply (dispatch_route_le (S (length p))); [|by eapply dispatch_route_min].
  apply le_n_S. by eapply dispatch_route_short.
Qed.

Lemma dispatch_returns_within_graph_size_witness :
  let st := initial_state (uuid_of 0) g_linear ∅ 0 in
  size (Nodes (SGraph st)) = 3
  ∧ ∃ w', publishNodeWork env_ok 7 (uuid_of 0) "A" st init_world = Done None w'
      ∧ publishNodeWork env_ok 4 (uuid_of 0) "A" st init_world = Done None w'.
Proof.
  intros st. split; [reflexivity|].
  destruct (publishNodeWork env_ok 7 (uuid_of 0) "A" st init_world) as [r w'| |] eqn:Hrun;
    [|by vm_compute in Hrun..].
  assert (Hr : r = None) by (revert Hrun; vm_compute; by intros [= <- _]).
  subst r. exists w'. split; [reflexivity|].
  exact (dispatch_returns_within_graph_size env_ok 7 (uuid_of 0) "A" st init_world
           None w' Hrun).
Defined.

(** ** What a submission puts on the bus *)

Lemma publishNodeWork_trace env fuel : ∀ gid n st w p topic node,
  store_reliable env → bus_reliable env → covered st →
  dispatch_route fuel (SGraph st) n = Some (p, LandWork topic node) →
  ∃ k w',
    last p = Some k
    ∧ publishNodeWork env fuel gid n st w = Done None w'
    ∧ bus w' = bus w ++
        [(topic, work_event (uuid_of (uuids w)) (clock w + length p) gid k
                   (NodeType_string (GetType node)) (mark_running p (clock w) st));
         (TopicGraphEvents,
          {| EvID := uuid_of (S (uuids w)); EvType := EventTypeNodeStarted;
             Timestamp := S (clock w + length p); ExecutionID := gid;
             Data := {[ "node_id" := AValue (VString k) ]} |})]
    ∧ metrics w' = metrics w.
Proof.
  induction fuel as [|fuel IH]; intros gid n st w p topic node Hstore Hbus Hcov Hroute;
    [done|].
  pose proof Hstore as [Hsave _].
  simpl in Hroute. destruct (GetNode (SGraph st) n) as [nd|] eqn:Hnode; [|done].
  destruct (Hcov n) as [ns Hns]; [unfold GetNode in Hnode; eauto|].
  rewrite (publishNodeWork_step env fuel gid n st w nd ns Hnode Hns (Hsave _)).
  set (st1 := set_node_state n (set_node_running (clock w) ns) st).
  assert (Hmark : mark_running [n] (clock w) st = st1) by (simpl; by rewrite Hns).
  unfold bus_reliable in Hbus.
  destruct (GetType nd) eqn:Hty; try done.
  - destruct (decide (findNextNode (SGraph st) n = "")) as [|Hnext]; [done|].
    destruct (dispatch_route fuel (SGraph st) (findNextNode (SGraph st) n))
      as [[p' l']|] eqn:Hr; [|done].
    injection Hroute as <- ->.
    destruct (IH gid (findNextNode (SGraph st) n) st1
                (with_store (insert (GraphID st) st1) (with_clock S w)) p' topic node
                Hstore Hbus) as (k & w' & Hlast & Hrun & Hb & Hm).
    { by apply covered_set_node_state. }
    { exact Hr. }
    exists k, w'. split.
    { destruct p' as [|m p']; [done|]. exact Hlast. }
    split; [exact Hrun|]. split; [|exact Hm].
    rewrite Hb. simpl bus. simpl uuids. simpl clock. simpl mark_running. rewrite Hns.
    fold st1. simpl length.
    replace (S (clock w) + length p') with (clock w + S (length p')) by lia.
    reflexivity.
  - injection Hroute as <- <- <-. exists n. unfold publish_work. munfold. simpl.
    rewrite !Hbus. simpl. eexists. split; [done|]. split; [reflexivity|]. simpl.
    rewrite Hns. fold st1. rewrite Hty, <- app_assoc, Nat.add_1_r. done.
  - injection Hroute as <- <- <-. exists n. unfold publish_work. munfold. simpl.
    rewrite !Hbus. simpl. eexists. split; [done|]. split; [reflexivity|]. simpl.
    rewrite Hns. fold st1. rewrite Hty, <- app_assoc, Nat.add_1_r. done.
Qed.

(** X16. A submission whose entry dispatch lands on an executor or a
    router (directly, or through start nodes), with a store and a bus that
    take everything, publishes exactly three events, in this order: the
    GraphSubmitted notice on "graph.events", the work envelope of the node
    reached on the topic of its type, and the NodeStarted notice for that
    node on "graph.events".  The envelope carries the inputs and a snapshot
    of the node states that equals the stored record's, with the node
    already Running; the submitted counter moves once. *)
Theorem submit_publishes_in_order env fuel g inputs w p topic node :
  Validate g = None →
  store_reliable env →
  bus_reliable env →
  dispatch_route fuel g (EntryNode g) = Some (p, LandWork topic node) →
  let gid := uuid_of (uuids w) in
  ∃ k st' w' envelope notice,
    last p = Some k
    ∧ SubmitGraph env fuel g inputs w = Done (gid, None) w'
    ∧ store w' !! gid = Some st'
    ∧ bus w' = bus w ++ [(TopicGraphEvents, submitted_event w g);
                         (topic, envelope); (TopicGraphEvents, notice)]
    ∧ EvType envelope = EventTypeNodeWork
    ∧ ExecutionID envelope = gid
    ∧ Data envelope !! "node_id" = Some (AValue (VString k))
    ∧ Data envelope !! "state" = Some (AMap inputs)
    ∧ Data envelope !! "node_state" = Some (ANodeStates (NodeStates st'))
    ∧ (NStatus <$> NodeStates st' !! k) = Some ExecutionStatusRunning
    ∧ EvType notice = EventTypeNodeStarted
    ∧ ExecutionID notice = gid
    ∧ Data notice = {[ "node_id" := AValue (VString k) ]}
    ∧ metrics w' = metrics w ++ [RecordGraphSubmitted ExecutionStatusSubmitted].
Proof.
  intros Hv Hstore Hbus Hroute gid.
  pose proof Hstore as [Hsave _].
  set (st0 := initial_state gid g inputs (clock w)).
  rewrite (SubmitGraph_accepted _ _ _ _ _ Hv (Hsave _) (Hbus _ _)).
  fold gid. fold st0.
  destruct (publishNodeWork_trace env fuel gid (EntryNode g) st0 (tracked_world w g inputs)
              p topic node Hstore Hbus (initial_state_covered _ _ _ _) Hroute)
    as (k & w1 & Hlast & Hrun & Hb & Hm).
  destruct (publishNodeWork_route env fuel gid (EntryNode g) st0 (tracked_world w g inputs)
              p (LandWork topic node) Hsave (initial_state_covered _ _ _ _) Hroute)
    as (r & w1' & Hrun' & Hst & _).
  rewrite Hrun in Hrun'. injection Hrun' as <- <-.
  assert (Hp : p ≠ []) by (intros ->; done).
  assert (Hstored : store w1 !! gid
                    = Some (mark_running p (S (S (S (clock w)))) st0)).
  { rewrite Hst. destruct p; [done|]. simpl store. apply lookup_insert_eq. }
  assert (Hk : k ∈ p) by (by apply last_Some_elem_of).
  destruct (mark_running_in p (S (S (S (clock w)))) st0 k) as (ns & Hns & Hrunning & _);
    [|exact Hk|].
  { intros k' Hk'. apply initial_state_covered. simpl.
    by eapply dispatch_route_nodes. }
  exists k, (mark_running p (S (S (S (clock w)))) st0), w1. do 2 eexists.
  unfold bind. rewrite Hrun. split; [exact Hlast|]. split; [reflexivity|].
  split; [exact Hstored|]. split.
  { rewrite Hb. simpl bus. rewrite <- app_assoc. reflexivity. }
  simpl. split_and!; try done.
  - destruct (mark_running_fields p (S (S (S (clock w)))) st0) as (_ & _ & _ & -> & _).
    done.
  - by rewrite Hns, <- Hrunning.
Qed.

Lemma submit_publishes_in_order_witness :
  Validate g_linear = None
  ∧ store_reliable env_ok
  ∧ bus_reliable env_ok
  ∧ dispatch_route 2 g_linear (EntryNode g_linear)
    = Some (["A"; "B"], LandWork TopicExecutorWork (mkNode NodeTypeExecutor))
  ∧ ∃ w' envelope notice,
      SubmitGraph env_ok 2 g_linear ∅ init_world = Done (uuid_of 0, None) w'
      ∧ bus w' = [(TopicGraphEvents, submitted_event init_world g_linear);
                  (TopicExecutorWork, envelope); (TopicGraphEvents, notice)]
      ∧ Data envelope !! "node_id" = Some (AValue (VString "B"))
      ∧ EvType notice = EventTypeNodeStarted.
Proof.
  assert (Hs : store_reliable env_ok) by (split; intros; reflexivity).
  assert (Hb : bus_reliable env_ok) by (intros ? ?; reflexivity).
  split; [reflexivity|]. split; [exact Hs|]. split; [exact Hb|]. split; [reflexivity|].
  destruct (submit_publishes_in_order env_ok 2 g_linear ∅ init_world ["A"; "B"]
              TopicExecutorWork (mkNode NodeTypeExecutor) eq_refl Hs Hb eq_refl)
    as (k & st' & w' & envelope & notice & Hlast & Hrun & _ & Hbus & _ & _ & Hid & _ & _ & _
        & Hty & _).
  injection Hlast as <-.
  exists w', envelope, notice. split; [exact Hrun|]. split; [exact Hbus|].
  split; [exact Hid | exact Hty].
Defined.

(** ** The REST handlers *)

Lemma GetStatus_stored env gid w st :
  get_ok env gid = true → store w !! gid = Some st →
  GetStatus env gid w = Done (Some st, None) w.
Proof. intros Hg Hs. unfold GetStatus, bind, GetState, ret. by rewrite Hg, Hs. Qed.

(** X17. The cancel endpoint has no 404.  In every world the manager can
    reach, POST /graphs/:id/cancel for an id that has no record, or whose
    record is already Completed, Failed or Cancelled, is answered 409
    CANCELLATION_FAILED with the message of "execution not found", and
    changes nothing. *)
Theorem cancel_endpoint_conflict_for_unknown_or_finished env gid w :
  reachable env w →
  (∀ st, store w !! gid = Some st → is_terminal (Status st) = true) →
  HTTP.handleCancelGraph env gid w
  = Done {| HTTP.StatusCode := 409;
            HTTP.ResponseBody :=
              HTTP.ErrorResponse "CANCELLATION_FAILED"
                (HTTP.MsgError (ErrExecutionNotFound gid)) |} w.
Proof.
  intros Hr Hdone. pose proof (reachable_inv _ _ Hr) as Hinv.
  assert (Hx : executions w !! gid = None).
  { destruct (executions w !! gid) as [x|] eqn:Hx; [|done].
    destruct (reachable_tracker _ _ Hr gid x Hx) as (_ & [st Hst] & _).
    pose proof (inv_terminal_untracked w Hinv gid st Hst (Hdone st Hst)). congruence. }
  unfold HTTP.handleCancelGraph, bind. by rewrite (cancel_untracked env gid w Hx).
Qed.

Lemma cancel_endpoint_conflict_for_unknown_or_finished_witness :
  reachable env_ok w_completed
  ∧ store w_completed !! "no-such-execution" = None
  ∧ HTTP.handleCancelGraph env_ok "no-such-execution" w_completed
    = Done {| HTTP.StatusCode := 409;
              HTTP.ResponseBody :=
                HTTP.ErrorResponse "CANCELLATION_FAILED"
                  (HTTP.MsgError (ErrExecutionNotFound "no-such-execution")) |} w_completed.
Proof.
  assert (Hno : store w_completed !! "no-such-execution" = None) by (vm_compute; reflexivity).
  split; [exact w_completed_reachable|]. split; [exact Hno|].
  apply (cancel_endpoint_conflict_for_unknown_or_finished env_ok "no-such-execution"
           w_completed w_completed_reachable).
  intros st Hst. rewrite Hno in Hst. discriminate.
Defined.





Lemma mark_running_StartedAt p : ∀ t st,
  StartedAt (mark_running p t st) = StartedAt st.
Proof.
  induction p as [|n p IH]; intros t st; simpl; [done|].
  destruct (NodeStates st !! n); [|done]. by rewrite IH.
Qed.

(** X19. What POST /graphs returns can be fetched.  For a graph the
    validator accepts, with a store that answers, a bus that takes the
    GraphSubmitted notice and an entry dispatch that comes to rest, the
    submission is answered 201 with the minted id and status "submitted";
    GET /graphs/:id for that id then answers 200 with a record that embeds
    the submitted graph and inputs, and GET /graphs/:id/status answers 200
    with status running (completed, if the dispatch reached an end node),
    [submitted_at] the time of the submission and no [started_at]. *)
Theorem submitted_graph_is_retrievable env fuel g inputs w p l :
  Validate g = None →
  store_reliable env →
  publish_ok env TopicGraphEvents (submitted_event w g) = true →
  dispatch_route fuel g (EntryNode g) = Some (p, l) →
  let gid := uuid_of (uuids w) in
  ∃ st' w',
    HTTP.handleSubmitGraph env fuel (Some (g, inputs)) w
    = Done {| HTTP.StatusCode := 201;
              HTTP.ResponseBody := HTTP.GraphSubmitResponse gid "submitted" "" |} w'
    ∧ HTTP.handleGetGraph env gid w'
      = Done {| HTTP.StatusCode := 200; HTTP.ResponseBody := HTTP.StateBody st' |} w'
    ∧ GraphID st' = gid ∧ SGraph st' = g ∧ Inputs st' = inputs
    ∧ HTTP.handleGetStatus env gid w'
      = Done {| HTTP.StatusCode := 200;
                HTTP.ResponseBody :=
                  HTTP.StatusBody gid
                    (match l with
                     | LandEnd => ExecutionStatusCompleted
                     | _ => ExecutionStatusRunning
                     end)
                    (clock w) None (CompletedAt st') |} w'.
Proof.
  intros Hv [Hsave Hget] Hp Hroute gid.
  destruct (SubmitGraph_route env fuel g inputs w p l Hv Hsave Hp Hroute)
    as (w' & Hrun & Hs & _).
  set (st0 := initial_state gid g inputs (clock w)) in *.
  set (st' := route_final p l (S (S (S (clock w)))) st0) in *.
  assert (Hst' : store w' !! gid = Some st') by (rewrite Hs; apply lookup_insert_eq).
  destruct (mark_running_fields p (S (S (S (clock w)))) st0)
    as (Hf1 & Hf2 & Hf3 & Hf4 & Hf5 & Hf6 & Hf7).
  assert (Hfields : GraphID st' = gid ∧ SGraph st' = g ∧ Inputs st' = inputs
                    ∧ SubmittedAt st' = clock w
                    ∧ Status st' = match l with
                                   | LandEnd => ExecutionStatusCompleted
                                   | _ => ExecutionStatusRunning
                                   end).
  { unfold st', route_final. destruct l; simpl; rewrite ?Hf1, ?Hf2, ?Hf3, ?Hf4, ?Hf5; done. }
  destruct Hfields as (Hg & Hgraph & Hin & Hsub & Hstatus).
  assert (Hstarted : StartedAt st' = None).
  { unfold st', route_final. destruct l; simpl; by rewrite mark_running_StartedAt. }
  exists st', w'. split; [|split; [|split_and!; try done]].
  - unfold HTTP.handleSubmitGraph, bind. by rewrite Hrun.
  - unfold HTTP.handleGetGraph, bind. by rewrite (GetStatus_stored _ _ _ _ (Hget gid) Hst').
  - unfold HTTP.handleGetStatus, bind.
    rewrite (GetStatus_stored _ _ _ _ (Hget gid) Hst'). simpl.
    by rewrite Hg, Hstatus, Hsub, Hstarted.
Qed.

Lemma submitted_graph_is_retrievable_witness :
  Validate g_single = None
  ∧ store_reliable env_ok
  ∧ dispatch_route 1 g_single (EntryNode g_single)
    = Some (["a"], LandWork TopicExecutorWork (mkNode NodeTypeExecutor))
  ∧ ∃ st' w',
      HTTP.handleSubmitGraph env_ok 1 (Some (g_single, ∅)) init_world
      = Done {| HTTP.StatusCode := 201;
                HTTP.ResponseBody :=
                  HTTP.GraphSubmitResponse (uuid_of 0) "submitted" "" |} w'
      ∧ HTTP.handleGetGraph env_ok (uuid_of 0) w'
        = Done {| HTTP.StatusCode := 200; HTTP.ResponseBody := HTTP.StateBody st' |} w'
      ∧ SGraph st' = g_single.
Proof.
  assert (Hs : store_reliable env_ok) by (split; intros; reflexivity).
  split; [reflexivity|]. split; [exact Hs|]. split; [reflexivity|].
  destruct (submitted_graph_is_retrievable env_ok 1 g_single ∅ init_world ["a"]
              (LandWork TopicExecutorWork (mkNode NodeTypeExecutor))
              eq_refl Hs eq_refl eq_refl)
    as (st' & w' & Hpost & Hget & _ & Hg & _).
  exists st', w'. split; [exact Hpost|]. split; [exact Hget | exact Hg].
Defined.

(** ** The in-memory state storage *)

Lemma memory_SaveState_effect m p r :
  MemoryStorage.recs m !! p = Some r →
  MemoryStorage.SaveState (MemoryStorage.IGraphState (Some p)) m
  = MemoryStorage.Saved
      {| MemoryStorage.recs := <[MemoryStorage.next m := r]> (MemoryStorage.recs m);
         MemoryStorage.nodeMaps := MemoryStorage.nodeMaps m;
         MemoryStorage.nodes := MemoryStorage.nodes m;
         MemoryStorage.stateMaps := MemoryStorage.stateMaps m;
         MemoryStorage.states :=
           <[MemoryStorage.rGraphID r :=
               MemoryStorage.IGraphState (Some (MemoryStorage.next m))]>
             (MemoryStorage.states m);
         MemoryStorage.next := S (MemoryStorage.next m) |}.
Proof. intros Hp. unfold MemoryStorage.SaveState. by rewrite Hp. Qed.

Lemma memory_read_record_inv m p gs :
  MemoryStorage.read_record m p = Some gs →
  ∃ r nm, MemoryStorage.recs m !! p = Some r
    ∧ MemoryStorage.nodeMaps m !! MemoryStorage.rNodeStates r = Some nm
    ∧ GraphID gs = MemoryStorage.rGraphID r
    ∧ Status gs = MemoryStorage.rStatus r
    ∧ NodeStates gs = omap (λ l, MemoryStorage.nodes m !! l) nm.
Proof.
  unfold MemoryStorage.read_record.
  destruct (MemoryStorage.recs m !! p) as [r|] eqn:Hr; simpl; [|done].
  destruct (MemoryStorage.nodeMaps m !! MemoryStorage.rNodeStates r) as [nm|] eqn:Hnm;
    simpl; [|done].
  intros [= <-]. by exists r, nm.
Qed.

(** X20. [SaveState] then [GetState] is a round trip: for a record the
    caller holds at [p], [SaveState] succeeds, and [GetState] under the
    record's [GraphID] returns a pointer to a copy at a fresh location that
    reads as the same record; the caller's record is untouched. *)
Theorem memory_SaveState_GetState_roundtrip m p gs :
  MemoryStorage.allocated m →
  MemoryStorage.read_record m p = Some gs →
  ∃ m' q,
    MemoryStorage.SaveState (MemoryStorage.IGraphState (Some p)) m = MemoryStorage.Saved m'
    ∧ MemoryStorage.GetState (GraphID gs) m'
      = (Some (MemoryStorage.IGraphState (Some q)), None)
    ∧ q ≠ p
    ∧ MemoryStorage.read_record m' q = Some gs
    ∧ MemoryStorage.read_record m' p = Some gs.
Proof.
  intros Halloc Hread.
  destruct (memory_read_record_inv _ _ _ Hread) as (r & nm & Hr & Hnm & Hid & _).
  assert (Hlt : p < MemoryStorage.next m) by (apply Halloc; eauto).
  rewrite (memory_SaveState_effect _ _ _ Hr).
  do 2 eexists. split; [reflexivity|]. split_and!.
  - unfold MemoryStorage.GetState. simpl. by rewrite Hid, lookup_insert_eq.
  - lia.
  - revert Hread. unfold MemoryStorage.read_record. simpl.
    by rewrite lookup_insert_eq, Hr.
  - revert Hread. unfold MemoryStorage.read_record. simpl.
    rewrite lookup_insert_ne by lia. done.
Qed.

Lemma sample_mem_allocated : MemoryStorage.allocated MemoryStorage.sample_mem.
Proof.
  intros p [r Hr]. simpl in *. destruct p as [|p]; [lia|].
  rewrite lookup_singleton_ne in Hr by done. done.
Qed.

Lemma sample_mem_record :
  MemoryStorage.read_record MemoryStorage.sample_mem 0
  = Some {| GraphID := "x"; SGraph := g_single; Status := ExecutionStatusRunning;
            Inputs := ∅;
            NodeStates := {[ "a" := set_node_running 1 (pending_node "a") ]};
            SubmittedAt := 0; StartedAt := None; CompletedAt := None; Error := "" |}.
Proof. vm_compute. reflexivity. Qed.

Lemma memory_SaveState_GetState_roundtrip_witness :
  MemoryStorage.allocated MemoryStorage.sample_mem
  ∧ ∃ gs m' q,
      MemoryStorage.read_record MemoryStorage.sample_mem 0 = Some gs
      ∧ MemoryStorage.SaveState (MemoryStorage.IGraphState (Some 0)) MemoryStorage.sample_mem
        = MemoryStorage.Saved m'
      ∧ MemoryStorage.GetState "x" m' = (Some (MemoryStorage.IGraphState (Some q)), None)
      ∧ MemoryStorage.read_record m' q = Some gs.
Proof.
  split; [exact sample_mem_allocated|].
  destruct (memory_SaveState_GetState_roundtrip MemoryStorage.sample_mem 0 _
              sample_mem_allocated sample_mem_record)
    as (m' & q & Hsave & Hget & _ & Hq & _).
  eexists _, m', q. split; [exact sample_mem_record|]. split; [exact Hsave|].
  split; [exact Hget | exact Hq].
Defined.

(** X21. The copy [SaveState] keeps is shallow.  After [SaveState] of the
    record at [p], an assignment to [Status] through [p] does not reach
    what [GetState] returns, but an assignment to the status of a node
    state through [p] does, without another [SaveState]: the stored copy
    shares the [NodeStates] map and the node states with the caller. *)
Theorem memory_copy_is_shallow m p gs n ns s :
  MemoryStorage.allocated m →
  MemoryStorage.read_record m p = Some gs →
  NodeStates gs !! n = Some ns →
  ∃ m' q,
    MemoryStorage.SaveState (MemoryStorage.IGraphState (Some p)) m = MemoryStorage.Saved m'
    ∧ MemoryStorage.GetState (GraphID gs) m'
      = (Some (MemoryStorage.IGraphState (Some q)), None)
    ∧ MemoryStorage.read_record (MemoryStorage.assign_status p s m') q = Some gs
    ∧ (Status <$> MemoryStorage.read_record (MemoryStorage.assign_status p s m') p) = Some s
    ∧ ∃ gs', MemoryStorage.read_record (MemoryStorage.assign_node_status p n s m') q = Some gs'
        ∧ Status gs' = Status gs
        ∧ (NStatus <$> NodeStates gs' !! n) = Some s.
Proof.
  intros Halloc Hread Hn.
  destruct (memory_read_record_inv _ _ _ Hread) as (r & nm & Hr & Hnm & Hid & Hst & Hns).
  assert (Hlt : p < MemoryStorage.next m) by (apply Halloc; eauto).
  rewrite (memory_SaveState_effect _ _ _ Hr).
  do 2 eexists. split; [reflexivity|]. split_and!.
  - unfold MemoryStorage.GetState. simpl. by rewrite Hid, lookup_insert_eq.
  - revert Hread. unfold MemoryStorage.read_record. simpl.
    rewrite lookup_alter_ne by lia. by rewrite lookup_insert_eq, Hr.
  - unfold MemoryStorage.read_record. simpl.
    rewrite lookup_alter_eq, lookup_insert_ne by lia. rewrite Hr. simpl. by rewrite Hnm.
  - rewrite Hns, lookup_omap in Hn.
    destruct (nm !! n) as [l|] eqn:Hl; simpl in Hn; [|done].
    unfold MemoryStorage.assign_node_status, MemoryStorage.read_record. simpl.
    rewrite lookup_insert_ne by lia. rewrite Hr. simpl. rewrite Hnm. simpl. rewrite Hl.
    simpl. rewrite lookup_insert_eq. simpl. rewrite Hnm. simpl.
    eexists. split; [reflexivity|]. simpl. split; [done|].
    rewrite lookup_omap, Hl. simpl. rewrite lookup_alter_eq, Hn. done.
Qed.

Lemma memory_copy_is_shallow_witness :
  MemoryStorage.allocated MemoryStorage.sample_mem
  ∧ ∃ m' q gs',
      MemoryStorage.SaveState (MemoryStorage.IGraphState (Some 0)) MemoryStorage.sample_mem
      = MemoryStorage.Saved m'
      ∧ MemoryStorage.GetState "x" m' = (Some (MemoryStorage.IGraphState (Some q)), None)
      ∧ MemoryStorage.read_record
          (MemoryStorage.assign_node_status 0 "a" ExecutionStatusFailed m') q = Some gs'
      ∧ (NStatus <$> NodeStates gs' !! "a") = Some ExecutionStatusFailed.
Proof.
  split; [exact sample_mem_allocated|].
  destruct (memory_copy_is_shallow MemoryStorage.sample_mem 0 _ "a"
              (set_node_running 1 (pending_node "a")) ExecutionStatusFailed
              sample_mem_allocated sample_mem_record eq_refl)
    as (m' & q & Hsave & Hget & _ & _ & gs' & Hread & _ & Hnode).
  exists m', q, gs'. split; [exact Hsave|]. split; [exact Hget|].
  split; [exact Hread | exact Hnode].
Defined.

(** X22. [GetState] hands out the stored pointer itself, not a copy: an
    assignment to [Status] through the pointer it returned changes what the
    next [GetState] under the same id reads, with no [SaveState] in
    between. *)
Theorem memory_GetState_returns_the_stored_record m id q gs s :
  MemoryStorage.GetState id m = (Some (MemoryStorage.IGraphState (Some q)), None) →
  MemoryStorage.read_record m q = Some gs →
  MemoryStorage.GetState id (MemoryStorage.assign_status q s m)
  = (Some (MemoryStorage.IGraphState (Some q)), None)
  ∧ ∃ gs', MemoryStorage.read_record (MemoryStorage.assign_status q s m) q = Some gs'
      ∧ Status gs' = s
      ∧ NodeStates gs' = NodeStates gs.
Proof.
  intros Hget Hread. split; [exact Hget|].
  destruct (memory_read_record_inv _ _ _ Hread) as (r & nm & Hr & Hnm & _ & _ & Hns).
  unfold MemoryStorage.read_record. simpl. rewrite lookup_alter_eq, Hr. simpl.
  rewrite Hnm. simpl. eexists. split; [reflexivity|]. simpl. by rewrite Hns.
Qed.

Lemma sample_mem_saved :
  ∃ m q gs,
    MemoryStorage.GetState "x" m = (Some (MemoryStorage.IGraphState (Some q)), None)
    ∧ MemoryStorage.read_record m q = Some gs
    ∧ Status gs = ExecutionStatusRunning.
Proof.
  destruct (MemoryStorage.SaveState (MemoryStorage.IGraphState (Some 0))
              MemoryStorage.sample_mem) as [m| |] eqn:Hsave; [|by vm_compute in Hsave..].
  exists m, 1. eexists. revert Hsave. vm_compute. intros [= <-].
  split; [reflexivity|]. split; reflexivity.
Defined.

Lemma memory_GetState_returns_the_stored_record_witness :
  ∃ m q gs gs',
    MemoryStorage.GetState "x" m = (Some (MemoryStorage.IGraphState (Some q)), None)
    ∧ MemoryStorage.read_record m q = Some gs
    ∧ Status gs = ExecutionStatusRunning
    ∧ MemoryStorage.read_record (MemoryStorage.assign_status q ExecutionStatusCancelled m) q
      = Some gs'
    ∧ Status gs' = ExecutionStatusCancelled.
Proof.
  destruct (sample_mem_saved) as (m & q & gs & Hget & Hread & Hs).
  destruct (memory_GetState_returns_the_stored_record m "x" q gs ExecutionStatusCancelled
              Hget Hread) as (_ & gs' & Hread' & Hs' & _).
  exists m, q, gs, gs'. split; [exact Hget|]. split; [exact Hread|]. split; [exact Hs|].
  split; [exact Hread' | exact Hs'].
Defined.

(** X23. [Save]/[Load] and [SaveState]/[GetState] write into one map but
    do not read each other's values.  A graph state stored by [SaveState]
    cannot be [Load]ed: [Load] under its id fails with "invalid state type
    in storage".  A [Save] under that id replaces it, after which [Load]
    returns the saved state and [GetState] returns that [state.State], not
    a graph state. *)
Theorem memory_typed_apis_do_not_mix m p r st :
  MemoryStorage.recs m !! p = Some r →
  ∃ m',
    MemoryStorage.SaveState (MemoryStorage.IGraphState (Some p)) m = MemoryStorage.Saved m'
    ∧ MemoryStorage.Load (MemoryStorage.rGraphID r) m'
      = (None, Some MemoryStorage.ErrInvalidTypeInStorage)
    ∧ MemoryStorage.Load (MemoryStorage.rGraphID r)
        (MemoryStorage.Save (MemoryStorage.rGraphID r) st m').1
      = (Some st, None)
    ∧ MemoryStorage.GetState (MemoryStorage.rGraphID r)
        (MemoryStorage.Save (MemoryStorage.rGraphID r) st m').1
      = (Some (MemoryStorage.IState st), None).
Proof.
  intros Hr. rewrite (memory_SaveState_effect _ _ _ Hr).
  eexists. split; [reflexivity|].
  unfold MemoryStorage.Load, MemoryStorage.GetState, MemoryStorage.Save. simpl.
  rewrite !lookup_insert_eq. done.
Qed.

Lemma memory_typed_apis_do_not_mix_witness :
  ∃ r m',
    MemoryStorage.recs MemoryStorage.sample_mem !! 0 = Some r
    ∧ MemoryStorage.rGraphID r = "x"
    ∧ MemoryStorage.SaveState (MemoryStorage.IGraphState (Some 0)) MemoryStorage.sample_mem
      = MemoryStorage.Saved m'
    ∧ MemoryStorage.Load "x" m' = (None, Some MemoryStorage.ErrInvalidTypeInStorage).
Proof.
  destruct (MemoryStorage.recs MemoryStorage.sample_mem !! 0) as [r|] eqn:Hr;
    [|by vm_compute in Hr].
  assert (Hid : MemoryStorage.rGraphID r = "x").
  { revert Hr. vm_compute. by intros [= <-]. }
  destruct (memory_typed_apis_do_not_mix MemoryStorage.sample_mem 0 r 0 Hr)
    as (m' & Hsave & Hload & _).
  exists r, m'. split; [reflexivity|]. split; [exact Hid|]. split; [exact Hsave|].
  rewrite <- Hid. exact Hload.
Defined.

(** X24. [Delete] never fails, also for an id that was never stored; after
    it the id does not exist, [GetState] under it reports "state not
    found", and every other id reads as before.  [List] returns each stored
    id exactly once (in no specified order), and after [Delete] it returns
    the same ids without the deleted one. *)
Theorem memory_Delete_and_List m id :
  let m' := (MemoryStorage.Delete id m).1 in
  (MemoryStorage.Delete id m).2 = None
  ∧ MemoryStorage.Exists id m' = (false, None)
  ∧ MemoryStorage.GetState id m' = (None, Some (MemoryStorage.ErrStateNotFound id))
  ∧ (∀ k, k ≠ id → MemoryStorage.GetState k m' = MemoryStorage.GetState k m)
  ∧ NoDup (MemoryStorage.List m).1
  ∧ (∀ k, k ∈ (MemoryStorage.List m).1 ↔ (MemoryStorage.Exists k m).1 = true)
  ∧ (∀ k, k ∈ (MemoryStorage.List m').1 ↔ k ≠ id ∧ k ∈ (MemoryStorage.List m).1).
Proof.
  assert (Hin : ∀ (s : gmap string MemoryStorage.Iface) k,
            k ∈ (map_to_list s).*1 ↔ is_Some (s !! k)).
  { intros s k. rewrite list_elem_of_fmap. split.
    - intros ([k' v] & -> & Hkv). apply elem_of_map_to_list in Hkv. eauto.
    - intros [v Hv]. exists (k, v). split; [done|]. by apply elem_of_map_to_list. }
  intros m'. unfold m', MemoryStorage.Delete, MemoryStorage.Exists, MemoryStorage.GetState,
    MemoryStorage.List. simpl. split_and!.
  - done.
  - rewrite lookup_delete_eq. rewrite bool_decide_eq_false_2; [done|]. by intros [? ?].
  - by rewrite lookup_delete_eq.
  - intros k Hk. by rewrite lookup_delete_ne.
  - apply NoDup_fst_map_to_list.
  - intros k. rewrite Hin. by rewrite bool_decide_eq_true.
  - intros k. rewrite !Hin. destruct (decide (k = id)) as [->|Hne].
    + rewrite lookup_delete_eq. split; [by intros [? ?] | by intros [? _]].
    + rewrite lookup_delete_ne by done. naive_solver.
Qed.

(** ** The in-memory event bus *)

Lemma unsubscribe_loop_finds_nothing rest : ∀ i handlers,
  MemoryBus.unsubscribe_loop i handlers rest = None.
Proof. induction rest as [|h rest IH]; intros i handlers; simpl; [done | apply IH]. Qed.

(** X25. A subscription to the in-memory bus outlives its context.  The
    clean-up that [Subscribe] schedules for the end of the context compares
    the addresses of two distinct variables, so it never removes anything:
    after it ran the bus is as before, and an event published on the topic
    still starts the handler.  For the manager, started on this bus: after
    the subscription context is cancelled (as [Shutdown] does), completion
    events are still delivered to [handleNodeCompleted]. *)
Theorem memory_bus_subscription_outlives_context b topic handler event :
  let b1 := (MemoryBus.Subscribe topic handler b).1 in
  MemoryBus.unsubscribe topic handler b1 = b1
  ∧ (handler, event) ∈ (MemoryBus.Publish topic event
                          (MemoryBus.unsubscribe topic handler b1)).1
  ∧ (MemoryBus.Start handler b).2 = None
  ∧ (handler, event)
      ∈ (MemoryBus.Publish TopicNodeCompleted event
           (MemoryBus.unsubscribe TopicNodeCompleted handler
              (MemoryBus.Start handler b).1)).1.
Proof.
  assert (Hno : ∀ t h b0, MemoryBus.unsubscribe t h b0 = b0).
  { intros t h b0. unfold MemoryBus.unsubscribe.
    by rewrite unsubscribe_loop_finds_nothing. }
  assert (Hin : ∀ t, (handler, event)
                     ∈ (MemoryBus.Publish t event (MemoryBus.Subscribe t handler b).1).1).
  { intros t. unfold MemoryBus.Publish, MemoryBus.Subscribe, MemoryBus.handlers_of.
    cbn [fst]. unfold MemoryBus.Bus, MemoryBus.Handler in *.
    rewrite lookup_insert_eq. simpl. rewrite fmap_app.
    apply elem_of_app. right. by apply list_elem_of_singleton. }
  intros b1. split_and!.
  - apply Hno.
  - rewrite Hno. apply Hin.
  - done.
  - rewrite Hno. apply (Hin TopicNodeCompleted).
Qed.

(** X26. What the in-memory bus delivers.  [Publish] starts the handlers of
    its topic once per subscription, in subscription order, and no handler
    of another topic: a further [Subscribe] adds one call at the end and
    leaves the other topics alone.  [Unsubscribe] is per topic, not per
    subscriber: after it nothing at all is delivered on the topic, whoever
    subscribed, while the other topics are as before; after [Close] nothing
    is delivered on any topic.  None of these calls returns an error. *)
Theorem memory_bus_delivery b topic handler event :
  (MemoryBus.Publish topic event (MemoryBus.Subscribe topic handler b).1).1
    = (MemoryBus.Publish topic event b).1 ++ [(handler, event)]
  ∧ (∀ t, t ≠ topic →
       MemoryBus.Publish t event (MemoryBus.Subscribe topic handler b).1
       = MemoryBus.Publish t event b)
  ∧ (MemoryBus.Publish topic event (MemoryBus.Unsubscribe topic b).1).1 = []
  ∧ (∀ t, t ≠ topic →
       MemoryBus.Publish t event (MemoryBus.Unsubscribe topic b).1
       = MemoryBus.Publish t event b)
  ∧ (∀ t, (MemoryBus.Publish t event (MemoryBus.Close b).1).1 = [])
  ∧ (MemoryBus.Publish topic event b).2 = None
  ∧ (MemoryBus.Subscribe topic handler b).2 = None
  ∧ (MemoryBus.Unsubscribe topic b).2 = None.
Proof.
  unfold MemoryBus.Publish, MemoryBus.Subscribe, MemoryBus.Unsubscribe, MemoryBus.Close,
    MemoryBus.handlers_of. cbn [fst snd]. unfold MemoryBus.Bus, MemoryBus.Handler in *.
  split_and!; try done.
  - rewrite lookup_insert_eq. simpl. by rewrite fmap_app.
  - intros t Ht. by rewrite lookup_insert_ne.
  - by rewrite lookup_delete_eq.
  - intros t Ht. by rewrite lookup_delete_ne.
Qed.

(** ** The Redis state storage *)

Lemma substring_all s : String.substring 0 (String.length s) s = s.
Proof. induction s as [|a s IH]; simpl; [done | by rewrite IH]. Qed.

Lemma execution_ids_of_state_keys ids :
  RedisStorage.execution_ids (RedisStorage.getStateKey <$> ids)
  = filter (λ id, id ≠ "") ids.
Proof.
  induction ids as [|id ids IH]; [done|].
  rewrite fmap_cons. cbn [RedisStorage.execution_ids]. rewrite IH.
  destruct id as [|a id].
  - rewrite decide_False by (vm_compute; lia). by rewrite filter_cons_False by naive_solver.
  - rewrite filter_cons_True by done.
    rewrite decide_True by (simpl; lia).
    f_equal. unfold RedisStorage.getStateKey, RedisStorage.prefix.
    simpl. by rewrite substring_all.
Qed.

(** X27. [List] undoes [getStateKey], except for the empty id: when the
    SCAN loop ends and what it collected are the state keys of the ids
    [ids], [List] returns those ids in the same order, without the empty
    one, whose key is no longer than the prefix and is skipped. *)
Theorem redis_List_inverts_getStateKey fuel scan ids :
  RedisStorage.scan_keys fuel scan 0 [] = Some (Some (RedisStorage.getStateKey <$> ids)) →
  RedisStorage.List fuel scan = RedisStorage.ListOk (filter (λ id, id ≠ "") ids).
Proof.
  intros Hscan. unfold RedisStorage.List. rewrite Hscan.
  by rewrite execution_ids_of_state_keys.
Qed.

Lemma redis_List_inverts_getStateKey_witness :
  RedisStorage.scan_keys 2 RedisStorage.sample_scan 0 []
  = Some (Some (RedisStorage.getStateKey <$> ["e1"; ""; "e2"]))
  ∧ RedisStorage.List 2 RedisStorage.sample_scan = RedisStorage.ListOk ["e1"; "e2"].
Proof.
  split; [reflexivity|].
  exact (redis_List_inverts_getStateKey 2 RedisStorage.sample_scan ["e1"; ""; "e2"] eq_refl).
Defined.

(** ** The worker pool's health *)

Lemma count_sum (m : gmap string Workers.WorkerStatus) :
  Workers.count Workers.WorkerStatusIdle m + Workers.count Workers.WorkerStatusBusy m
  + Workers.count Workers.WorkerStatusStopped m ≤ size m.
Proof.
  unfold Workers.count. rewrite <- (length_map_to_list m).
  induction (map_to_list m) as [|[k v] l IH]; simpl; [lia|].
  destruct (decide (v = Workers.WorkerStatusIdle)) as [->|Hi].
  { rewrite filter_cons_True by done.
    rewrite !(filter_cons_False _ _ l) by (simpl; discriminate). simpl. lia. }
  rewrite filter_cons_False by done.
  destruct (decide (v = Workers.WorkerStatusBusy)) as [->|Hb].
  { rewrite filter_cons_True by done.
    rewrite !(filter_cons_False _ _ l) by (simpl; discriminate). simpl. lia. }
  rewrite filter_cons_False by done.
  destruct (decide (v = Workers.WorkerStatusStopped)) as [->|Hs].
  { rewrite filter_cons_True by done. simpl. lia. }
  rewrite filter_cons_False by done. lia.
Qed.

(** X28. Whenever the health check warns that all workers are busy, it
    also warns that the pool is unhealthy: the counts of idle, busy and
    stopped workers never exceed the total, so a pool whose busy count
    equals its total has no idle worker.  (This includes the empty pool,
    for which both warnings are logged.) *)
Theorem all_busy_warning_comes_with_unhealthy p now lines figures :
  Workers.checkHealth p now = Some (lines, figures) →
  (LWarn, "all workers are busy - consider scaling up") ∈ lines →
  (LWarn, "worker pool is unhealthy") ∈ lines.
Proof.
  unfold Workers.checkHealth, Workers.HealthMonitor_GetStatus.
  destruct (Workers.GetStatus p) as [m|]; [|done]. simpl.
  intros [= <- _] Hbusy.
  pose proof (count_sum m) as Hsum.
  destruct (decide (Workers.count Workers.WorkerStatusBusy m = size m)) as [Hall|Hnot].
  2:{ exfalso. revert Hbusy. rewrite app_nil_r.
      destruct (bool_decide _ && bool_decide _); set_solver. }
  assert (Hidle : Workers.count Workers.WorkerStatusIdle m = 0) by lia.
  rewrite Hidle. simpl. set_solver.
Qed.

Lemma all_busy_warning_comes_with_unhealthy_witness :
  ∃ lines figures,
    Workers.checkHealth Workers.busy_pool 0 = Some (lines, figures)
    ∧ (LWarn, "all workers are busy - consider scaling up") ∈ lines
    ∧ (LWarn, "worker pool is unhealthy") ∈ lines.
Proof.
  destruct (Workers.checkHealth Workers.busy_pool 0) as [[lines figures]|] eqn:Hc;
    [|by vm_compute in Hc].
  assert (Hbusy : (LWarn, "all workers are busy - consider scaling up") ∈ lines).
  { revert Hc. vm_compute. intros [= <- _]. set_solver. }
  exists lines, figures. split; [reflexivity|]. split; [exact Hbusy|].
  exact (all_busy_warning_comes_with_unhealthy Workers.busy_pool 0 lines figures Hc Hbusy).
Defined.

Lemma start_loop_fills n : ∀ i ws,
  i + n = length ws →
  Workers.start_loop n i ws
  = Some (take i ws ++ ((λ j, Some (Workers.new_worker j)) <$> seq i n)).
Proof.
  induction n as [|n IH]; intros i ws Hlen; simpl.
  - rewrite app_nil_r, firstn_all2 by lia. done.
  - rewrite decide_True by lia. rewrite IH by (rewrite length_insert; lia).
    f_equal. rewrite cons_middle, app_assoc. f_equal.
    rewrite (take_S_r _ _ (Some (Workers.new_worker i))).
    + f_equal. rewrite take_insert_ge by lia. done.
    + apply list_lookup_insert_eq. lia.
Qed.

Lemma status_loop_started l : ∀ m,
  Workers.status_loop ((λ j, Some (Workers.new_worker j)) <$> l) m
  = Some (foldl (λ acc j, <[Workers.id (Workers.new_worker j) := Workers.WorkerStatusIdle]> acc)
            m l).
Proof. induction l as [|j l IH]; intros m; simpl; [done | apply IH]. Qed.

Lemma started_statuses l : ∀ m : gmap string Workers.WorkerStatus,
  dom (foldl (λ acc j, <[Workers.id (Workers.new_worker j) := Workers.WorkerStatusIdle]> acc)
         m l)
  = list_to_set ((λ j, Workers.id (Workers.new_worker j)) <$> l) ∪ dom m
  ∧ (map_Forall (λ _ v, v = Workers.WorkerStatusIdle) m →
     map_Forall (λ _ v, v = Workers.WorkerStatusIdle)
       (foldl (λ acc j, <[Workers.id (Workers.new_worker j) := Workers.WorkerStatusIdle]> acc)
          m l)).
Proof.
  induction l as [|j l IH]; intros m; cbn [foldl fmap list_fmap list_to_set].
  - split; [set_solver | done].
  - destruct (IH (<[Workers.id (Workers.new_worker j) := Workers.WorkerStatusIdle]> m))
      as [Hdom Hall].
    split.
    + rewrite Hdom, dom_insert_L. set_solver.
    + intros Hm. apply Hall. by apply map_Forall_insert_2.
Qed.

Lemma count_all_idle (m : gmap string Workers.WorkerStatus) :
  map_Forall (λ _ v, v = Workers.WorkerStatusIdle) m →
  Workers.count Workers.WorkerStatusIdle m = size m
  ∧ Workers.count Workers.WorkerStatusBusy m = 0
  ∧ Workers.count Workers.WorkerStatusStopped m = 0.
Proof.
  intros Hall. unfold Workers.count. rewrite <- (length_map_to_list m).
  assert (Hl : Forall (λ kv, kv.2 = Workers.WorkerStatusIdle) (map_to_list m)).
  { apply Forall_forall. intros [k v] Hkv. apply elem_of_map_to_list in Hkv.
    exact (Hall k v Hkv). }
  induction Hl as [|[k v] l Hv _ IH]; simpl; [done|]. simpl in Hv. subst v.
  rewrite filter_cons_True by done.
  rewrite !(filter_cons_False _ _ l) by (simpl; discriminate). simpl.
  destruct IH as (-> & -> & ->). done.
Qed.

(** X29. Before [Start] the status of a pool of positive size cannot be
    read: its workers are nil and [GetStatus] dereferences the first.  Once
    [Start] has run, the pool has one worker per slot, whose ids "worker-0",
    "worker-1", ... are distinct, all idle: the health monitor reports
    total = idle = size, no busy and no stopped worker, and the pool healthy
    exactly when its size is positive. *)
Theorem started_pool_is_idle n now :
  (0 < n → Workers.GetStatus (Workers.NewPool n) = None)
  ∧ ∃ p, Workers.Start (Workers.NewPool n) = Some p
      ∧ Workers.HealthMonitor_GetStatus p now
        = Some {| Workers.TotalWorkers := n; Workers.IdleWorkers := n;
                  Workers.BusyWorkers := 0; Workers.StoppedWorkers := 0;
                  Workers.Healthy := bool_decide (0 < n);
                  Workers.HTimestamp := now |}.
Proof.
  split.
  { intros Hn. destruct n as [|n]; [lia|]. done. }
  unfold Workers.Start, Workers.NewPool. cbn [Workers.size Workers.workers].
  rewrite start_loop_fills by (rewrite length_replicate; lia).
  eexists. split; [reflexivity|].
  unfold Workers.HealthMonitor_GetStatus, Workers.GetStatus. cbn [Workers.workers].
  rewrite take_0. cbn [app]. rewrite status_loop_started.
  destruct (started_statuses (seq 0 n) ∅) as [Hdom Hall].
  set (m := foldl _ ∅ (seq 0 n)) in *.
  assert (Hsize : size m = n).
  { rewrite <- size_dom, Hdom, dom_empty_L, union_empty_r_L.
    rewrite size_list_to_set.
    - by rewrite length_fmap, length_seq.
    - assert (Hinj : Inj eq eq (λ j : nat, Workers.id (Workers.new_worker j))).
      { intros i j Hij. unfold Workers.new_worker in Hij. simpl in Hij.
        apply (inj (String.app "worker-")) in Hij. by apply (inj pretty) in Hij. }
      apply (NoDup_fmap_2 _), NoDup_seq. }
  destruct (count_all_idle m) as (Hi & Hb & Hs); [by apply Hall, map_Forall_empty|].
  rewrite Hi, Hb, Hs, Hsize. simpl. by rewrite andb_true_r.
Qed.

(** ** The configuration *)

Lemma validLogLevels_spec level :
  default false (Config.validLogLevels !! level) = true
  ↔ level ∈ ["debug"; "info"; "warn"; "error"].
Proof.
  unfold Config.validLogLevels.
  destruct (decide (level = "debug")) as [->|H1]; [split; [set_solver | done]|].
  rewrite lookup_insert_ne by done.
  destruct (decide (level = "info")) as [->|H2]; [split; [set_solver | done]|].
  rewrite lookup_insert_ne by done.
  destruct (decide (level = "warn")) as [->|H3]; [split; [set_solver | done]|].
  rewrite lookup_insert_ne by done.
  destruct (decide (level = "error")) as [->|H4]; [split; [set_solver | done]|].
  rewrite lookup_singleton_ne by done. simpl. split; [done | set_solver].
Qed.

(** X30. [Config.Validate] accepts a configuration exactly when both ports
    lie in 1..65535, the Redis address is non-empty and the log level is
    one of debug, info, warn, error.  It looks at nothing else: whatever
    the timeouts (zero or negative ones included), the verdict is the same.
    The defaults of the fields are accepted, so [Load] succeeds in an empty
    environment. *)
Theorem config_Validate_accepts_exactly c :
  (Config.Validate c = None ↔
     (1 ≤ Config.HTTPPort c ≤ 65535)%Z
     ∧ (1 ≤ Config.GRPCPort c ≤ 65535)%Z
     ∧ Config.Addr (Config.Redis c) ≠ ""
     ∧ Config.LogLevel c ∈ ["debug"; "info"; "warn"; "error"])
  ∧ (∀ t, Config.Validate (Config.with_timeouts t c) = Config.Validate c)
  ∧ Config.Validate Config.default_config = None.
Proof.
  split; [|split; [done | reflexivity]].
  unfold Config.Validate. rewrite <- validLogLevels_spec.
  destruct (Z.ltb_spec (Config.HTTPPort c) 1); simpl; [split; [done | lia]|].
  destruct (Z.ltb_spec 65535 (Config.HTTPPort c)); simpl; [split; [done | lia]|].
  destruct (Z.ltb_spec (Config.GRPCPort c) 1); simpl; [split; [done | lia]|].
  destruct (Z.ltb_spec 65535 (Config.GRPCPort c)); simpl; [split; [done | lia]|].
  destruct (decide (Config.Addr (Config.Redis c) = "")); [split; [done | tauto]|].
  destruct (default false (Config.validLogLevels !! Config.LogLevel c)); simpl.
  - split; [intros _; split_and!; done || lia | done].
  - split; [done | intros (_ & _ & _ & ?); done].
Qed.
